(** * Even G2 protocol SDK: a shallow embedding and its properties

    The development follows the TypeScript sources of the repository:

    - [JS]: the fragment of JavaScript arithmetic and of the Node [Buffer]
      that the sources rely on (32-bit bitwise operators, hexadecimal
      text, typed-array indexing);
    - [DeviceInfo]: the protobuf helpers of the device-info example,
      [src/unnamed/part_000] ([encodeVarint], [pbVarint], [pbBytes],
      [toHex], [parseProtobuf]);
    - [Sdk]: the [G2] client class, the second part of
      [src/sdk/examples/teleprompter.ts] (the SDK's [index.ts]);
    - [Codec]: the frame codec and the fragment reassembler, which the
      TypeScript sources only talk to through the bridge;
    - [RawCommand]: [sendRaw] of the examples, which goes around the
      client;
    - [Samples], [Invariants]: sample messages and worlds, and the
      predicates that the facts are stated with;
    - [Payload], [Printing]: the payloads that the device-info example
      builds from [pbVarint] and [pbBytes], and its [printResponse];
    - [Async]: the [async] methods of the client, [connect], [close]
      and the commands, as calls that wait at an [await];
    - [Views], [Replies]: what further facts about the client are
      stated with, and more sample messages.

    The facts come after the definitions, in [JSFacts],
    [DeviceInfoFacts], [SdkFacts], [RawCommandFacts], [CodecFacts],
    [PayloadFacts], [ClientFacts], [RawReplyFacts], [PrintingFacts]
    and [AsyncFacts]. *)

From Stdlib Require Import ZArith List String Ascii Bool Lia.
From Stdlib Require Import DecimalString DecimalN.
From Stdlib Require Import Floats.SpecFloat.
Import ListNotations.

Local Open Scope string_scope.
Local Open Scope list_scope.
Local Open Scope Z_scope.

(* ================================================================== *)
(** ** JavaScript numbers, bitwise operators and buffers *)
(* ================================================================== *)

Module JS.

(** [ToInt32]: the value modulo 2^32, read as a signed 32-bit integer.
    Only integral numbers occur in the modelled code. *)
Definition to_int32 (x : Z) : Z := (x + 2^31) mod 2^32 - 2^31.

(** [a & b], [a | b]: both operands go through [ToInt32]. *)
Definition and (a b : Z) : Z := Z.land (to_int32 a) (to_int32 b).
Definition or (a b : Z) : Z := Z.lor (to_int32 a) (to_int32 b).

(** [a << s]: the shift count is taken modulo 32 and the result is
    brought back to 32 bits. *)
Definition shl (a s : Z) : Z := to_int32 (Z.shiftl (to_int32 a) (s mod 32)).

(** [a >> s]: sign-propagating right shift. *)
Definition sar (a s : Z) : Z := Z.shiftr (to_int32 a) (s mod 32).

(** A [Buffer] (a [Uint8Array]) is the list of its bytes. *)
Definition Buffer := list Z.

Definition length (bytes : Buffer) : Z := Z.of_nat (List.length bytes).

(** [bytes[i]]: [undefined] (here [None]) outside of [0 .. length-1]. *)
Definition index (bytes : Buffer) (i : Z) : option Z :=
  if (0 <=? i) && (i <? length bytes) then nth_error bytes (Z.to_nat i)
  else None.

(** An indexed byte used as an operand of [&], [>>]: [undefined]
    converts to [0]. *)
Definition operand (v : option Z) : Z :=
  match v with Some b => b | None => 0 end.

(** [bytes.subarray(start, end)]: negative indices count from the end,
    both are clamped to the buffer, and an empty range gives an empty
    view. *)
Definition clamp_index (len i : Z) : Z :=
  if i <? 0 then Z.max (len + i) 0 else Z.min i len.

Definition subarray (bytes : Buffer) (i j : Z) : Buffer :=
  let len := length bytes in
  let b := clamp_index len i in
  let e := clamp_index len j in
  firstn (Z.to_nat (e - b)) (skipn (Z.to_nat b) bytes).

(** Hexadecimal digits, lower case as [Number.prototype.toString(16)]
    and [buf.toString("hex")] print them. *)
Definition hex_digit (d : Z) : ascii :=
  match d with
  | 0 => "0" | 1 => "1" | 2 => "2" | 3 => "3" | 4 => "4" | 5 => "5"
  | 6 => "6" | 7 => "7" | 8 => "8" | 9 => "9" | 10 => "a" | 11 => "b"
  | 12 => "c" | 13 => "d" | 14 => "e" | _ => "f"
  end%char.

Fixpoint hex_of_pos (fuel : nat) (n : Z) (acc : string) : string :=
  match fuel with
  | O => acc
  | S fuel' =>
      let acc' := String (hex_digit (n mod 16)) acc in
      if n / 16 =? 0 then acc' else hex_of_pos fuel' (n / 16) acc'
  end.

(** [n.toString(16)] for an integral [n]. *)
Definition toString16 (n : Z) : string :=
  if n <? 0 then String "-"%char (hex_of_pos (S (Z.to_nat (Z.log2 (- n)))) (- n) EmptyString)
  else hex_of_pos (S (Z.to_nat (Z.log2 n))) n EmptyString.

(** [s.padStart(2, "0")]. *)
Definition padStart2 (s : string) : string :=
  match s with
  | EmptyString => "00"
  | String c EmptyString => String "0"%char s
  | _ => s
  end.

(** The value of a hexadecimal digit, either case. *)
Definition hex_value (c : ascii) : option Z :=
  let n := Z.of_nat (nat_of_ascii c) in
  if (48 <=? n) && (n <=? 57) then Some (n - 48)
  else if (97 <=? n) && (n <=? 102) then Some (n - 87)
  else if (65 <=? n) && (n <=? 70) then Some (n - 55)
  else None.

(** [Buffer.from(hex, "hex")]: bytes are read two digits at a time; the
    decoding stops at the first pair that is not hexadecimal, and a
    trailing single digit is dropped. *)
Fixpoint from_hex (hex : string) : Buffer :=
  match hex with
  | String c1 (String c2 rest) =>
      match hex_value c1, hex_value c2 with
      | Some h, Some l => (16 * h + l) :: from_hex rest
      | _, _ => []
      end
  | _ => []
  end.

(** [buf.toString("hex")]. *)
Definition byte_hex (b : Z) : string :=
  String (hex_digit (b / 16)) (String (hex_digit (b mod 16)) EmptyString).

Fixpoint to_hex (bytes : Buffer) : string :=
  match bytes with
  | [] => EmptyString
  | b :: rest => (byte_hex b ++ to_hex rest)%string
  end.

(** [String(n)] for an integral number below 10^21: plain decimal
    digits, with a sign for negative numbers. *)
Definition toString10 (n : Z) : string :=
  if n <? 0 then String "-"%char (NilZero.string_of_uint (N.to_uint (Z.to_N (- n))))
  else NilZero.string_of_uint (N.to_uint (Z.to_N n)).

End JS.

(* ================================================================== *)
(** ** The device-info example: protobuf helpers *)
(* ================================================================== *)

Module DeviceInfo.

Import JS.

(** [encodeVarint]: the [while (value > 0x7f)] loop.  After the first
    [value >>= 7] the value is a 32-bit integer below 2^24, so the loop
    body runs at most five times; [encodeVarint_loop] is given six
    rounds, and [encodeVarint_unfold] below shows that the function
    obeys the equation of the loop for every argument. *)
Fixpoint encodeVarint_loop (fuel : nat) (value : Z) : list Z :=
  match fuel with
  | O => []
  | S fuel' =>
      if value >? 127
      then JS.or (JS.and value 127) 128 :: encodeVarint_loop fuel' (JS.sar value 7)
      else [JS.and value 127]
  end.

Definition encodeVarint (value : Z) : list Z := encodeVarint_loop 6 value.

Definition pbVarint (field value : Z) : list Z :=
  JS.or (JS.shl field 3) 0 :: encodeVarint value.

Definition pbBytes (field : Z) (data : list Z) : list Z :=
  JS.or (JS.shl field 3) 2 :: encodeVarint (JS.length data) ++ data.

Definition toHex (bytes : list Z) : string :=
  String.concat EmptyString (map (fun b => padStart2 (toString16 b)) bytes).

(** The records pushed on [fields]; [type_of] is their [type] member. *)
Inductive Field :=
  | Varint (field value : Z)
  | Bytes (field : Z) (hex : string) (str : option string) (length : Z)
  | Fixed32 (field value : Z)
  | Fixed64 (field : Z) (value : string).

Definition type_of (f : Field) : string :=
  match f with
  | Varint _ _ => "varint"
  | Bytes _ _ _ _ => "bytes"
  | Fixed32 _ _ => "fixed32"
  | Fixed64 _ _ => "fixed64"
  end.

Definition field_of (f : Field) : Z :=
  match f with
  | Varint n _ | Bytes n _ _ _ | Fixed32 n _ | Fixed64 n _ => n
  end.

(** The two inner loops are the same loop:
    [while (pos < bytes.length) { b = bytes[pos++]; acc |= (b & 0x7f) << shift;
       shift += 7; if (!(b & 0x80)) break; }].
    It returns the accumulator and the new [pos].  A round either reads
    inside the buffer and moves on by one, or reads [undefined] at a
    negative [pos] and leaves, so [S (length bytes)] rounds are never
    used up. *)
Fixpoint readVarint (fuel : nat) (bytes : Buffer) (pos acc shift : Z) : Z * Z :=
  match fuel with
  | O => (acc, pos)
  | S fuel' =>
      if pos <? JS.length bytes then
        let b := operand (index bytes pos) in
        let pos := pos + 1 in
        let acc := JS.or acc (JS.shl (JS.and b 127) shift) in
        let shift := shift + 7 in
        if JS.and b 128 =? 0 then (acc, pos)
        else readVarint fuel' bytes pos acc shift
      else (acc, pos)
  end.

(** [/^[\x20-\x7e\r\n\t]+$/] on one character. *)
Definition printable (b : Z) : bool :=
  ((32 <=? b) && (b <=? 126)) || (b =? 13) || (b =? 10) || (b =? 9).

(** [data.toString("utf-8")] followed by the test
    [s.length > 0 && /^[\x20-\x7e\r\n\t]+$/.test(s)]: a byte below 128
    decodes to the character of that code and any other byte decodes to
    a character outside of the class, so the test holds exactly when
    [data] is not empty and all its bytes are in the class. *)
Definition printable_string (data : Buffer) : option string :=
  match data with
  | [] => None
  | _ => if forallb printable data
         then Some (string_of_list_ascii (map (fun b => ascii_of_nat (Z.to_nat b)) data))
         else None
  end.

(** [bytes.readUInt32LE(pos)] and [bytes.readBigUInt64LE(pos)] raise a
    [RangeError] unless the whole word lies inside the buffer. *)
Fixpoint little_endian (bs : list Z) : Z :=
  match bs with
  | [] => 0
  | b :: rest => b + 256 * little_endian rest
  end.

Definition readLE (width : Z) (bytes : Buffer) (pos : Z) : option Z :=
  if (0 <=? pos) && (pos + width <=? JS.length bytes)
  then Some (little_endian (firstn (Z.to_nat width) (skipn (Z.to_nat pos) bytes)))
  else None.

(** One round of the main loop of [parseProtobuf], entered with
    [pos < bytes.length]. *)
Inductive Step :=
  | Continue (pos : Z) (f : Field)
  | Break
  | Raise.

Definition iteration (bytes : Buffer) (pos : Z) : Step :=
  if pos >=? JS.length bytes then Break
  else
    let tag := operand (index bytes pos) in
    let pos := pos + 1 in
    let fieldNum := JS.sar tag 3 in
    let wireType := JS.and tag 7 in
    if wireType =? 0 then
      let '(value, pos) := readVarint (S (List.length bytes)) bytes pos 0 0 in
      Continue pos (Varint fieldNum value)
    else if wireType =? 2 then
      let '(len, pos) := readVarint (S (List.length bytes)) bytes pos 0 0 in
      let data := subarray bytes pos (pos + len) in
      let pos := pos + len in
      Continue pos (Bytes fieldNum (to_hex data) (printable_string data) len)
    else if wireType =? 5 then
      match readLE 4 bytes pos with
      | Some value => Continue (pos + 4) (Fixed32 fieldNum value)
      | None => Raise
      end
    else if wireType =? 1 then
      match readLE 8 bytes pos with
      | Some value => Continue (pos + 8) (Fixed64 fieldNum (toString10 value))
      | None => Raise
      end
    else Break.

(** How a call ends: it returns [fields] or lets the [RangeError] of a
    read past the end escape. *)
Inductive Completion :=
  | Return (fields : list Field)
  | Throw.

(** The main loop.  No bound on the number of rounds follows from the
    code, so the loop is run for [fuel] rounds and [None] says that it
    was still running after them. *)
Fixpoint parse_loop (fuel : nat) (bytes : Buffer) (pos : Z) (fields : list Field)
  : option Completion :=
  match fuel with
  | O => None
  | S fuel' =>
      if pos <? JS.length bytes then
        match iteration bytes pos with
        | Continue pos' f => parse_loop fuel' bytes pos' (fields ++ [f])
        | Break => Some (Return fields)
        | Raise => Some Throw
        end
      else Some (Return fields)
  end.

Definition parseProtobuf (fuel : nat) (hex : string) : option Completion :=
  parse_loop fuel (from_hex hex) 0 [].

End DeviceInfo.


(* ================================================================== *)
(** ** The SDK: the G2 client *)
(* ================================================================== *)

Module Sdk.

#[local] Set Warnings "-register-all".

(** *** Values *)

(** What [JSON.parse] returns.  Numbers are IEEE doubles; the members of
    an object are its own properties in insertion order, one entry per
    name. *)
Inductive JSON :=
  | JNull
  | JBool (b : bool)
  | JNumber (x : spec_float)
  | JString (s : string)
  | JArray (items : list JSON)
  | JObject (members : list (string * JSON)).

Fixpoint assoc {V : Type} (k : string) (l : list (string * V)) : option V :=
  match l with
  | [] => None
  | (k', v) :: rest => if String.eqb k k' then Some v else assoc k rest
  end.

(** [v.name] for the names the client reads ([event], [data], [id],
    [error], [result], [code], [message]): the member of an object,
    [undefined] (here [None]) on an array and on a boolean, number or
    string, whose prototypes have none of these names.  Reading a
    property of [null] is a [TypeError] and is handled where it can
    occur. *)
Definition get (v : JSON) (name : string) : option JSON :=
  match v with
  | JObject members => assoc name members
  | _ => None
  end.

(** ["name" in v]: [None] stands for the [TypeError] that [in] raises
    when its right operand is not an object. *)
Definition has (name : string) (v : JSON) : option bool :=
  match v with
  | JObject members =>
      Some (match assoc name members with Some _ => true | None => false end)
  | JArray _ => Some false
  | _ => None
  end.

(** [v ?? {}]. *)
Definition orEmptyObject (v : option JSON) : JSON :=
  match v with
  | None | Some JNull => JObject []
  | Some x => x
  end.

(** The truth value of a JSON value. *)
Definition truthy (v : JSON) : bool :=
  match v with
  | JNull => false
  | JBool b => b
  | JNumber (S754_zero _) | JNumber S754_nan => false
  | JNumber _ => true
  | JString s => negb (String.eqb s EmptyString)
  | JArray _ | JObject _ => true
  end.

(** Whether [ToString(v)] returns, as a template literal and
    [new Error(v)] apply it.  An object made by [JSON.parse] is
    converted by the [toString] that it inherits unless it has a member
    of that name: no member is callable, [valueOf] returns the object
    itself, and the conversion ends in a [TypeError].  An array is
    converted by [join], which converts every item other than [null];
    the other values always have a text. *)
Fixpoint has_text (v : JSON) : bool :=
  match v with
  | JObject members =>
      match assoc "toString" members with Some _ => false | None => true end
  | JArray items => forallb has_text items
  | _ => true
  end.

(** The same for the value of a property that may be [undefined]. *)
Definition converts (v : option JSON) : bool :=
  match v with
  | Some x => has_text x
  | None => true
  end.

(** The errors that the client creates or lets escape. *)
Inductive JSError :=
  | Error (message : string)
      (** [new Error(message)] *)
  | BridgeError (code message : option JSON)
      (** the error made from [`[${err.code}] ${err.message}`]: its
          message is fixed by the two interpolated values, which both
          have a text *)
  | RawError (message : option JSON)
      (** [new Error(data.error.message)], for a message that has a
          text *)
  | TypeError
  | InvalidStateError
  | SyntaxError
      (** what [new WebSocket(url)] throws for a url that it refuses *).

(** *** Maps and sets *)

(** A [Map] with string keys: entries in insertion order, one per key.
    [set] on a present key replaces the value in place. *)
Definition JSMap (V : Type) := list (string * V).

Definition map_get {V} (m : JSMap V) (k : string) : option V := assoc k m.

Fixpoint map_set {V} (k : string) (v : V) (m : JSMap V) : JSMap V :=
  match m with
  | [] => [(k, v)]
  | (k', v') :: rest =>
      if String.eqb k k' then (k, v) :: rest else (k', v') :: map_set k v rest
  end.

Definition map_delete {V} (k : string) (m : JSMap V) : JSMap V :=
  filter (fun e => negb (String.eqb k (fst e))) m.

Definition keys {V} (m : JSMap V) : list string := map fst m.

(** An event handler is a function object, known by its identity. *)
Definition EventHandler := nat.

(** A [Set] of handlers, in insertion order. *)
Definition set_add (h : EventHandler) (s : list EventHandler) : list EventHandler :=
  if existsb (Nat.eqb h) s then s else s ++ [h].

Definition set_delete (h : EventHandler) (s : list EventHandler) : list EventHandler :=
  filter (fun h' => negb (Nat.eqb h h')) s.

(** *** Promises and sockets *)

(** A promise is settled at most once; [None] as a value is
    [undefined]. *)
Inductive PromiseState :=
  | Pending
  | Fulfilled (value : option JSON)
  | Rejected (reason : JSError).

(** [interface PendingRequest { resolve; reject }]: the two functions of
    one promise, known by the place of that promise in the store. *)
Definition PendingRequest := nat.

Inductive ReadyState := CONNECTING | OPEN | CLOSING | CLOSED.

(** A [WebSocket] made by [connectBridge], with what its handlers close
    over: [awaiting] is the promise of that [connectBridge] call
    ([onopen] resolves it, [onerror] rejects it) and [retry] says that
    the call was made by the reconnect timer, whose callback reacts to a
    rejection with [scheduleReconnect].  [outbox] lists the messages
    handed to [ws.send], each before its [JSON.stringify]. *)
Record WebSocket := mkWebSocket {
  readyState : ReadyState;
  outbox : list JSON;
  awaiting : nat;
  retry : bool
}.

(** *** The object *)

Record G2 := mkG2 {
  url : string;
  autoReconnect : bool;
  reconnectDelay : Z;
  ws : option nat;                       (** [null] or a socket *)
  pending : JSMap PendingRequest;
  listeners : JSMap (list EventHandler);
  idCounter : Z;
  closed : bool;
  reconnectTimer : option Z              (** [null] or a timer, with the time it is due *)
}.

(** The object together with what it points to and what it acts on:
    the promises and sockets it created, the clock, the log of the
    handler calls made by [emit] (oldest first), and the platform's
    [WebSocket] constructor: [accepts] tells the urls for which
    [new WebSocket(url)] makes a socket from those for which it throws
    a [SyntaxError] (a text that is no url, a scheme that is not one of
    a WebSocket, a fragment). *)
Record World := mkWorld {
  this : G2;
  promises : list PromiseState;
  sockets : list WebSocket;
  now : Z;
  calls : list (EventHandler * JSON);
  accepts : string -> bool
}.

Definition with_this (f : G2 -> G2) (w : World) : World :=
  mkWorld (f (this w)) (promises w) (sockets w) (now w) (calls w) (accepts w).

Definition with_promises (f : list PromiseState -> list PromiseState) (w : World) : World :=
  mkWorld (this w) (f (promises w)) (sockets w) (now w) (calls w) (accepts w).

Definition with_sockets (f : list WebSocket -> list WebSocket) (w : World) : World :=
  mkWorld (this w) (promises w) (f (sockets w)) (now w) (calls w) (accepts w).

(** The clock after [ms] more milliseconds. *)
Definition later (ms : Z) (w : World) : World :=
  mkWorld (this w) (promises w) (sockets w) (now w + Z.max 0 ms) (calls w) (accepts w).

Definition set_ws (v : option nat) (g : G2) : G2 :=
  mkG2 (url g) (autoReconnect g) (reconnectDelay g) v (pending g) (listeners g)
       (idCounter g) (closed g) (reconnectTimer g).

Definition set_pending (v : JSMap PendingRequest) (g : G2) : G2 :=
  mkG2 (url g) (autoReconnect g) (reconnectDelay g) (ws g) v (listeners g)
       (idCounter g) (closed g) (reconnectTimer g).

Definition set_listeners (v : JSMap (list EventHandler)) (g : G2) : G2 :=
  mkG2 (url g) (autoReconnect g) (reconnectDelay g) (ws g) (pending g) v
       (idCounter g) (closed g) (reconnectTimer g).

Definition set_idCounter (v : Z) (g : G2) : G2 :=
  mkG2 (url g) (autoReconnect g) (reconnectDelay g) (ws g) (pending g) (listeners g)
       v (closed g) (reconnectTimer g).

Definition set_closed (v : bool) (g : G2) : G2 :=
  mkG2 (url g) (autoReconnect g) (reconnectDelay g) (ws g) (pending g) (listeners g)
       (idCounter g) v (reconnectTimer g).

Definition set_reconnectTimer (v : option Z) (g : G2) : G2 :=
  mkG2 (url g) (autoReconnect g) (reconnectDelay g) (ws g) (pending g) (listeners g)
       (idCounter g) (closed g) v.

Fixpoint update {A} (i : nat) (f : A -> A) (l : list A) : list A :=
  match l, i with
  | [], _ => []
  | x :: rest, O => f x :: rest
  | x :: rest, S i' => x :: update i' f rest
  end.

(** [new Promise(...)]: a fresh pending promise. *)
Definition new_promise (w : World) : nat * World :=
  (List.length (promises w), with_promises (fun ps => ps ++ [Pending]) w).

(** [resolve(v)] and [reject(e)] settle the promise if it is still
    pending and do nothing otherwise. *)
Definition settle (p : nat) (s : PromiseState) (ps : list PromiseState)
  : list PromiseState :=
  update p (fun old => match old with Pending => s | _ => old end) ps.

Definition resolve (p : nat) (v : option JSON) : World -> World :=
  with_promises (settle p (Fulfilled v)).

Definition reject (p : nat) (e : JSError) : World -> World :=
  with_promises (settle p (Rejected e)).

Definition promise_state (w : World) (p : nat) : option PromiseState :=
  nth_error (promises w) p.

(** [this.ws?.readyState]. *)
Definition ws_readyState (w : World) : option ReadyState :=
  match ws (this w) with
  | Some i => option_map readyState (nth_error (sockets w) i)
  | None => None
  end.

Definition is_open (w : World) : bool :=
  match ws_readyState w with Some OPEN => true | _ => false end.

(** *** The constructor *)

(** [options?: G2Options | string]. *)
Inductive Options :=
  | NoOptions
  | UrlOption (url : string)
  | ObjectOptions (url : option string) (autoReconnect : option bool)
                  (reconnectDelay : option Z).

Definition default {A} (v : option A) (d : A) : A :=
  match v with Some x => x | None => d end.

Definition constructor (options : Options) : G2 :=
  let '(u, a, d) :=
    match options with
    | UrlOption u => (u, true, 2000)
    | NoOptions => ("ws://localhost:8765", true, 2000)
    | ObjectOptions u a d =>
        (default u "ws://localhost:8765", default a true, default d 2000)
    end in
  mkG2 u a d None [] [] 0 false None.

(** [new G2(options)] on a platform whose [WebSocket] constructor
    accepts the urls told by [platform]. *)
Definition new_G2 (platform : string -> bool) (options : Options) : World :=
  mkWorld (constructor options) [] [] 0 [] platform.

(** *** Methods *)

(** The delay that [setTimeout(callback, delay)] of Node uses for an
    integral [delay]: a delay below 1 or above 2^31 - 1 is set to 1. *)
Definition TIMEOUT_MAX : Z := 2147483647.

Definition timer_delay (delay : Z) : Z :=
  if (1 <=? delay) && (delay <=? TIMEOUT_MAX) then delay else 1.

(** [scheduleReconnect]. *)
Definition scheduleReconnect (w : World) : World :=
  match reconnectTimer (this w) with
  | Some _ => w
  | None =>
      with_this (set_reconnectTimer
                   (Some (now w + timer_delay (reconnectDelay (this w))))) w
  end.

(** [connectBridge]: the body of the promise executor.  [from_timer]
    tells the call made by the reconnect timer from the others.  The
    result is the promise returned.  When [new WebSocket(this.url)]
    throws, the executor ends there and its promise is rejected with
    what was thrown; [closed] has been assigned by then. *)
Definition connectBridge (from_timer : bool) (w : World) : nat * World :=
  let '(p, w) := new_promise w in
  if is_open w then (p, resolve p None w)
  else
    let w := with_this (set_closed false) w in
    if accepts w (url (this w)) then
      let i := List.length (sockets w) in
      let w := with_sockets (fun ss => ss ++ [mkWebSocket CONNECTING [] p from_timer]) w in
      (p, with_this (set_ws (Some i)) w)
    else (p, reject p SyntaxError w).

(** [emit]: every handler registered for [event] is called with [data],
    in the order of the set; what a handler throws is dropped.  Handlers
    are taken not to call back into the object while [emit] runs. *)
Definition emit (event : JSON) (data : JSON) (w : World) : World :=
  let handlers :=
    match event with
    | JString name => default (map_get (listeners (this w)) name) []
    | _ => []
    end in
  mkWorld (this w) (promises w) (sockets w) (now w)
          (calls w ++ map (fun h => (h, data)) handlers) (accepts w).

(** How a handler of the object ends. *)
Inductive Completion := Normal | Throws (e : JSError).

(** [handleMessage] after [JSON.parse] has returned [msg].  The error
    of a reply is built after the entry has left the map: reading
    [err.code] of [null] throws, and so does the template literal when
    [err.code] or [err.message] has no text. *)
Definition dispatch (msg : JSON) (w : World) : World * Completion :=
  match has "event" msg with
  | None => (w, Throws TypeError)
  | Some true =>
      let event := default (get msg "event") JNull in
      let data := orEmptyObject (get msg "data") in
      (emit event data w, Normal)
  | Some false =>
      match get msg "id" with
      | Some (JString id) =>
          match map_get (pending (this w)) id with
          | None => (w, Normal)
          | Some req =>
              let w := with_this (fun g => set_pending (map_delete id (pending g)) g) w in
              match get msg "error" with
              | Some JNull => (w, Throws TypeError)
              | Some err =>
                  if converts (get err "code") && converts (get err "message") then
                    (reject req (BridgeError (get err "code") (get err "message")) w,
                     Normal)
                  else (w, Throws TypeError)
              | None => (resolve req (Some (orEmptyObject (get msg "result"))) w, Normal)
              end
          end
      | _ => (w, Normal)
      end
  end.

Section WithJSON.

(** [JSON.parse]: [None] when it throws a [SyntaxError]. *)
Variable JSON_parse : string -> option JSON.

Definition handleMessage (raw : string) (w : World) : World * Completion :=
  match JSON_parse raw with
  | None => (w, Normal)
  | Some msg => dispatch msg w
  end.

End WithJSON.

(** [++this.idCounter]: the counter is a double.  It counts exactly up
    to 2^53; there [2^53 + 1] rounds back to [2^53] and the counter
    stays. *)
Definition increment (n : Z) : Z := if n <? 2^53 then n + 1 else n.

(** [send]: the body of the promise executor; the result is the promise
    returned.  [params] is [undefined] ([None]) or a value; the message
    gets a [params] member when that value is truthy. *)
Definition send (method : string) (params : option JSON) (w : World) : nat * World :=
  let '(p, w) := new_promise w in
  match ws (this w) with
  | Some i =>
      if is_open w then
        let n := increment (idCounter (this w)) in
        let id := JS.toString10 n in
        let msg := JObject ([("id", JString id); ("method", JString method)]
                            ++ match params with
                               | Some q => if truthy q then [("params", q)] else []
                               | None => []
                               end) in
        let w := with_this (set_idCounter n) w in
        let w := with_this (fun g => set_pending (map_set id p (pending g)) g) w in
        (p, with_sockets
              (update i (fun s => mkWebSocket (readyState s) (outbox s ++ [msg])
                                              (awaiting s) (retry s))) w)
      else (p, reject p (Error "Not connected to bridge") w)
  | None => (p, reject p (Error "Not connected to bridge") w)
  end.

(** [ws.close()]. *)
Definition socket_close (s : WebSocket) : WebSocket :=
  match readyState s with
  | CLOSED => s
  | _ => mkWebSocket CLOSING (outbox s) (awaiting s) (retry s)
  end.

(** [closeBridge]. *)
Definition closeBridge (w : World) : World :=
  let w := with_this (set_closed true) w in
  let w := with_this (set_reconnectTimer None) w in
  match ws (this w) with
  | Some i => with_this (set_ws None) (with_sockets (update i socket_close) w)
  | None => w
  end.

(** [on] and [off]. *)
Definition on (event : string) (handler : EventHandler) (w : World) : World :=
  with_this (fun g =>
    set_listeners
      (map_set event (set_add handler (default (map_get (listeners g) event) []))
               (listeners g)) g) w.

Definition off (event : string) (handler : EventHandler) (w : World) : World :=
  with_this (fun g =>
    match map_get (listeners g) event with
    | Some s => set_listeners (map_set event (set_delete handler s) (listeners g)) g
    | None => g
    end) w.

(** The commands are [send] with a fixed method.  [connect] is
    [connectBridge] followed, once its promise is resolved, by
    [send("connect")]; [close] is [send("disconnect")] on an open
    socket followed, once that promise is settled, by [closeBridge]:
    in a run they are these calls one after the other. *)
Definition disconnect := send "disconnect" None.
Definition setText (text : string) :=
  send "setText" (Some (JObject [("text", JString text)])).
Definition setTeleprompter (title body : string) :=
  send "setTeleprompter" (Some (JObject [("title", JString title); ("body", JString body)])).
Definition startNavigation := send "startNavigation" None.
Definition setNavigation (data : JSON) := send "setNavigation" (Some data).
Definition stopNavigation := send "stopNavigation" None.
Definition getStatus := send "getStatus" None.

(** *** The handlers that [connectBridge] installs on a socket *)

(** [ws.onopen]. *)
Definition onopen (s : WebSocket) (w : World) : World := resolve (awaiting s) None w.

(** [ws.onerror]; a rejection that reaches the [catch] of the timer
    callback runs [scheduleReconnect]. *)
Definition onerror (s : WebSocket) (w : World) : World :=
  if is_open w then w
  else
    let was_pending :=
      match promise_state w (awaiting s) with Some Pending => true | _ => false end in
    let w := reject (awaiting s)
                    (Error ("Bridge connection failed: " ++ url (this w))) w in
    if retry s && was_pending then scheduleReconnect w else w.

(** [for (const [id, req] of this.pending) req.reject(e)]. *)
Definition reject_all (e : JSError) (reqs : JSMap PendingRequest) (w : World) : World :=
  fold_left (fun w r => reject (snd r) e w) reqs w.

(** [ws.onclose]. *)
Definition onclose (w : World) : World :=
  let w := reject_all (Error "Bridge connection lost") (pending (this w)) w in
  let w := with_this (set_pending []) w in
  if autoReconnect (this w) && negb (closed (this w)) then scheduleReconnect w else w.

(** The callback of the reconnect timer.  When the promise of
    [connectBridge] is rejected at once, the [catch] runs
    [scheduleReconnect] right after the callback. *)
Definition reconnect_callback (w : World) : World :=
  let w := with_this (set_reconnectTimer None) w in
  if closed (this w) then w
  else
    let '(p, w) := connectBridge true w in
    match promise_state w p with
    | Some (Rejected _) => scheduleReconnect w
    | _ => w
    end.

(** *** Runs *)

(** What can happen to the object: a call of one of its methods, an
    event on one of its sockets, or time going by. *)
Inductive Op :=
  | CallSend (method : string) (params : option JSON)
  | CallOn (event : string) (handler : EventHandler)
  | CallOff (event : string) (handler : EventHandler)
  | CallConnectBridge
  | CallCloseBridge
  | SocketOpen (i : nat)
  | SocketError (i : nat)
  | SocketClose (i : nat)
  | SocketMessage (i : nat) (raw : string)
  | Elapse (ms : Z).

Definition set_readyState (r : ReadyState) (s : WebSocket) : WebSocket :=
  mkWebSocket r (outbox s) (awaiting s) (retry s).

Section Run.

Variable JSON_parse : string -> option JSON.

Definition step (op : Op) (w : World) : World :=
  match op with
  | CallSend method params => snd (send method params w)
  | CallOn event handler => on event handler w
  | CallOff event handler => off event handler w
  | CallConnectBridge => snd (connectBridge false w)
  | CallCloseBridge => closeBridge w
  | SocketOpen i =>
      match nth_error (sockets w) i with
      | Some s =>
          match readyState s with
          | CONNECTING => onopen s (with_sockets (update i (set_readyState OPEN)) w)
          | _ => w
          end
      | None => w
      end
  | SocketError i =>
      match nth_error (sockets w) i with
      | Some s => onerror s w
      | None => w
      end
  | SocketClose i =>
      match nth_error (sockets w) i with
      | Some s =>
          match readyState s with
          | CLOSED => w
          | _ => onclose (with_sockets (update i (set_readyState CLOSED)) w)
          end
      | None => w
      end
  | SocketMessage i raw =>
      match nth_error (sockets w) i with
      | Some _ => fst (handleMessage JSON_parse raw w)
      | None => w
      end
  | Elapse ms =>
      let w := later ms w in
      match reconnectTimer (this w) with
      | Some due => if due <=? now w then reconnect_callback w else w
      | None => w
      end
  end.

Definition run (ops : list Op) (w : World) : World :=
  fold_left (fun w op => step op w) ops w.

End Run.

End Sdk.


(* ================================================================== *)
(** ** The device-info example: raw commands *)
(* ================================================================== *)

(** [sendRaw] of the examples goes around the client: it takes the
    socket out of the object, sends on it, and waits for the answer with
    a message listener of its own.  The pending map plays no part. *)

Module RawCommand.

Import Sdk.

(** The handler that [sendRaw] adds to a socket, with what it closes
    over: the socket, the id and the promise. *)
Record RawListener := mkRawListener {
  raw_socket : nat;
  raw_id : string;
  raw_promise : nat
}.

(** The world of the client and the listeners added by [sendRaw], in the
    order of [addEventListener]. *)
Record RawWorld := mkRawWorld {
  base : World;
  raw_listeners : list RawListener
}.

(** [v ?? []]. *)
Definition orEmptyArray (v : option JSON) : JSON :=
  match v with
  | None | Some JNull => JArray []
  | Some x => x
  end.

(** [sendRaw]: the body of the promise executor; the result is the
    promise returned.  [clock] is [Date.now()] and [random] is the text
    of [Math.random()]; the four values of [params] come as JSON values.
    An executor that throws rejects its promise: [ws.addEventListener]
    throws on [null], and [ws.send] throws on a socket that is still
    connecting; on a closing or closed socket [ws.send] drops the
    message. *)
Definition sendRaw (clock : Z) (random : string) (svcHi svcLo payload wait : JSON)
                   (rw : RawWorld) : nat * RawWorld :=
  let '(p, w) := new_promise (base rw) in
  let id := (JS.toString10 clock ++ random)%string in
  let msg := JObject [("id", JString id); ("method", JString "sendRaw");
                      ("params", JObject [("svcHi", svcHi); ("svcLo", svcLo);
                                          ("payload", payload); ("wait", wait)])] in
  match ws (this w) with
  | None => (p, mkRawWorld (reject p TypeError w) (raw_listeners rw))
  | Some i =>
      let ls := raw_listeners rw ++ [mkRawListener i id p] in
      match option_map readyState (nth_error (sockets w) i) with
      | Some CONNECTING => (p, mkRawWorld (reject p InvalidStateError w) ls)
      | Some OPEN =>
          (p, mkRawWorld
                (with_sockets
                   (update i (fun s => mkWebSocket (readyState s) (outbox s ++ [msg])
                                                   (awaiting s) (retry s))) w) ls)
      | _ => (p, mkRawWorld w ls)
      end
  end.

(** What the handler does with a message: nothing when the message is
    not for it; else it removes itself and settles its promise, unless
    building the error throws, which the [try] drops with the promise
    left as it is. *)
Inductive RawAnswer :=
  | Ignored
  | Settled (st : PromiseState)
  | Lost.

(** The handler on a message that parsed to [data].  Reading [data.id]
    of [null] throws inside the [try] and is dropped;
    [new Error(data.error.message)] throws when the message has no
    text. *)
Definition raw_answer (id : string) (data : JSON) : RawAnswer :=
  match data with
  | JNull => Ignored
  | _ =>
      match get data "id" with
      | Some (JString id') =>
          if String.eqb id' id then
            match get data "error" with
            | Some err =>
                if truthy err then
                  if converts (get err "message")
                  then Settled (Rejected (RawError (get err "message")))
                  else Lost
                else Settled (Fulfilled (Some (orEmptyArray
                               (match get data "result" with
                                | Some r => get r "responses"
                                | None => None
                                end))))
            | None =>
                Settled (Fulfilled (Some (orEmptyArray
                           (match get data "result" with
                            | Some r => get r "responses"
                            | None => None
                            end))))
            end
          else Ignored
      | _ => Ignored
      end
  end.

Section WithJSON.

Variable JSON_parse : string -> option JSON.

(** The listeners of socket [i] on a message, each in its turn. *)
Fixpoint raw_listeners_run (i : nat) (raw : string) (ls : list RawListener) (w : World)
  : World * list RawListener :=
  match ls with
  | [] => (w, [])
  | l :: rest =>
      let answer :=
        if Nat.eqb (raw_socket l) i then
          match JSON_parse raw with
          | Some data => raw_answer (raw_id l) data
          | None => Ignored
          end
        else Ignored in
      match answer with
      | Settled st =>
          raw_listeners_run i raw rest (with_promises (settle (raw_promise l) st) w)
      | Lost => raw_listeners_run i raw rest w
      | Ignored =>
          let '(w', kept) := raw_listeners_run i raw rest w in
          (w', l :: kept)
      end
  end.

(** A message on socket [i]: the [onmessage] handler of the client,
    then the listeners added since. *)
Definition raw_message (i : nat) (raw : string) (rw : RawWorld) : RawWorld :=
  let w := step JSON_parse (SocketMessage i raw) (base rw) in
  let '(w', ls) := raw_listeners_run i raw (raw_listeners rw) w in
  mkRawWorld w' ls.

End WithJSON.

End RawCommand.


(* ================================================================== *)
(** ** Sample messages and worlds *)
(* ================================================================== *)

Module Samples.

Import Sdk.

Definition quote : string := String (ascii_of_nat 34) EmptyString.

Definition q (s : string) : string := (quote ++ s ++ quote)%string.

(** Texts as the bridge sends them, and one that is cut short. *)
Definition response_text : string :=
  ("{" ++ q "id" ++ ":" ++ q "1" ++ "," ++ q "result" ++ ":{"
       ++ q "connected" ++ ":true}}")%string.

Definition failure_text : string :=
  ("{" ++ q "id" ++ ":" ++ q "1" ++ "," ++ q "error" ++ ":{"
       ++ q "code" ++ ":" ++ q "E42" ++ "," ++ q "message" ++ ":" ++ q "no glasses" ++ "}}")%string.

Definition event_text : string :=
  ("{" ++ q "event" ++ ":" ++ q "response" ++ "," ++ q "data" ++ ":{"
       ++ q "raw" ++ ":" ++ q "aa21" ++ "}}")%string.

Definition stray_text : string :=
  ("{" ++ q "id" ++ ":" ++ q "99" ++ "," ++ q "result" ++ ":{}}")%string.

Definition malformed_text : string := ("{" ++ q "id" ++ ":")%string.

(** The answer to a raw command sent at [Date.now() = 1770000000000]
    with [Math.random() = 0.25]. *)
Definition raw_reply_text : string :=
  ("{" ++ q "id" ++ ":" ++ q "17700000000000.25" ++ "," ++ q "result" ++ ":{"
       ++ q "responses" ++ ":[" ++ q "aa21" ++ "]}}")%string.

Definition response_json : JSON :=
  JObject [("id", JString "1"); ("result", JObject [("connected", JBool true)])].

Definition failure_json : JSON :=
  JObject [("id", JString "1");
           ("error", JObject [("code", JString "E42"); ("message", JString "no glasses")])].

Definition event_json : JSON :=
  JObject [("event", JString "response"); ("data", JObject [("raw", JString "aa21")])].

Definition stray_json : JSON :=
  JObject [("id", JString "99"); ("result", JObject [])].

Definition raw_reply_json : JSON :=
  JObject [("id", JString "17700000000000.25");
           ("result", JObject [("responses", JArray [JString "aa21"])])].

(** [JSON.parse] on the sample texts.  The examples below use no other
    text; any other text is answered like a malformed one. *)
Definition parse (raw : string) : option JSON :=
  assoc raw [(response_text, response_json); (failure_text, failure_json);
             (event_text, event_json); (stray_text, stray_json);
             (raw_reply_text, raw_reply_json)].

(** A platform whose [WebSocket] constructor takes the urls that start
    with [ws://] or [wss://] and refuses the others. *)
Definition platform (u : string) : bool :=
  String.prefix "ws://" u || String.prefix "wss://" u.

(** A client connected to the bridge, with a handler for [response]
    events. *)
Definition connected : World :=
  run parse [CallConnectBridge; SocketOpen 0%nat; CallOn "response" 7%nat]
      (new_G2 platform NoOptions).

(** The same client with one request in flight: key ["1"], promise 1. *)
Definition waiting : World := snd (getStatus connected).

(** A sum of bytes, to stand in for the integrity code of a frame. *)
Definition byte_sum (l : list Z) : Z := fold_right Z.add 0 l.

End Samples.


(* ================================================================== *)
(** ** Predicates on worlds and runs *)
(* ================================================================== *)

Module Invariants.

Import Sdk.

(** Every promise that the object or one of its sockets holds on to is
    in the store. *)
Definition well_formed (w : World) : Prop :=
  (forall k r, In (k, r) (pending (this w)) -> (r < List.length (promises w))%nat)
  /\ (forall s, In s (sockets w) -> (awaiting s < List.length (promises w))%nat).

(** The requests of the pending map are unsettled and each has a promise
    of its own, which no socket waits for. *)
Definition unsettled (w : World) : Prop :=
  NoDup (map snd (pending (this w)))
  /\ (forall k r, In (k, r) (pending (this w)) -> promise_state w r = Some Pending)
  /\ (forall s k r, In s (sockets w) -> In (k, r) (pending (this w)) -> awaiting s <> r).

(** The unsettled promise [req] can only be reached through the pending
    entry of key [K]. *)
Definition owned (K : string) (req : PendingRequest) (w : World) : Prop :=
  promise_state w req = Some Pending
  /\ (forall k r, In (k, r) (pending (this w)) -> r = req -> k = K)
  /\ (forall s, In s (sockets w) -> awaiting s <> req).

Section Quiet.

Variable JSON_parse : string -> option JSON.

(** An operation that is neither the close of a socket nor the arrival
    of a message whose [id] is [K]. *)
Definition quiet (K : string) (op : Op) : bool :=
  match op with
  | SocketClose _ => false
  | SocketMessage _ raw =>
      match JSON_parse raw with
      | Some msg =>
          match get msg "id" with
          | Some (JString k) => negb (String.eqb k K)
          | _ => true
          end
      | None => true
      end
  | _ => true
  end.

End Quiet.

(** The key under which the next [send] registers its request. *)
Definition next_key (w : World) : string :=
  JS.toString10 (increment (idCounter (this w))).

(** The counter is in the range where it counts, and every key of the
    pending map is the text of a number that the counter has passed. *)
Definition counted (w : World) : Prop :=
  0 <= idCounter (this w) <= 2^53
  /\ forall k, In k (keys (pending (this w))) ->
               exists n, 1 <= n <= idCounter (this w) /\ k = JS.toString10 n.

(** [n] calls of [getStatus] in a row. *)
Definition sends (n : N) (w : World) : World :=
  N.iter n (fun w => snd (getStatus w)) w.

(** The messages handed to [ws.send] so far, socket by socket in the
    order in which the sockets were made. *)
Definition sent (w : World) : list JSON := flat_map outbox (sockets w).

(** Their [id] members. *)
Definition sent_ids (w : World) : list (option JSON) :=
  map (fun msg => get msg "id") (sent w).

(** The texts of the numbers from 1 to [n], as [id] members. *)
Definition first_ids (n : nat) : list (option JSON) :=
  map (fun k => Some (JString (JS.toString10 (Z.of_nat k)))) (seq 1 n).

(** The counter has counted the messages sent, their ids are the texts
    of the numbers up to it, in the order of sending, and the socket of
    the object is the newest of the sockets. *)
Definition numbered (w : World) : Prop :=
  idCounter (this w) = Z.of_nat (List.length (sent w))
  /\ sent_ids w = first_ids (List.length (sent w))
  /\ (forall i, ws (this w) = Some i -> S i = List.length (sockets w)).

End Invariants.


(* ================================================================== *)
(** ** The frame codec and the fragment reassembler *)
(* ================================================================== *)

(** The TypeScript sources reach the glasses through the Python bridge
    ([bridge/server.py]), and the code that builds, checks and
    reassembles frames is not among them.  This module follows what the
    specification says of that code, in its sections 3, 4.1 and 4.2. *)

Module Codec.

Inductive FramingError :=
  | LengthOutOfRange
  | SequenceOutOfRange
  | ChecksumMismatch.

(** Modelled from the spec: the frame type of the codec, whose code is
    not among the sources.  It is the [Frame] of the data model, one
    physical packet, given by the values of its fields; the layout of
    the fields in the packet is not part of the specification.  The
    service id is [None] on a continuation fragment, which carries
    none. *)
Record Frame := mkFrame {
  sequence : Z;
  fragment_index : Z;
  fragment_total : Z;
  service : option (Z * Z);
  payload : list Z;
  checksum : Z
}.

(** Modelled from the spec: the message type of the reassembler, whose
    code is not among the sources; the [LogicalMessage] of the data
    model. *)
Record LogicalMessage := mkMessage {
  message_service : Z * Z;
  message_id : Z;
  body : list Z
}.

Definition u8 (x : Z) : Z := x mod 256.
Definition u16 (x : Z) : Z := x mod 65536.

(** The bytes of a frame that the checksum covers: all that precedes
    it. *)
Definition covered (seq index total : Z) (svc : option (Z * Z)) (data : list Z) : list Z :=
  [seq; index; total]
  ++ match svc with Some (major, minor) => [major; minor] | None => [] end
  ++ data.

(** Five header bytes, the payload, two checksum bytes. *)
Definition frame_length (f : Frame) : Z := 5 + Z.of_nat (List.length (payload f)) + 2.

(** [ceil(a / b)]. *)
Definition ceil_div (a b : Z) : Z := (a + b - 1) / b.

(** Modelled from the spec: the chunking step of the codec's [encode],
    whose code is not among the sources.  [data] is split into chunks
    no larger than [size]; [fuel] bounds the number of chunks and
    [length data] is enough. *)
Fixpoint chunks (fuel size : nat) (data : list Z) : list (list Z) :=
  match fuel, data with
  | _, [] => []
  | O, _ => []
  | S fuel', _ => firstn size data :: chunks fuel' size (skipn size data)
  end.

(** A chunk that [encode] may put in a frame: not empty and no larger
    than [max_fragment_payload]. *)
Definition chunk_ok (max_fragment_payload : Z) (c : list Z) : Prop :=
  (1 <= List.length c)%nat /\ Z.of_nat (List.length c) <= max_fragment_payload.

Section WithChecksum.

(** The integrity code, the reading of the message id that the payload
    embeds, and the bounds on the length of a frame are left open by the
    specification. *)
Variable checksum_of : list Z -> Z.
Variable message_id_of : list Z -> Z.
Variables min_frame_length max_frame_length : Z.

(** Modelled from the spec: [encode] of the frame codec, whose code is
    not among the sources.  Fragments are numbered from 1 and carry
    [fragment_total = ceil(len(body) / max_fragment_payload)]; the
    sequence number goes up by one per frame and wraps modulo 256; the
    service id travels on fragment 1; the checksum is computed over each
    frame on its own.  The message id is part of [body] (it "appears
    inside the first fragment's payload"). *)
Fixpoint frames_from (index total seq : Z) (svc : Z * Z) (cs : list (list Z))
  : list Frame :=
  match cs with
  | [] => []
  | c :: rest =>
      let s := if index =? 1 then Some svc else None in
      mkFrame (u8 seq) (u8 index) (u8 total) s c
              (u16 (checksum_of (covered (u8 seq) (u8 index) (u8 total) s c)))
      :: frames_from (index + 1) total (seq + 1) svc rest
  end.

Definition encode (svc : Z * Z) (data : list Z) (max_fragment_payload : Z) (seq : Z)
  : list Frame :=
  frames_from 1 (ceil_div (Z.of_nat (List.length data)) max_fragment_payload) seq svc
              (chunks (List.length data) (Z.to_nat max_fragment_payload) data).

(** Modelled from the spec: [decode] of the frame codec, whose code is
    not among the sources, on a packet given by the values of its
    fields.  The checks are those of section 4.1, in the order in which
    it lists them. *)
Definition decode (f : Frame) : Frame + FramingError :=
  if negb ((min_frame_length <=? frame_length f) && (frame_length f <=? max_frame_length))
  then inr LengthOutOfRange
  else if negb ((1 <=? fragment_total f) && (fragment_total f <=? 20))
  then inr SequenceOutOfRange
  else if negb ((1 <=? fragment_index f) && (fragment_index f <=? fragment_total f))
  then inr SequenceOutOfRange
  else if negb (checksum f =?
                u16 (checksum_of (covered (sequence f) (fragment_index f)
                                          (fragment_total f) (service f) (payload f))))
  then inr ChecksumMismatch
  else inl f.

(** The message being assembled on a connection. *)
Record Assembly := mkAssembly {
  assembly_service : Z * Z;
  assembly_total : Z;
  assembly_next : Z;
  assembly_body : list Z
}.

(** The reassembler of one connection: the assembly in progress, if
    any, and the frames seen so far, by content. *)
Record Reassembler := mkReassembler {
  current : option Assembly;
  seen : list Frame
}.

Definition fresh : Reassembler := mkReassembler None [].

Definition list_eqb {A} (eqb : A -> A -> bool) : list A -> list A -> bool :=
  fix go (l1 l2 : list A) : bool :=
    match l1, l2 with
    | [], [] => true
    | x :: r1, y :: r2 => eqb x y && go r1 r2
    | _, _ => false
    end.

Definition service_eqb (a b : option (Z * Z)) : bool :=
  match a, b with
  | Some (x1, y1), Some (x2, y2) => (x1 =? x2) && (y1 =? y2)
  | None, None => true
  | _, _ => false
  end.

(** Two frames with the same content. *)
Definition frame_eqb (f g : Frame) : bool :=
  (sequence f =? sequence g) && (fragment_index f =? fragment_index g)
  && (fragment_total f =? fragment_total g) && service_eqb (service f) (service g)
  && list_eqb Z.eqb (payload f) (payload g) && (checksum f =? checksum g).

Definition finish (svc : Z * Z) (data : list Z) : LogicalMessage :=
  mkMessage svc (message_id_of data) data.

(** Modelled from the spec: [feed] of the fragment reassembler, whose
    code is not among the sources.  A frame already seen is skipped.
    Fragment 1 starts an assembly and discards an unfinished one; a
    later fragment must be the one the assembly waits for, or the
    assembly is discarded; the message is complete with fragment
    [fragment_total].  The assembly timeout needs a clock and is left
    out: frames are fed without delay. *)
Definition feed (f : Frame) (r : Reassembler) : Reassembler * option LogicalMessage :=
  if existsb (frame_eqb f) (seen r) then (r, None)
  else
    let seen' := f :: seen r in
    if fragment_index f =? 1 then
      match service f with
      | Some svc =>
          if fragment_total f =? 1
          then (mkReassembler None seen', Some (finish svc (payload f)))
          else (mkReassembler (Some (mkAssembly svc (fragment_total f) 2 (payload f))) seen',
                None)
      | None => (mkReassembler None seen', None)
      end
    else
      match current r with
      | Some a =>
          if (fragment_index f =? assembly_next a) && (fragment_total f =? assembly_total a)
          then
            let data := assembly_body a ++ payload f in
            if fragment_index f =? fragment_total f
            then (mkReassembler None seen', Some (finish (assembly_service a) data))
            else (mkReassembler
                    (Some (mkAssembly (assembly_service a) (assembly_total a)
                                      (assembly_next a + 1) data)) seen',
                  None)
          else (mkReassembler None seen', None)
      | None => (mkReassembler (current r) seen', None)
      end.

(** Modelled from the spec: the inbound pipeline (decode, then feed) of
    section 2, whose code is not among the sources, on a sequence of
    packets: a packet that does not decode is dropped and the next one
    is looked at; the others are fed to the reassembler.  The result
    lists the messages completed. *)
Fixpoint assemble_all (packets : list Frame) (r : Reassembler) : list LogicalMessage :=
  match packets with
  | [] => []
  | f :: rest =>
      match decode f with
      | inr _ => assemble_all rest r
      | inl f' =>
          let '(r', done) := feed f' r in
          match done with
          | Some m => m :: assemble_all rest r'
          | None => assemble_all rest r'
          end
      end
  end.

(** [decode(assemble-all(encode(P)))]: the bodies of the messages that
    come out of the pipeline when the frames of [P] go in. *)
Definition roundtrip (svc : Z * Z) (data : list Z) (max_fragment_payload seq : Z)
  : list (list Z) :=
  map body (assemble_all (encode svc data max_fragment_payload seq) fresh).

End WithChecksum.

End Codec.

(* ================================================================== *)
(** ** The device-info example: payloads *)
(* ================================================================== *)

(** The examples build a payload by spreading calls of [pbVarint] and
    [pbBytes] into one array, as in
    [[...pbVarint(1, 12), ...pbVarint(2, 1), ...pbBytes(11, deviceInfo)]],
    and [printResponse] reads an answer with [parseProtobuf], once for
    the payload and once more for each length-delimited field. *)

Module Payload.

Import JS DeviceInfo.

(** One call of [pbVarint] or of [pbBytes]. *)
Inductive Part :=
  | PVarint (field value : Z)
  | PBytes (field : Z) (data : list Z).

Definition part_bytes (p : Part) : list Z :=
  match p with
  | PVarint f v => pbVarint f v
  | PBytes f data => pbBytes f data
  end.

(** The array that the calls are spread into. *)
Definition payload (parts : list Part) : list Z := flat_map part_bytes parts.

(** The record that [parseProtobuf] is to push for a part. *)
Definition record_of (p : Part) : Field :=
  match p with
  | PVarint f v => Varint f v
  | PBytes f data => Bytes f (to_hex data) (printable_string data) (JS.length data)
  end.

(** A byte of a [number[]] that stands for binary data. *)
Definition byte (b : Z) : Prop := 0 <= b < 256.

(** The arguments for which a part fits the one-byte tag and the 32-bit
    arithmetic of the helpers: a field number below 32, a value or a
    length below 2^31, and bytes as data. *)
Definition part_ok (p : Part) : Prop :=
  match p with
  | PVarint f v => 0 <= f < 32 /\ 0 <= v < 2^31
  | PBytes f data => 0 <= f < 32 /\ Forall byte data /\ JS.length data < 2^31
  end.

(** The tag byte [(field << 3) | wireType]. *)
Definition tag (field wireType : Z) : Z := 8 * field + wireType.

(** Where round number [k] of the main loop of [parseProtobuf] starts,
    counting from 0, when the loop is entered at [pos]; [None] when the
    loop has ended before that round. *)
Fixpoint round_start (k : nat) (bytes : Buffer) (pos : Z) : option Z :=
  if pos <? JS.length bytes then
    match k with
    | O => Some pos
    | S k' =>
        match iteration bytes pos with
        | Continue pos' _ => round_start k' bytes pos'
        | _ => None
        end
    end
  else None.

(** A text at which [Buffer.from(_, "hex")] stops: it is empty, or a
    single character, or its first two characters are not both
    hexadecimal digits. *)
Definition not_hex (rest : string) : Prop :=
  match rest with
  | String c1 (String c2 _) =>
      match hex_value c1, hex_value c2 with
      | Some _, Some _ => False
      | _, _ => True
      end
  | _ => True
  end.

End Payload.


(* ================================================================== *)
(** ** The device-info example: printing a response *)
(* ================================================================== *)

(** [printResponse] writes a response of the glasses to the console:
    the service, the payload and the fields of the payload, with those
    of each length-delimited field below it.  The lines are collected
    in a list.  Texts are sequences of code units below 256, as the
    hexadecimal texts that come from the bridge are. *)

Module Printing.

Import JS DeviceInfo Payload.

(** [s.slice(i, j)]: negative indices count from the end, both are
    clamped to the text, and an empty range gives the empty text. *)
Definition slice (s : string) (i j : Z) : string :=
  let len := Z.of_nat (String.length s) in
  let b := clamp_index len i in
  let e := clamp_index len j in
  substring (Z.to_nat b) (Z.to_nat (e - b)) s.

(** The white space that [parseInt] skips, among the code units below
    256: tab, line feed, vertical tab, form feed, carriage return,
    space and no-break space. *)
Definition is_space (c : ascii) : bool :=
  let n := Z.of_nat (nat_of_ascii c) in
  ((9 <=? n) && (n <=? 13)) || (n =? 32) || (n =? 160).

Fixpoint skip_spaces (s : string) : string :=
  match s with
  | String c rest => if is_space c then skip_spaces rest else s
  | EmptyString => s
  end.

(** The number of the longest prefix of hexadecimal digits; [None] when
    there is no digit. *)
Fixpoint hex_prefix (s : string) (acc : option Z) : option Z :=
  match s with
  | String c rest =>
      match hex_value c with
      | Some d => hex_prefix rest (Some (16 * match acc with Some a => a | None => 0 end + d))
      | None => acc
      end
  | EmptyString => acc
  end.

(** [parseInt(s, 16)]: white space, a sign and [0x] are skipped, and
    the digits that follow are read; [None] is [NaN].  The number is
    exact as long as it is below 2^53, so for the texts of two
    characters that [printResponse] reads. *)
Definition parseInt16 (s : string) : option Z :=
  let s := skip_spaces s in
  let '(sign, s) :=
    match s with
    | String "-"%char rest => (-1, rest)
    | String "+"%char rest => (1, rest)
    | _ => (1, s)
    end in
  let s :=
    match s with
    | String "0"%char (String "x"%char rest) => rest
    | String "0"%char (String "X"%char rest) => rest
    | _ => s
    end in
  option_map (Z.mul sign) (hex_prefix s None).

(** [n.toString(16).padStart(2, "0")] for the result of [parseInt]. *)
Definition service_text (n : option Z) : string :=
  match n with
  | Some n => padStart2 (toString16 n)
  | None => "NaN"
  end.

Definition quote : string := String (ascii_of_nat 34) EmptyString.

(** The line for a field, after the indentation: for a
    length-delimited field the length, the hexadecimal text and, when
    there is one, the printable text in quotes; for the others the
    value and the type. *)
Definition field_text (indent : string) (f : Field) : string :=
  match f with
  | Bytes n hex str len =>
      indent ++ "f" ++ toString10 n ++ ": [" ++ toString10 len ++ "B] " ++ hex
      ++ match str with
         | Some text => " = " ++ quote ++ text ++ quote
         | None => EmptyString
         end
  | Varint n v => indent ++ "f" ++ toString10 n ++ ": " ++ toString10 v ++ " (varint)"
  | Fixed32 n v => indent ++ "f" ++ toString10 n ++ ": " ++ toString10 v ++ " (fixed32)"
  | Fixed64 n v => indent ++ "f" ++ toString10 n ++ ": " ++ v ++ " (fixed64)"
  end%string.

(** How a call ends: it returns after writing [lines], or an exception
    of [parseProtobuf] escapes after they were written. *)
Inductive Printed :=
  | Done (lines : list string)
  | Failed (lines : list string).

(** The loop over the fields; [out] holds the lines written so far.
    [None] says that a call of [parseProtobuf] was still running after
    [fuel] rounds. *)
Fixpoint print_fields (fuel : nat) (fields : list Field) (out : list string)
  : option Printed :=
  match fields with
  | [] => Some (Done out)
  | f :: rest =>
      match f with
      | Bytes _ hex _ _ =>
          let out := out ++ [field_text "      " f] in
          match parseProtobuf fuel hex with
          | None => None
          | Some Throw => Some (Failed out)
          | Some (Return nested) =>
              print_fields fuel rest (out ++ map (field_text "        ") nested)
          end
      | _ => print_fields fuel rest (out ++ [field_text "      " f])
      end
  end.

Definition printResponse (fuel : nat) (raw : string) : option Printed :=
  let len := Z.of_nat (String.length raw) in
  if len <=? 20 then Some (Done [("    Short: " ++ raw)%string])
  else
    let svcHi := parseInt16 (slice raw 12 14) in
    let svcLo := parseInt16 (slice raw 14 16) in
    let payloadHex := slice raw 16 (len - 4) in
    let out := [("    Service: 0x" ++ service_text svcHi ++ "-" ++ service_text svcLo
                 ++ "  Payload: " ++ payloadHex)%string] in
    match payloadHex with
    | EmptyString => Some (Done out)
    | _ =>
        match parseProtobuf fuel payloadHex with
        | None => None
        | Some Throw => Some (Failed out)
        | Some (Return fields) => print_fields fuel fields out
        end
    end.

(** A field of a response as the glasses build it: a number, or a
    message made of parts. *)
Inductive Item :=
  | INumber (field value : Z)
  | IMessage (field : Z) (inner : list Part).

Definition item_part (it : Item) : Part :=
  match it with
  | INumber f v => PVarint f v
  | IMessage f inner => PBytes f (payload inner)
  end.

Definition item_ok (it : Item) : Prop :=
  part_ok (item_part it)
  /\ match it with
     | INumber _ _ => True
     | IMessage _ inner => Forall part_ok inner
     end.

(** The rounds that the calls of [parseProtobuf] for the items need. *)
Definition enough (fuel : nat) (items : list Item) : Prop :=
  (List.length items < fuel)%nat
  /\ Forall (fun it => match it with
                       | INumber _ _ => True
                       | IMessage _ inner => (List.length inner < fuel)%nat
                       end) items.

(** The lines for an item: its own, and those of its parts below. *)
Definition item_lines (it : Item) : list string :=
  match it with
  | INumber f v => [field_text "      " (Varint f v)]
  | IMessage f inner =>
      field_text "      " (record_of (PBytes f (payload inner)))
      :: map (fun p => field_text "        " (record_of p)) inner
  end.

(** The text of a response as [printResponse] slices it: six bytes
    before the service, the two bytes of the service, the payload, and
    two bytes after it. *)
Definition response (head : list Z) (hi lo : Z) (body crc : list Z) : string :=
  toHex (head ++ [hi; lo] ++ body ++ crc).

End Printing.


(* ================================================================== *)
(** ** Views of the client *)
(* ================================================================== *)

(** What the facts about listeners, requests and the connection are
    stated with. *)

Module Views.

Import Sdk.

(** The handlers that [emit] calls for [event], in the order of the
    calls: [this.listeners.get(event) ?? []]. *)
Definition registered (event : string) (w : World) : list EventHandler :=
  default (map_get (listeners (this w)) event) [].

(** What the calls of [on] and [off] for [event] in a run make of the
    set [s] of handlers. *)
Definition subscribe (event : string) (s : list EventHandler) (op : Op)
  : list EventHandler :=
  match op with
  | CallOn e h => if String.eqb e event then set_add h s else s
  | CallOff e h => if String.eqb e event then set_delete h s else s
  | _ => s
  end.

Definition subscriptions (event : string) (ops : list Op) (s : list EventHandler)
  : list EventHandler :=
  fold_left (subscribe event) ops s.

(** The message that [send] builds: [{ id, method }], with [params]
    when they are given and truthy. *)
Definition request (id method : string) (params : option JSON) : JSON :=
  JObject ([("id", JString id); ("method", JString method)]
           ++ match params with
              | Some q => if truthy q then [("params", q)] else []
              | None => []
              end).

(** A reply from which [handleMessage] can build what it settles the
    request with: it has no [error] member, or one that is not [null]
    and whose [code] and [message] have a text. *)
Definition ordinary (members : list (string * JSON)) : bool :=
  match assoc "error" members with
  | None => true
  | Some JNull => false
  | Some err => converts (get err "code") && converts (get err "message")
  end.

(** An operation other than a call of [connectBridge] by the user. *)
Definition no_connect (op : Op) : bool :=
  match op with
  | CallConnectBridge => false
  | _ => true
  end.

(** The object [g'] is [g] but for its pending map. *)
Definition same_but_pending (g g' : G2) : Prop :=
  url g' = url g /\ autoReconnect g' = autoReconnect g
  /\ reconnectDelay g' = reconnectDelay g /\ ws g' = ws g
  /\ listeners g' = listeners g /\ idCounter g' = idCounter g
  /\ closed g' = closed g /\ reconnectTimer g' = reconnectTimer g.

(** The promise [req] is pending and nothing holds on to it: it is the
    request of no entry of the pending map, and no socket waits for
    it. *)
Definition orphan (req : PendingRequest) (w : World) : Prop :=
  promise_state w req = Some Pending
  /\ (forall k, ~ In (k, req) (pending (this w)))
  /\ (forall s, In s (sockets w) -> awaiting s <> req).

End Views.


(* ================================================================== *)
(** ** The async methods of the client *)
(* ================================================================== *)

(** [connect], [close] and the commands are [async] methods.  A call
    runs up to its first [await] and returns a promise; what comes
    after an [await] runs once the awaited promise is settled, as a
    microtask, so before any further event of a socket or of a timer.
    A call that is waiting is described by the place where it waits
    and the promise that it returned; [resume] is what it does when it
    goes on. *)

Module Async.

Import Sdk.

Inductive Await :=
  | AwaitBridge (bridge : nat)
      (** [connect] at [await this.connectBridge()] *)
  | AwaitConnect (req : nat)
      (** [connect] at [await this.send("connect")] *)
  | AwaitCommand (req : nat) (keep : bool)
      (** a command at [await this.send(...)]; [getStatus] keeps the
          result, the others return nothing *)
  | AwaitDisconnect (req : nat)
      (** [close] at [await this.send("disconnect")] *).

Record Call := mkCall {
  at_await : Await;
  returned : nat
}.

(** [connect()] up to its first [await]: the promise returned and the
    world, with the call waiting for the bridge. *)
Definition connect (w : World) : Call * World :=
  let '(r, w) := new_promise w in
  let '(b, w) := connectBridge false w in
  (mkCall (AwaitBridge b) r, w).

(** A command up to its [await]: [disconnect], [setText],
    [setTeleprompter], [startNavigation], [setNavigation] and
    [stopNavigation] with [keep = false], [getStatus] with
    [keep = true]. *)
Definition command (method : string) (params : option JSON) (keep : bool) (w : World)
  : Call * World :=
  let '(r, w) := new_promise w in
  let '(p, w) := send method params w in
  (mkCall (AwaitCommand p keep) r, w).

(** [close()]: on an open socket it sends ["disconnect"] and waits;
    otherwise it runs to its end at once, and [None] says that no call
    is left waiting.  The first component is the promise returned. *)
Definition close (w : World) : nat * option Call * World :=
  let '(r, w) := new_promise w in
  if is_open w then
    let '(p, w) := send "disconnect" None w in
    (r, Some (mkCall (AwaitDisconnect p) r), w)
  else (r, None, resolve r None (closeBridge w)).

(** What a waiting call does when it is looked at: nothing while the
    promise it waits for is pending; otherwise it goes on, to its next
    [await] or to its end ([None]), where the promise it returned is
    settled.  [close] catches the rejection of its [send]. *)
Definition resume (c : Call) (w : World) : World * option Call :=
  match at_await c with
  | AwaitBridge b =>
      match promise_state w b with
      | Some (Fulfilled _) =>
          let '(p, w) := send "connect" None w in
          (w, Some (mkCall (AwaitConnect p) (returned c)))
      | Some (Rejected e) => (reject (returned c) e w, None)
      | _ => (w, Some c)
      end
  | AwaitConnect p =>
      match promise_state w p with
      | Some (Fulfilled _) => (resolve (returned c) None w, None)
      | Some (Rejected e) => (reject (returned c) e w, None)
      | _ => (w, Some c)
      end
  | AwaitCommand p keep =>
      match promise_state w p with
      | Some (Fulfilled v) =>
          (resolve (returned c) (if keep then v else None) w, None)
      | Some (Rejected e) => (reject (returned c) e w, None)
      | _ => (w, Some c)
      end
  | AwaitDisconnect p =>
      match promise_state w p with
      | Some (Fulfilled _) | Some (Rejected _) =>
          (resolve (returned c) None (closeBridge w), None)
      | _ => (w, Some c)
      end
  end.

(** A waiting call goes on until it waits for a pending promise or
    ends; no method has more than two [await]s. *)
Definition resume_all (c : Call) (w : World) : World * option Call :=
  match resume c w with
  | (w, Some c) => resume c w
  | done => done
  end.

(** In [w] the call of [close] goes on to its end: it leaves nothing
    waiting, the promise that it returned is resolved, and the object
    is as [closeBridge] leaves it. *)
Definition closes (c : Call) (w : World) : Prop :=
  snd (resume_all c w) = None
  /\ promise_state (fst (resume_all c w)) (returned c) = Some (Fulfilled None)
  /\ closed (this (fst (resume_all c w))) = true
  /\ ws (this (fst (resume_all c w))) = None
  /\ reconnectTimer (this (fst (resume_all c w))) = None.

(** The call stays at its [await] in [w], with the promise that it
    returned still pending. *)
Definition waits (c : Call) (w : World) : Prop :=
  resume_all c w = (w, Some c)
  /\ promise_state w (returned c) = Some Pending.

End Async.


(* ================================================================== *)
(** ** More sample messages *)
(* ================================================================== *)

Module Replies.

Import Sdk Samples.

(** A reply whose [error] member is [null], and a reply to the second
    request of a client. *)
Definition null_error_text : string :=
  ("{" ++ q "id" ++ ":" ++ q "1" ++ "," ++ q "error" ++ ":null}")%string.

Definition null_error_json : JSON :=
  JObject [("id", JString "1"); ("error", JNull)].

Definition second_reply_text : string :=
  ("{" ++ q "id" ++ ":" ++ q "2" ++ "," ++ q "result" ++ ":null}")%string.

Definition second_reply_json : JSON :=
  JObject [("id", JString "2"); ("result", JNull)].

(** [JSON.parse] on these texts and on those of [Samples]. *)
Definition parse (raw : string) : option JSON :=
  match assoc raw [(null_error_text, null_error_json);
                   (second_reply_text, second_reply_json)] with
  | Some v => Some v
  | None => Samples.parse raw
  end.

End Replies.


(* ================================================================== *)
(** ** Facts about the JavaScript fragment *)
(* ================================================================== *)

Module JSFacts.

Import JS.

(** A boolean property checked on [0 .. n-1] holds on that range. *)
Lemma range_check (P : Z -> bool) (n : nat) :
  forallb (fun k => P (Z.of_nat k)) (seq 0 n) = true ->
  forall z, 0 <= z < Z.of_nat n -> P z = true.
Proof.
  intros Hall z Hz.
  rewrite forallb_forall in Hall.
  rewrite <- (Z2Nat.id z) by lia.
  apply Hall, in_seq. lia.
Qed.

(** [by_range P n H]: [P z = true], by running [P] on [0 .. n-1]. *)
Ltac by_range P n H :=
  apply (range_check P n); [vm_compute; reflexivity | exact H].

Lemma to_int32_small x : - 2^31 <= x < 2^31 -> to_int32 x = x.
Proof.
  intros Hx. unfold to_int32.
  rewrite Z.mod_small; lia.
Qed.

Lemma and_127 x : 0 <= x < 2^31 -> JS.and x 127 = x mod 128.
Proof.
  intros Hx. unfold JS.and.
  rewrite !to_int32_small by lia.
  change 127 with (Z.ones 7).
  now rewrite Z.land_ones by lia.
Qed.

Lemma sar_7 x : 0 <= x < 2^31 -> JS.sar x 7 = x / 128.
Proof.
  intros Hx. unfold JS.sar.
  rewrite to_int32_small by lia.
  change (7 mod 32) with 7.
  now rewrite Z.shiftr_div_pow2 by lia.
Qed.

Lemma shl_small a s :
  0 <= s < 32 -> 0 <= a -> a * 2^s < 2^31 -> JS.shl a s = a * 2^s.
Proof.
  intros Hs Ha Hlt. unfold JS.shl.
  assert (a < 2^31).
  { assert (1 <= 2^s) by (apply (Z.pow_le_mono_r 2 0 s); lia). nia. }
  rewrite (to_int32_small a) by lia.
  rewrite Z.mod_small by lia.
  rewrite Z.shiftl_mul_pow2 by lia.
  apply to_int32_small. nia.
Qed.

(** Bits that do not overlap: [|] is [+]. *)
Lemma lor_disjoint a b s :
  0 <= s -> 0 <= a < 2^s -> 0 <= b -> Z.lor a (b * 2^s) = a + b * 2^s.
Proof.
  intros Hs Ha Hb.
  assert (Hland : Z.land a (b * 2^s) = 0).
  { apply Z.bits_inj'. intros i Hi.
    rewrite Z.land_spec, Z.bits_0.
    destruct (Z.lt_ge_cases i s) as [Hlt | Hge].
    - rewrite Z.mul_pow2_bits_low by lia. apply andb_false_r.
    - destruct (Z.eq_dec a 0) as [-> | Hne].
      + now rewrite Z.bits_0.
      + rewrite (Z.bits_above_log2 a i); [reflexivity | lia |].
        apply Z.log2_lt_pow2; [lia |].
        apply Z.lt_le_trans with (2^s); [lia |].
        apply Z.pow_le_mono_r; lia. }
  rewrite <- Z.lxor_lor by exact Hland.
  symmetry. now apply Z.add_nocarry_lxor.
Qed.

Lemma or_disjoint a b s :
  0 <= s -> 0 <= a < 2^s -> 0 <= b -> a + b * 2^s < 2^31 ->
  JS.or a (b * 2^s) = a + b * 2^s.
Proof.
  intros Hs Ha Hb Hlt. unfold JS.or.
  assert (0 <= b * 2^s) by (apply Z.mul_nonneg_nonneg; [lia | apply Z.pow_nonneg; lia]).
  rewrite !to_int32_small by lia.
  now apply lor_disjoint.
Qed.

(** Facts about one byte, checked on all of them. *)
Lemma hex_value_digit d : 0 <= d < 16 -> hex_value (hex_digit d) = Some d.
Proof.
  intros Hd.
  pose (P := fun d => match hex_value (hex_digit d) with
                       | Some d' => d' =? d | None => false end).
  assert (H : P d = true) by by_range P 16%nat Hd.
  unfold P in H. destruct (hex_value (hex_digit d)); [| discriminate].
  apply Z.eqb_eq in H. now subst.
Qed.

Lemma byte_text b : 0 <= b < 256 -> padStart2 (toString16 b) = byte_hex b.
Proof.
  intros Hb.
  apply String.eqb_eq.
  by_range (fun b => String.eqb (padStart2 (toString16 b)) (byte_hex b)) 256%nat Hb.
Qed.

Lemma from_hex_byte b rest :
  0 <= b < 256 -> from_hex (byte_hex b ++ rest) = b :: from_hex rest.
Proof.
  intros Hb. cbn [byte_hex String.append from_hex].
  rewrite !hex_value_digit.
  - f_equal. pose proof (Z.div_mod b 16). lia.
  - apply Z.mod_pos_bound. lia.
  - split; [apply Z.div_pos; lia | apply Z.div_lt_upper_bound; lia].
Qed.

Lemma low7_of_continuation x :
  0 <= x < 128 ->
  JS.or x 128 = x + 128 /\ JS.and (x + 128) 127 = x /\ JS.and (x + 128) 128 = 128
  /\ JS.and x 127 = x /\ JS.and x 128 = 0.
Proof.
  intros Hx.
  pose (P := fun x => (JS.or x 128 =? x + 128) && (JS.and (x + 128) 127 =? x)
                 && (JS.and (x + 128) 128 =? 128) && (JS.and x 127 =? x)
                 && (JS.and x 128 =? 0)).
  assert (H : P x = true) by by_range P 128%nat Hx.
  unfold P in H. rewrite !andb_true_iff, !Z.eqb_eq in H. tauto.
Qed.

Lemma tag_of_field f :
  0 <= f < 16 ->
  JS.or (JS.shl f 3) 0 = 8 * f /\ JS.sar (8 * f) 3 = f /\ JS.and (8 * f) 7 = 0.
Proof.
  intros Hf.
  pose (P := fun f => (JS.or (JS.shl f 3) 0 =? 8 * f) && (JS.sar (8 * f) 3 =? f)
                 && (JS.and (8 * f) 7 =? 0)).
  assert (H : P f = true) by by_range P 16%nat Hf.
  unfold P in H. rewrite !andb_true_iff, !Z.eqb_eq in H. tauto.
Qed.

Lemma index_app_here (pre : Buffer) b post :
  index (pre ++ b :: post) (JS.length pre) = Some b.
Proof.
  unfold index, JS.length. rewrite length_app. cbn [List.length].
  replace ((0 <=? Z.of_nat (List.length pre)) &&
           (Z.of_nat (List.length pre) <? Z.of_nat (List.length pre + S (List.length post))))
    with true by (symmetry; apply andb_true_iff; split; [apply Z.leb_le | apply Z.ltb_lt]; lia).
  rewrite Nat2Z.id, nth_error_app2 by lia.
  now rewrite Nat.sub_diag.
Qed.

End JSFacts.

(* ================================================================== *)
(** ** Facts about the protobuf helpers *)
(* ================================================================== *)

Module DeviceInfoFacts.

Import JS JSFacts DeviceInfo.

Lemma to_int32_range x : - 2^31 <= to_int32 x < 2^31.
Proof.
  unfold to_int32.
  pose proof (Z.mod_pos_bound (x + 2^31) (2^32)). lia.
Qed.

Lemma sar_7_range x : - 2^24 <= JS.sar x 7 < 2^24.
Proof.
  unfold JS.sar. change (7 mod 32) with 7.
  rewrite Z.shiftr_div_pow2 by lia.
  pose proof (to_int32_range x).
  split.
  - apply Z.div_le_lower_bound; lia.
  - apply Z.div_lt_upper_bound; lia.
Qed.

Lemma pow7_succ n : 2 ^ (7 * Z.of_nat (S n)) = 128 * 2 ^ (7 * Z.of_nat n).
Proof.
  replace (7 * Z.of_nat (S n)) with (7 + 7 * Z.of_nat n) by lia.
  rewrite Z.pow_add_r by lia. reflexivity.
Qed.

(** Once the value is a 32-bit integer below [2^(7n)], [n] rounds are
    all the loop uses. *)
Lemma encodeVarint_loop_stable n :
  forall x m, (1 <= n)%nat -> (n <= m)%nat -> 7 * Z.of_nat n <= 28 ->
    - 2^31 <= x < 2 ^ (7 * Z.of_nat n) ->
    encodeVarint_loop m x = encodeVarint_loop n x.
Proof.
  induction n as [| n IH]; intros x m Hn Hm Hbits Hx; [lia |].
  destruct m as [| m]; [lia |].
  cbn [encodeVarint_loop].
  destruct (x >? 127) eqn:Hgt; [| reflexivity].
  apply Z.gtb_lt in Hgt.
  rewrite pow7_succ in Hx.
  destruct n as [| n'].
  { cbn in Hx. lia. }
  f_equal. apply IH; try lia.
  assert (x < 2^31).
  { apply Z.lt_le_trans with (2 ^ (7 * Z.of_nat (S (S n')))); [rewrite pow7_succ; lia |].
    apply Z.pow_le_mono_r; lia. }
  rewrite sar_7 by lia.
  split.
  - assert (0 <= x / 128) by (apply Z.div_pos; lia). lia.
  - apply Z.div_lt_upper_bound; lia.
Qed.

(** [encodeVarint] obeys the equation of its [while] loop on every
    argument: six rounds always suffice. *)
Lemma encodeVarint_unfold value :
  encodeVarint value =
  if value >? 127
  then JS.or (JS.and value 127) 128 :: encodeVarint (JS.sar value 7)
  else [JS.and value 127].
Proof.
  unfold encodeVarint.
  change (encodeVarint_loop 6 value) with
    (if value >? 127
     then JS.or (JS.and value 127) 128 :: encodeVarint_loop 5 (JS.sar value 7)
     else [JS.and value 127]).
  destruct (value >? 127); [| reflexivity].
  apply (f_equal (cons _)).
  pose proof (sar_7_range value).
  change (7 * Z.of_nat 4) with 28 in *.
  rewrite (encodeVarint_loop_stable 4 _ 5) by (change (7 * Z.of_nat 4) with 28; lia).
  rewrite (encodeVarint_loop_stable 4 _ 6) by (change (7 * Z.of_nat 4) with 28; lia).
  exact eq_refl.
Qed.

Lemma pow_room v acc a s :
  0 <= a -> 0 <= s -> a + s <= 28 -> 0 <= v < 2^a -> 0 <= acc < 2^s ->
  0 <= v * 2^s /\ acc + v * 2^s < 2^(a + s) /\ 2^(a + s) <= 2^28.
Proof.
  intros Ha Hs Has Hv Hacc.
  assert (0 < 2^s) by (apply Z.pow_pos_nonneg; lia).
  rewrite Z.pow_add_r by lia.
  repeat split; try nia.
  rewrite <- Z.pow_add_r by lia. apply Z.pow_le_mono_r; lia.
Qed.

(** Reading back what [encodeVarint] wrote: the decoder's accumulator
    picks up the value, shifted by the running [shift], and [pos] ends
    right after the encoding. *)
Lemma read_encoded n :
  forall v fe fr pre post acc shift,
    (1 <= n)%nat -> (n <= fe)%nat ->
    0 <= v < 2 ^ (7 * Z.of_nat n) ->
    0 <= shift -> shift + 7 * Z.of_nat n <= 28 ->
    0 <= acc < 2 ^ shift ->
    (List.length (encodeVarint_loop fe v) <= fr)%nat ->
    readVarint fr (pre ++ encodeVarint_loop fe v ++ post) (JS.length pre) acc shift
    = (acc + v * 2 ^ shift,
       JS.length pre + JS.length (encodeVarint_loop fe v)).
Proof.
  induction n as [| n IH]; intros v fe fr pre post acc shift Hn Hfe Hv Hs Hroom Hacc Hfr;
    [lia |].
  destruct fe as [| fe]; [lia |].
  cbn [encodeVarint_loop] in *.
  assert (Hv28 : v < 2^28).
  { apply Z.lt_le_trans with (2 ^ (7 * Z.of_nat (S n))); [lia |].
    apply Z.pow_le_mono_r; lia. }
  assert (Hv31 : 0 <= v < 2^31) by lia.
  assert (Hpos : forall b rest, (JS.length pre <? JS.length (pre ++ b :: rest)) = true).
  { intros b rest. apply Z.ltb_lt. unfold JS.length.
    rewrite length_app. cbn [List.length]. lia. }
  destruct (v >? 127) eqn:Hgt.
  - (* a continuation byte, then the rest *)
    apply Z.gtb_lt in Hgt.
    destruct n as [| n']; [cbn in Hv; lia |].
    rewrite pow7_succ in Hv.
    assert (Hlow : 0 <= v mod 128 < 128) by (apply Z.mod_pos_bound; lia).
    destruct (low7_of_continuation (v mod 128) Hlow) as (Hor & Hand127 & Hand128 & _ & _).
    rewrite (and_127 v Hv31) in *. rewrite Hor in *.
    destruct fr as [| fr]; [cbn in Hfr; lia |].
    cbn [readVarint app]. rewrite (Hpos _ _).
    rewrite index_app_here. cbn [operand].
    rewrite Hand127, Hand128. cbn [Z.eqb].
    destruct (pow_room (v mod 128) acc 7 shift) as (Hnn & Hsum & Hle');
      [lia | lia | lia | cbn; lia | lia |].
    rewrite (shl_small (v mod 128) shift) by lia.
    rewrite (or_disjoint acc (v mod 128) shift) by lia.
    rewrite (sar_7 v Hv31) in *.
    replace (pre ++ (v mod 128 + 128) :: encodeVarint_loop fe (v / 128) ++ post)
      with ((pre ++ [v mod 128 + 128]) ++ encodeVarint_loop fe (v / 128) ++ post)
      by (now rewrite <- app_assoc).
    replace (JS.length pre + 1) with (JS.length (pre ++ [v mod 128 + 128]))
      by (unfold JS.length; rewrite length_app; cbn [List.length]; lia).
    rewrite (IH (v / 128) fe fr); try lia.
    + f_equal.
      * rewrite Z.pow_add_r by lia.
        change (2^7) with 128.
        pose proof (Z.div_mod v 128). nia.
      * unfold JS.length. rewrite length_app. cbn [List.length]. lia.
    + split; [apply Z.div_pos; lia | apply Z.div_lt_upper_bound; lia].
    + rewrite (Z.add_comm shift 7). lia.
    + cbn [List.length] in Hfr. lia.
  - (* the last byte *)
    assert (Hv128 : 0 <= v < 128) by (pose proof (Zgt_cases v 127); rewrite Hgt in *; lia).
    destruct (low7_of_continuation v Hv128) as (_ & _ & _ & Hand127 & Hand128).
    rewrite Hand127 in *.
    destruct fr as [| fr]; [cbn in Hfr; lia |].
    cbn [readVarint app]. rewrite (Hpos _ _).
    rewrite index_app_here. cbn [operand].
    rewrite Hand127, Hand128. cbn [Z.eqb].
    destruct (pow_room v acc 7 shift) as (Hnn & Hsum & Hle');
      [lia | lia | lia | cbn; lia | lia |].
    rewrite (shl_small v shift) by lia.
    rewrite (or_disjoint acc v shift) by lia.
    reflexivity.
Qed.

(** Every element [encodeVarint] pushes is a byte. *)
Lemma and_127_range x : 0 <= JS.and x 127 < 128.
Proof.
  unfold JS.and. change (to_int32 127) with (Z.ones 7).
  rewrite Z.land_ones by lia.
  apply Z.mod_pos_bound. reflexivity.
Qed.

Lemma encodeVarint_loop_bytes fuel :
  forall value, Forall (fun b => 0 <= b < 256) (encodeVarint_loop fuel value).
Proof.
  induction fuel as [| fuel IH]; intros value; cbn [encodeVarint_loop].
  - constructor.
  - pose proof (and_127_range value) as Hlow.
    destruct (value >? 127).
    + constructor; [| apply IH].
      destruct (low7_of_continuation _ Hlow) as (-> & _). lia.
    + constructor; [lia | constructor].
Qed.

(** [Buffer.from(toHex(bytes), "hex")] gives the bytes back. *)
Lemma from_hex_toHex bytes :
  Forall (fun b => 0 <= b < 256) bytes -> from_hex (toHex bytes) = bytes.
Proof.
  unfold toHex.
  induction 1 as [| b rest Hb Hrest IH]; [reflexivity |].
  cbn [map String.concat].
  rewrite (byte_text b Hb).
  destruct rest as [| b' rest'].
  - exact (from_hex_byte b EmptyString Hb).
  - cbn [map] in *. cbn [String.append].
    rewrite (from_hex_byte b _ Hb). now rewrite IH.
Qed.

Lemma parse_loop_S fuel bytes pos fields :
  parse_loop (S fuel) bytes pos fields =
  if pos <? JS.length bytes then
    match iteration bytes pos with
    | Continue pos' f => parse_loop fuel bytes pos' (fields ++ [f])
    | Break => Some (Return fields)
    | Raise => Some Throw
    end
  else Some (Return fields).
Proof. reflexivity. Qed.

(** The round of the main loop that reads the field written by
    [pbVarint]. *)
Lemma iteration_pbVarint f v :
  1 <= f <= 15 -> 0 <= v < 2^28 ->
  iteration (8 * f :: encodeVarint v) 0
  = Continue (JS.length (8 * f :: encodeVarint v)) (Varint f v).
Proof.
  intros Hf Hv.
  destruct (tag_of_field f) as (_ & Hnum & Hwire); [lia |].
  assert (Hread : readVarint (S (List.length (8 * f :: encodeVarint v)))
                    (8 * f :: encodeVarint v) 1 0 0
                  = (v, JS.length (8 * f :: encodeVarint v))).
  { pose proof (read_encoded 4 v 6 (S (List.length (8 * f :: encodeVarint v)))
                  [8 * f] [] 0 0) as H.
    rewrite app_nil_r in H.
    change (7 * Z.of_nat 4) with 28 in H. change (2 ^ 0) with 1 in H.
    etransitivity; [apply H; unfold encodeVarint; cbn [List.length]; lia |].
    f_equal.
    - lia.
    - unfold JS.length, encodeVarint. cbn [List.length]. lia. }
  unfold iteration.
  destruct (0 >=? JS.length (8 * f :: encodeVarint v)) eqn:Hge.
  { apply Z.geb_le in Hge. unfold JS.length in Hge. cbn [List.length] in Hge. lia. }
  change (index (8 * f :: encodeVarint v) 0) with (Some (8 * f)).
  cbn [operand]. rewrite Hnum, Hwire.
  change (0 =? 0) with true. cbv iota.
  change (0 + 1) with 1.
  now rewrite Hread.
Qed.

(** *** A varint field, written and read back *)

(** C9.  For a field number [f] with [1 <= f <= 15] and a value [v] with
    [0 <= v < 2^28], [parseProtobuf] applied to the hexadecimal text of
    [pbVarint f v] returns exactly one record, [{ field: f, type:
    "varint", value: v }]; two rounds of the main loop are enough (one
    for the field, one to see the end of the buffer). *)
Theorem pbVarint_parse_roundtrip (f v : Z) (fuel : nat) :
  1 <= f <= 15 -> 0 <= v < 2^28 -> (2 <= fuel)%nat ->
  parseProtobuf fuel (toHex (pbVarint f v)) = Some (Return [Varint f v])
  /\ type_of (Varint f v) = "varint".
Proof.
  intros Hf Hv Hfuel. split; [| reflexivity].
  destruct (tag_of_field f) as (Htag & _); [lia |].
  unfold parseProtobuf, pbVarint. rewrite Htag.
  rewrite from_hex_toHex
    by (constructor; [lia | apply encodeVarint_loop_bytes]).
  destruct fuel as [| [| fuel]]; try lia.
  rewrite parse_loop_S, (iteration_pbVarint f v Hf Hv).
  replace (0 <? JS.length (8 * f :: encodeVarint v)) with true
    by (symmetry; apply Z.ltb_lt; unfold JS.length; cbn [List.length]; lia).
  rewrite parse_loop_S, Z.ltb_irrefl. reflexivity.
Qed.

Lemma pbVarint_parse_roundtrip_witness :
  (1 <= 3 <= 15 /\ 0 <= 300 < 2^28 /\ (2 <= 2)%nat)
  /\ parseProtobuf 2 (toHex (pbVarint 3 300)) = Some (Return [Varint 3 300])
  /\ type_of (Varint 3 300) = "varint".
Proof.
  split; [lia | apply (pbVarint_parse_roundtrip 3 300 2); lia].
Defined.

(** *** Payloads of the repository *)

(** The payload that the device-info example builds is the one that the
    raw-command example sends as a literal. *)
Example get_device_info_payload :
  toHex (pbVarint 1 12 ++ pbVarint 2 1 ++ pbBytes 11 (pbBytes 1 (pbVarint 1 0)))
  = "080c10015a040a020800".
Proof. reflexivity. Qed.

Example parse_get_device_info_payload :
  parseProtobuf 4 "080c10015a040a020800"
  = Some (Return [Varint 1 12; Varint 2 1; Bytes 11 "0a020800" None 4]).
Proof. reflexivity. Qed.

(** Two payloads of [docs/dashboard-protocol.md], read as the document
    reads them: [f1=0, f2=20] and [f1=10, f2=22, f13={f1:0, f2:32}]. *)
Example parse_dashboard_enable :
  parseProtobuf 3 "08001014" = Some (Return [Varint 1 0; Varint 2 20]).
Proof. reflexivity. Qed.

Example parse_dashboard_refresh :
  parseProtobuf 4 "080a10166a0408001020"
  = Some (Return [Varint 1 10; Varint 2 22; Bytes 13 "08001020" None 4])
  /\ parseProtobuf 3 "08001020" = Some (Return [Varint 1 0; Varint 2 32]).
Proof. split; reflexivity. Qed.

(** A truncated fixed-width field lets the [RangeError] of the read
    escape. *)
Example parse_truncated_fixed32 : parseProtobuf 2 "0d010203" = Some Throw.
Proof. reflexivity. Qed.

(** *** The rounds of the loops *)

(** [S (length bytes)] rounds are all that an inner loop can use: with
    more fuel it returns the same. *)
Lemma readVarint_more_fuel bytes :
  forall fuel pos acc shift,
    (pos < 0 -> (1 <= fuel)%nat) ->
    (0 <= pos -> JS.length bytes - pos <= Z.of_nat fuel) ->
    readVarint (S fuel) bytes pos acc shift = readVarint fuel bytes pos acc shift.
Proof.
  induction fuel as [| fuel IH]; intros pos acc shift Hneg Hpos.
  - destruct (Z.lt_ge_cases pos 0) as [Hlt | Hge]; [specialize (Hneg Hlt); lia |].
    specialize (Hpos Hge). cbn [readVarint].
    destruct (Z.ltb_spec pos (JS.length bytes)); [lia | reflexivity].
  - change (readVarint (S (S fuel)) bytes pos acc shift)
      with (if pos <? JS.length bytes then
              if JS.and (operand (index bytes pos)) 128 =? 0
              then (JS.or acc (JS.shl (JS.and (operand (index bytes pos)) 127) shift),
                    pos + 1)
              else readVarint (S fuel) bytes (pos + 1)
                     (JS.or acc (JS.shl (JS.and (operand (index bytes pos)) 127) shift))
                     (shift + 7)
            else (acc, pos)).
    change (readVarint (S fuel) bytes pos acc shift)
      with (if pos <? JS.length bytes then
              if JS.and (operand (index bytes pos)) 128 =? 0
              then (JS.or acc (JS.shl (JS.and (operand (index bytes pos)) 127) shift),
                    pos + 1)
              else readVarint fuel bytes (pos + 1)
                     (JS.or acc (JS.shl (JS.and (operand (index bytes pos)) 127) shift))
                     (shift + 7)
            else (acc, pos)).
    destruct (pos <? JS.length bytes); [| reflexivity].
    destruct (JS.and (operand (index bytes pos)) 128 =? 0) eqn:Hstop; [reflexivity |].
    assert (Hin : 0 <= pos).
    { destruct (Z.lt_ge_cases pos 0) as [Hlt | Hge]; [| exact Hge].
      unfold index in Hstop.
      replace (0 <=? pos) with false in Hstop by (symmetry; apply Z.leb_gt; lia).
      cbn in Hstop. discriminate. }
    apply IH; intros; [lia |]. specialize (Hpos Hin). lia.
Qed.

Lemma readVarint_fuel bytes n pos acc shift :
  readVarint (S (List.length bytes) + n) bytes pos acc shift
  = readVarint (S (List.length bytes)) bytes pos acc shift.
Proof.
  induction n as [| n IH].
  - now rewrite Nat.add_0_r.
  - rewrite Nat.add_succ_r, readVarint_more_fuel; [exact IH | lia |].
    unfold JS.length. lia.
Qed.

(** An inner loop never moves [pos] backwards, and it moves it forwards
    when it is entered inside the buffer. *)
Lemma readVarint_forward bytes :
  forall fuel pos acc shift,
    pos <= snd (readVarint fuel bytes pos acc shift).
Proof.
  induction fuel as [| fuel IH]; intros pos acc shift; cbn [readVarint snd]; [lia |].
  destruct (pos <? JS.length bytes); cbn [snd]; [| lia].
  destruct (JS.and (operand (index bytes pos)) 128 =? 0); cbn [snd]; [lia |].
  specialize (IH (pos + 1)
                 (JS.or acc (JS.shl (JS.and (operand (index bytes pos)) 127) shift))
                 (shift + 7)). lia.
Qed.

(** A round of the main loop moves [pos] forwards by at least one byte,
    unless it reads a length-delimited field whose length is negative. *)
Lemma iteration_forward bytes pos :
  match iteration bytes pos with
  | Continue pos' (Bytes _ _ _ len) => pos < pos' \/ len < 0
  | Continue pos' _ => pos < pos'
  | Break | Raise => True
  end.
Proof.
  unfold iteration.
  destruct (pos >=? JS.length bytes); [exact I |].
  destruct (JS.and (operand (index bytes pos)) 7 =? 0).
  { pose proof (readVarint_forward bytes (S (List.length bytes)) (pos + 1) 0 0) as H.
    destruct (readVarint _ bytes (pos + 1) 0 0) as [value pos']. cbn [snd] in H. lia. }
  destruct (JS.and (operand (index bytes pos)) 7 =? 2).
  { pose proof (readVarint_forward bytes (S (List.length bytes)) (pos + 1) 0 0) as H.
    destruct (readVarint _ bytes (pos + 1) 0 0) as [len pos']. cbn [snd] in H. lia. }
  destruct (JS.and (operand (index bytes pos)) 7 =? 5).
  { destruct (readLE 4 bytes (pos + 1)); [lia | exact I]. }
  destruct (JS.and (operand (index bytes pos)) 7 =? 1).
  { destruct (readLE 8 bytes (pos + 1)); [lia | exact I]. }
  exact I.
Qed.

(** *** A length that sends the loop back *)

(** C10.  The length of a length-delimited field is accumulated with
    32-bit [|=] and [<<], so a five-byte length can be negative; [pos +=
    len] then moves [pos] backwards.  On the bytes [0a fa ff ff ff 0f]
    the length is [-6]: the first round of the main loop starts at
    [pos = 0] and ends at [pos = 0], and the loop is still running after
    any number of rounds. *)
Theorem parseProtobuf_negative_length_loops :
  iteration (from_hex "0afaffffff0f") 0 = Continue 0 (Bytes 1 EmptyString None (-6))
  /\ forall fuel, parseProtobuf fuel "0afaffffff0f" = None.
Proof.
  assert (Hstep : iteration (from_hex "0afaffffff0f") 0
                  = Continue 0 (Bytes 1 EmptyString None (-6)))
    by (vm_compute; reflexivity).
  split; [exact Hstep |].
  unfold parseProtobuf. generalize (@nil Field).
  intros fields fuel. revert fields.
  induction fuel as [| fuel IH]; intros fields; [reflexivity |].
  rewrite parse_loop_S.
  change (0 <? JS.length (from_hex "0afaffffff0f")) with true.
  cbv iota. rewrite Hstep. apply IH.
Qed.

End DeviceInfoFacts.

(* ================================================================== *)
(** ** Facts about the G2 client *)
(* ================================================================== *)

Module SdkFacts.

Import Sdk Invariants.

(** *** Lists, maps and the promise store *)

Lemma nth_error_update {A} (f : A -> A) (l : list A) :
  forall i j,
    nth_error (update i f l) j =
    if Nat.eqb i j then option_map f (nth_error l j) else nth_error l j.
Proof.
  induction l as [| x l IH]; intros i j.
  - destruct i as [| i], j as [| j]; cbn; try reflexivity.
    now destruct (Nat.eqb i j).
  - destruct i as [| i], j as [| j]; cbn; try reflexivity. apply IH.
Qed.

Lemma length_update {A} (f : A -> A) (l : list A) :
  forall i, List.length (update i f l) = List.length l.
Proof.
  induction l as [| x l IH]; intros [| i]; cbn; auto.
Qed.


Lemma map_get_delete {V} (m : JSMap V) k k' :
  map_get (map_delete k m) k' = if String.eqb k k' then None else map_get m k'.
Proof.
  unfold map_get, map_delete.
  induction m as [| [k0 v0] m IH]; cbn.
  - now destruct (String.eqb k k').
  - destruct (String.eqb k k0) eqn:E0; cbn.
    + apply String.eqb_eq in E0. subst k0.
      rewrite IH. destruct (String.eqb k k') eqn:E; [reflexivity |].
      now rewrite (String.eqb_sym k' k), E.
    + rewrite IH. destruct (String.eqb k k') eqn:E; [| reflexivity].
      apply String.eqb_eq in E. subst k'. now rewrite E0.
Qed.

Lemma map_get_set {V} (m : JSMap V) k v k' :
  map_get (map_set k v m) k' = if String.eqb k k' then Some v else map_get m k'.
Proof.
  unfold map_get.
  induction m as [| [k0 v0] m IH]; cbn.
  - rewrite (String.eqb_sym k' k). now destruct (String.eqb k k').
  - destruct (String.eqb k k0) eqn:E0; cbn.
    + apply String.eqb_eq in E0. subst k0.
      rewrite (String.eqb_sym k' k). now destruct (String.eqb k k').
    + destruct (String.eqb k' k0) eqn:E1.
      * apply String.eqb_eq in E1. subst k0. now rewrite E0.
      * exact IH.
Qed.

Lemma keys_delete {V} (m : JSMap V) k :
  keys (map_delete k m) = filter (fun k' => negb (String.eqb k k')) (keys m).
Proof.
  unfold keys, map_delete.
  induction m as [| [k0 v0] m IH]; cbn; [reflexivity |].
  destruct (String.eqb k k0); cbn; now rewrite IH.
Qed.

Lemma in_keys_set {V} (m : JSMap V) k v k' :
  In k' (keys (map_set k v m)) <-> k' = k \/ In k' (keys m).
Proof.
  unfold keys.
  induction m as [| [k0 v0] m IH]; cbn.
  - intuition.
  - destruct (String.eqb k k0) eqn:E0; cbn.
    + apply String.eqb_eq in E0. subst k0. intuition.
    + rewrite IH. intuition.
Qed.

Lemma NoDup_keys_set {V} (m : JSMap V) k v :
  NoDup (keys m) -> NoDup (keys (map_set k v m)).
Proof.
  induction m as [| [k0 v0] m IH]; cbn; intros Hnd.
  - constructor; [intros [] | constructor].
  - inversion Hnd as [| ? ? Hnotin Hrest]; subst.
    destruct (String.eqb k k0) eqn:E0; cbn.
    + apply String.eqb_eq in E0. subst k0. now constructor.
    + constructor; [| now apply IH].
      intros Hin. apply (in_keys_set m k v k0) in Hin.
      destruct Hin as [-> | Hin]; [| contradiction].
      now rewrite String.eqb_refl in E0.
Qed.

Lemma NoDup_filter {A} (f : A -> bool) (l : list A) :
  NoDup l -> NoDup (filter f l).
Proof.
  induction 1 as [| x l Hnotin Hnd IH]; cbn; [constructor |].
  destruct (f x); [| exact IH].
  constructor; [| exact IH].
  intros Hin. apply filter_In in Hin. tauto.
Qed.

Lemma NoDup_keys_delete {V} (m : JSMap V) k :
  NoDup (keys m) -> NoDup (keys (map_delete k m)).
Proof.
  intros Hnd. rewrite keys_delete. now apply NoDup_filter.
Qed.

Lemma map_get_in {V} (m : JSMap V) k v :
  map_get m k = Some v -> In (k, v) m.
Proof.
  unfold map_get.
  induction m as [| [k0 v0] m IH]; cbn; [discriminate |].
  destruct (String.eqb k k0) eqn:E.
  - apply String.eqb_eq in E. intros [= ->]. subst. now left.
  - intros H. right. now apply IH.
Qed.

(** Settling leaves the other promises alone, and a settled promise as
    it is. *)
Lemma settle_at ps p s :
  nth_error (settle p s ps) p =
  match nth_error ps p with
  | Some Pending => Some s
  | other => other
  end.
Proof.
  unfold settle. rewrite nth_error_update, Nat.eqb_refl.
  destruct (nth_error ps p) as [[| |] |]; reflexivity.
Qed.

Lemma settle_other ps p s q :
  p <> q -> nth_error (settle p s ps) q = nth_error ps q.
Proof.
  intros Hne. unfold settle. rewrite nth_error_update.
  destruct (Nat.eqb_spec p q); [contradiction | reflexivity].
Qed.

Lemma settle_settled ps p s q st :
  nth_error ps q = Some st -> st <> Pending ->
  nth_error (settle p s ps) q = Some st.
Proof.
  intros Hq Hst.
  destruct (Nat.eq_dec p q) as [-> | Hne].
  - rewrite settle_at, Hq. now destruct st.
  - now rewrite settle_other.
Qed.

(** Rejecting a batch of requests with one and the same error. *)
Lemma reject_all_cons e r reqs w :
  reject_all e (r :: reqs) w = reject_all e reqs (reject (snd r) e w).
Proof. reflexivity. Qed.

Lemma reject_all_this e reqs :
  forall w, this (reject_all e reqs w) = this w
            /\ sockets (reject_all e reqs w) = sockets w
            /\ calls (reject_all e reqs w) = calls w
            /\ now (reject_all e reqs w) = now w
            /\ accepts (reject_all e reqs w) = accepts w.
Proof.
  induction reqs as [| r reqs IH]; intros w; [cbn; tauto |].
  rewrite reject_all_cons.
  destruct (IH (reject (snd r) e w)) as (-> & -> & -> & -> & ->). cbn. tauto.
Qed.

Lemma reject_all_keeps e reqs :
  forall w q, promise_state w q = Some (Rejected e) ->
              promise_state (reject_all e reqs w) q = Some (Rejected e).
Proof.
  induction reqs as [| r reqs IH]; intros w q Hq; [exact Hq |].
  rewrite reject_all_cons.
  apply IH. unfold promise_state, reject, with_promises in *. cbn.
  apply settle_settled; [exact Hq | discriminate].
Qed.

Lemma reject_all_rejects e reqs :
  forall w k req,
    In (k, req) reqs -> promise_state w req = Some Pending ->
    promise_state (reject_all e reqs w) req = Some (Rejected e).
Proof.
  induction reqs as [| [k0 r0] reqs IH]; intros w k req Hin Hpending; [destruct Hin |].
  rewrite reject_all_cons. cbn [snd].
  assert (Hhere : r0 = req ->
                  promise_state (reject_all e reqs (reject r0 e w)) req
                  = Some (Rejected e)).
  { intros ->. apply reject_all_keeps.
    unfold promise_state, reject, with_promises in *. cbn.
    now rewrite settle_at, Hpending. }
  destruct Hin as [[= _ Heq] | Hin]; [now apply Hhere |].
  destruct (Nat.eq_dec r0 req) as [Heq | Hne]; [now apply Hhere |].
  apply (IH _ k); [exact Hin |].
  unfold promise_state, reject, with_promises in *. cbn.
  now rewrite settle_other.
Qed.

Lemma scheduleReconnect_frame w :
  pending (this (scheduleReconnect w)) = pending (this w)
  /\ promises (scheduleReconnect w) = promises w.
Proof.
  unfold scheduleReconnect. destruct (reconnectTimer (this w)); cbn; tauto.
Qed.

(** The ways in which the callback of the reconnect timer ends. *)
Lemma reconnect_callback_cases w :
  let w2 := with_this (set_reconnectTimer None) w in
  reconnect_callback w = w2
  \/ reconnect_callback w = snd (connectBridge true w2)
  \/ reconnect_callback w = scheduleReconnect (snd (connectBridge true w2)).
Proof.
  intros w2. unfold reconnect_callback. fold w2.
  destruct (closed (this w2)); [now left |].
  destruct (connectBridge true w2) as [p w3]. cbn [snd].
  destruct (promise_state w3 p) as [[| |] |]; auto.
Qed.

(** *** The hello example *)

(** [sdk/examples/hello.ts]: three handlers, [connect], [setText].  The
    bridge is sent two requests, with the ids ["1"] and ["2"]; the answer
    to the first resolves its promise, the second is in flight. *)
Example hello_run :
  let w := run Samples.parse
             [CallOn "connected" 1%nat; CallOn "disconnected" 2%nat;
              CallOn "response" 3%nat;
              CallConnectBridge; SocketOpen 0%nat; CallSend "connect" None;
              SocketMessage 0%nat Samples.response_text;
              CallSend "setText" (Some (JObject [("text", JString "It works!")]))]
             (new_G2 Samples.platform NoOptions) in
  option_map outbox (nth_error (sockets w) 0)
  = Some [JObject [("id", JString "1"); ("method", JString "connect")];
          JObject [("id", JString "2"); ("method", JString "setText");
                   ("params", JObject [("text", JString "It works!")])]]
  /\ promises w = [Fulfilled None;
                   Fulfilled (Some (JObject [("connected", JBool true)]));
                   Pending]
  /\ pending (this w) = [("2", 2%nat)].
Proof. repeat split; reflexivity. Qed.

(** *** Inbound messages *)

Section Inbound.

Variable JSON_parse : string -> option JSON.

(** C6.  When [JSON.parse] throws on the inbound text, [handleMessage]
    returns normally and the world is what it was: no promise is
    settled, no handler is called, the pending map, the listeners and
    the sockets are untouched. *)
Theorem handleMessage_malformed (raw : string) (w : World) :
  JSON_parse raw = None ->
  handleMessage JSON_parse raw w = (w, Normal).
Proof.
  intros Hparse. unfold handleMessage. now rewrite Hparse.
Qed.

(** C1, amended.  Let the pending map still hold, under the key [K], a
    request whose promise is not settled, and let the inbound text
    parse to an object without an [event] member whose [id] is the
    string [K]; if it has an [error] member, let that be other than
    [null], with a [code] and a [message] that have a text.  Then
    [handleMessage] returns normally, the entry for [K] leaves the
    pending map and the other entries stay, and the promise is resolved
    with [msg.result ?? {}] when the message has no [error] member, and
    rejected with the error made from [error.code] and [error.message]
    when it has one. *)
Theorem handleMessage_response raw members K req w :
  JSON_parse raw = Some (JObject members) ->
  assoc "event" members = None ->
  assoc "id" members = Some (JString K) ->
  map_get (pending (this w)) K = Some req ->
  promise_state w req = Some Pending ->
  (forall err, assoc "error" members = Some err ->
               err <> JNull
               /\ converts (get err "code") = true
               /\ converts (get err "message") = true) ->
  let w' := fst (handleMessage JSON_parse raw w) in
  snd (handleMessage JSON_parse raw w) = Normal
  /\ pending (this w') = map_delete K (pending (this w))
  /\ map_get (pending (this w')) K = None
  /\ (forall k, k <> K -> map_get (pending (this w')) k = map_get (pending (this w)) k)
  /\ promise_state w' req =
     Some (match assoc "error" members with
           | None => Fulfilled (Some (orEmptyObject (assoc "result" members)))
           | Some err => Rejected (BridgeError (get err "code") (get err "message"))
           end).
Proof.
  intros Hparse Hevent Hid Hreq Hpending Herr w'. subst w'.
  unfold handleMessage, dispatch. rewrite Hparse.
  cbn [has get]. rewrite Hevent, Hid, Hreq.
  assert (Hgone : map_get (map_delete K (pending (this w))) K = None)
    by (now rewrite map_get_delete, String.eqb_refl).
  assert (Hrest : forall k, k <> K ->
                  map_get (map_delete K (pending (this w))) k
                  = map_get (pending (this w)) k).
  { intros k Hk. rewrite map_get_delete.
    destruct (String.eqb_spec K k); [congruence | reflexivity]. }
  destruct (assoc "error" members) as [err |] eqn:Herror.
  - destruct (Herr err eq_refl) as (Hnull & Hcode & Hmessage).
    rewrite Hcode, Hmessage. cbn [andb].
    destruct err; try contradiction; cbn;
      (repeat split; [exact Hgone | exact Hrest |]);
      unfold promise_state in *; cbn; now rewrite settle_at, Hpending.
  - cbn. repeat split; [exact Hgone | exact Hrest |].
    unfold promise_state in *. cbn. now rewrite settle_at, Hpending.
Qed.

(** What [ws.onclose] does for the requests that are in the pending
    map: when a socket closes, each of them whose promise is not
    settled is rejected, in the same handler run, with
    [Error("Bridge connection lost")], and the pending map is empty
    afterwards. *)
Lemma socket_close_rejects_pending i s w :
  nth_error (sockets w) i = Some s ->
  readyState s <> CLOSED ->
  let w' := step JSON_parse (SocketClose i) w in
  pending (this w') = []
  /\ forall K req,
       map_get (pending (this w)) K = Some req ->
       promise_state w req = Some Pending ->
       promise_state w' req = Some (Rejected (Error "Bridge connection lost")).
Proof.
  intros Hsock Hstate w'. subst w'.
  cbn [step]. rewrite Hsock.
  set (w0 := with_sockets (update i (set_readyState CLOSED)) w).
  assert (Hstep : match readyState s with CLOSED => w | _ => onclose w0 end = onclose w0)
    by (destruct (readyState s); congruence).
  rewrite Hstep. clear Hstep.
  unfold onclose.
  set (e := Error "Bridge connection lost").
  set (w1 := reject_all e (pending (this w0)) w0).
  set (w2 := with_this (set_pending []) w1).
  assert (Hfinal : forall w3, w3 = (if autoReconnect (this w2) && negb (closed (this w2))
                                    then scheduleReconnect w2 else w2) ->
                              pending (this w3) = pending (this w2)
                              /\ promises w3 = promises w2).
  { intros w3 ->. destruct (autoReconnect (this w2) && negb (closed (this w2)));
      [apply scheduleReconnect_frame | tauto]. }
  destruct (Hfinal _ eq_refl) as (Hp & Hq).
  split; [rewrite Hp; reflexivity |].
  intros K req Hin Hpending.
  unfold promise_state. rewrite Hq.
  change (promises w2) with (promises w1).
  apply (reject_all_rejects e (pending (this w0)) w0 K req).
  - apply map_get_in. exact Hin.
  - exact Hpending.
Qed.


End Inbound.

Lemma handleMessage_malformed_witness :
  Samples.parse Samples.malformed_text = None
  /\ handleMessage Samples.parse Samples.malformed_text Samples.waiting
     = (Samples.waiting, Normal).
Proof.
  split; [reflexivity |].
  apply (handleMessage_malformed Samples.parse); reflexivity.
Defined.

Lemma handleMessage_response_witness :
  let w' := fst (handleMessage Samples.parse Samples.response_text Samples.waiting) in
  pending (this w') = []
  /\ promise_state w' 1%nat
     = Some (Fulfilled (Some (JObject [("connected", JBool true)]))).
Proof.
  destruct (handleMessage_response Samples.parse Samples.response_text
              [("id", JString "1"); ("result", JObject [("connected", JBool true)])]
              "1" 1%nat Samples.waiting)
    as (_ & Hmap & _ & _ & Hpromise);
    try reflexivity; try discriminate.
  split; [exact Hmap | exact Hpromise].
Defined.

(** C1 as stated does not hold: an inbound message whose [id] is the key
    of the pending request, but which carries an [error] member, rejects
    the promise of [send]; the promise is not resolved with the
    [result] member. *)
Lemma error_reply_rejects_request :
  let w := Samples.waiting in
  let w' := fst (handleMessage Samples.parse Samples.failure_text w) in
  map_get (pending (this w)) "1" = Some 1%nat
  /\ promise_state w 1%nat = Some Pending
  /\ Samples.parse Samples.failure_text = Some Samples.failure_json
  /\ get Samples.failure_json "id" = Some (JString "1")
  /\ promise_state w' 1%nat
     = Some (Rejected (BridgeError (Some (JString "E42")) (Some (JString "no glasses"))))
  /\ ~ (exists v, promise_state w' 1%nat = Some (Fulfilled v)).
Proof.
  repeat split; try reflexivity.
  intros [v Hv]. vm_compute in Hv. discriminate.
Qed.



(** *** A request that nothing answers *)

Lemma in_map_set {V} (m : JSMap V) k v e :
  In e (map_set k v m) -> e = (k, v) \/ In e m.
Proof.
  induction m as [| [k0 v0] m IH]; cbn.
  - intuition.
  - destruct (String.eqb k k0); cbn; intuition.
Qed.

Lemma in_map_delete {V} (m : JSMap V) k e :
  In e (map_delete k m) -> In e m.
Proof.
  unfold map_delete. intros H. apply filter_In in H. tauto.
Qed.

Lemma in_update {A} (f : A -> A) (l : list A) :
  forall i x, In x (update i f l) -> exists x0, In x0 l /\ (x = x0 \/ x = f x0).
Proof.
  induction l as [| y l IH]; intros [| i] x; cbn; try tauto.
  - intros [Heq | Hin]; [exists y | exists x]; auto.
  - intros [Heq | Hin]; [exists x; auto |].
    destruct (IH i x Hin) as (x0 & Hx0 & Hx). exists x0. tauto.
Qed.

Lemma promise_state_push w q :
  (q < List.length (promises w))%nat ->
  nth_error (promises w ++ [Pending]) q = nth_error (promises w) q.
Proof.
  intros Hq. now rewrite nth_error_app1.
Qed.

Lemma pending_in_store w q st :
  promise_state w q = Some st -> (q < List.length (promises w))%nat.
Proof.
  unfold promise_state. intros H.
  apply nth_error_Some. congruence.
Qed.

(** [owned] only looks at the promise store, the pending map and the
    promises that sockets wait for. *)
Lemma owned_frame K req w w' :
  owned K req w ->
  nth_error (promises w') req = nth_error (promises w) req ->
  (forall e, In e (pending (this w')) -> In e (pending (this w))) ->
  (forall s, In s (sockets w') -> exists s0, In s0 (sockets w) /\ awaiting s = awaiting s0) ->
  owned K req w'.
Proof.
  intros (Hp & Hmap & Hsock) Hstore Hsub Hawait.
  unfold owned, promise_state in *.
  repeat split.
  - congruence.
  - intros k r Hin. apply Hmap. now apply Hsub.
  - intros s Hin. destruct (Hawait s Hin) as (s0 & Hin0 & ->). now apply Hsock.
Qed.

Lemma owned_scheduleReconnect K req w :
  owned K req w -> owned K req (scheduleReconnect w).
Proof.
  intros H. unfold scheduleReconnect.
  destruct (reconnectTimer (this w)); [exact H |].
  apply (owned_frame K req w); cbn; eauto.
Qed.

Lemma owned_settle_other K req w p st :
  p <> req -> owned K req w -> owned K req (with_promises (settle p st) w).
Proof.
  intros Hne H.
  apply (owned_frame K req w); cbn; eauto.
  now apply settle_other.
Qed.

Lemma owned_new_promise K req w :
  owned K req w ->
  owned K req (snd (new_promise w)) /\ fst (new_promise w) <> req.
Proof.
  intros H. pose proof (pending_in_store w req Pending (proj1 H)) as Hlt.
  split.
  - apply (owned_frame K req w); cbn; eauto.
    now apply promise_state_push.
  - cbn. lia.
Qed.

Lemma sockets_awaiting_update (f : WebSocket -> WebSocket) i ss :
  (forall s, awaiting (f s) = awaiting s) ->
  forall s, In s (update i f ss) -> exists s0, In s0 ss /\ awaiting s = awaiting s0.
Proof.
  intros Hf s Hin.
  destruct (in_update f ss i s Hin) as (s0 & Hin0 & [-> | ->]); exists s0; auto.
Qed.

Lemma owned_connectBridge K req b w :
  owned K req w -> owned K req (snd (connectBridge b w)).
Proof.
  intros H. unfold connectBridge.
  destruct (owned_new_promise K req w H) as (H1 & Hne).
  destruct (new_promise w) as [p w1] eqn:Hnew. cbn [fst snd] in *.
  destruct (is_open w1); cbn [snd].
  - now apply owned_settle_other.
  - destruct (accepts _ _); cbn [snd].
    + destruct H1 as (Hp & Hmap & Hsock).
      repeat split; cbn.
      * exact Hp.
      * exact Hmap.
      * intros s Hin. apply in_app_or in Hin.
        destruct Hin as [Hin | [<- | []]]; [now apply Hsock | cbn; congruence].
    + apply owned_settle_other; [exact Hne |].
      apply (owned_frame K req w1); cbn; eauto.
Qed.

Lemma owned_send K req method params w :
  owned K req w -> owned K req (snd (send method params w)).
Proof.
  intros H. unfold send.
  destruct (owned_new_promise K req w H) as (H1 & Hne).
  destruct (new_promise w) as [p w1] eqn:Hnew. cbn [fst snd] in *.
  destruct (ws (this w1)) as [i |]; [| now apply owned_settle_other].
  destruct (is_open w1); [| now apply owned_settle_other].
  cbn [snd].
  destruct H1 as (Hp & Hmap & Hsock).
  repeat split; cbn.
  - exact Hp.
  - intros k r Hin Hr. apply in_map_set in Hin.
    destruct Hin as [[= -> ->] | Hin]; [congruence | now apply (Hmap k r)].
  - intros s Hin.
    apply sockets_awaiting_update in Hin; [| reflexivity].
    destruct Hin as (s0 & Hin0 & ->).
    now apply Hsock.
Qed.

Lemma owned_closeBridge K req w :
  owned K req w -> owned K req (closeBridge w).
Proof.
  intros H. unfold closeBridge. cbn.
  destruct (ws (this w)) as [i |].
  - apply (owned_frame K req w); cbn; eauto.
    apply sockets_awaiting_update. intros s. unfold socket_close.
    now destruct (readyState s).
  - apply (owned_frame K req w); cbn; eauto.
Qed.

Lemma owned_dispatch K req msg w :
  match get msg "id" with
  | Some (JString k) => negb (String.eqb k K)
  | _ => true
  end = true ->
  owned K req w -> owned K req (fst (dispatch msg w)).
Proof.
  intros Hquiet H. unfold dispatch.
  destruct (has "event" msg) as [[|] |]; cbn [fst].
  - apply (owned_frame K req w); cbn; eauto.
  - destruct (get msg "id") as [[| | | k | |] |]; try exact H.
    destruct (map_get (pending (this w)) k) as [r |] eqn:Hget; [| exact H].
    assert (Hne : r <> req).
    { intros ->. apply map_get_in in Hget.
      destruct H as (_ & Hmap & _). rewrite (Hmap k req Hget eq_refl) in Hquiet.
      now rewrite String.eqb_refl in Hquiet. }
    assert (Hdel : owned K req
                     (with_this (fun g => set_pending (map_delete k (pending g)) g) w)).
    { apply (owned_frame K req w); cbn; eauto.
      intros e. apply in_map_delete. }
    destruct (get msg "error") as [[| | | | |] |]; cbn [fst];
      try exact Hdel; try (now apply owned_settle_other);
      destruct (converts _ && converts _); cbn [fst];
      try exact Hdel; now apply owned_settle_other.
  - exact H.
Qed.

Section Unanswered.

Variable JSON_parse : string -> option JSON.

Lemma owned_step K req op w :
  quiet JSON_parse K op = true -> owned K req w -> owned K req (step JSON_parse op w).
Proof.
  intros Hquiet H.
  destruct op as [method params | event h | event h | | | i | i | i | i raw | ms];
    cbn [step].
  - now apply owned_send.
  - apply (owned_frame K req w); cbn; eauto.
  - apply (owned_frame K req w); cbn; eauto.
    unfold off, with_this. cbn.
    destruct (map_get (listeners (this w)) event); cbn; auto.
  - now apply owned_connectBridge.
  - now apply owned_closeBridge.
  - destruct (nth_error (sockets w) i) as [s |] eqn:Hs; [| exact H].
    destruct (readyState s); try exact H.
    unfold onopen. apply owned_settle_other.
    + destruct H as (_ & _ & Hsock). apply Hsock. now apply nth_error_In with i.
    + apply (owned_frame K req w); cbn; eauto.
      apply sockets_awaiting_update. reflexivity.
  - destruct (nth_error (sockets w) i) as [s |] eqn:Hs; [| exact H].
    unfold onerror. destruct (is_open w); [exact H |].
    assert (Hrej : owned K req
                     (reject (awaiting s)
                        (Error ("Bridge connection failed: " ++ url (this w))) w)).
    { apply owned_settle_other; [| exact H].
      destruct H as (_ & _ & Hsock). apply Hsock. now apply nth_error_In with i. }
    destruct (retry s && _); [now apply owned_scheduleReconnect | exact Hrej].
  - discriminate.
  - destruct (nth_error (sockets w) i); [| exact H].
    unfold handleMessage. cbn [quiet] in Hquiet.
    destruct (JSON_parse raw) as [msg |]; [| exact H].
    now apply owned_dispatch.
  - set (w1 := later ms w).
    assert (H1 : owned K req w1) by (apply (owned_frame K req w); cbn; eauto).
    destruct (reconnectTimer (this w1)) as [due |]; [| exact H1].
    destruct (due <=? now w1); [| exact H1].
    set (w2 := with_this (set_reconnectTimer None) w1).
    assert (H2 : owned K req w2) by (apply (owned_frame K req w1); cbn; eauto).
    destruct (reconnect_callback_cases w1) as [-> | [-> | ->]]; fold w2;
      [exact H2 | | apply owned_scheduleReconnect]; now apply owned_connectBridge.
Qed.

Lemma owned_run K req ops :
  forall w, forallb (quiet JSON_parse K) ops = true -> owned K req w ->
            owned K req (run JSON_parse ops w).
Proof.
  induction ops as [| op ops IH]; intros w Hquiet H; [exact H |].
  cbn [forallb] in Hquiet. apply andb_true_iff in Hquiet.
  cbn [run fold_left]. apply IH; [tauto |].
  apply owned_step; tauto.
Qed.

End Unanswered.

(** *** Worlds that can be reached are well formed *)

Lemma well_formed_frame w w' :
  well_formed w ->
  (List.length (promises w) <= List.length (promises w'))%nat ->
  (forall e, In e (pending (this w')) ->
             In e (pending (this w)) \/ (snd e < List.length (promises w'))%nat) ->
  (forall s, In s (sockets w') ->
             (exists s0, In s0 (sockets w) /\ awaiting s = awaiting s0)
             \/ (awaiting s < List.length (promises w'))%nat) ->
  well_formed w'.
Proof.
  intros (Hmap & Hsock) Hlen Hsub Hawait. split.
  - intros k r Hin. destruct (Hsub _ Hin) as [Hold | Hnew]; [| exact Hnew].
    specialize (Hmap k r Hold). lia.
  - intros s Hin. destruct (Hawait s Hin) as [(s0 & Hin0 & ->) | Hnew]; [| exact Hnew].
    specialize (Hsock s0 Hin0). lia.
Qed.

Lemma length_settle p st ps : List.length (settle p st ps) = List.length ps.
Proof. apply length_update. Qed.

Ltac frame_wf w :=
  apply (well_formed_frame w); cbn;
  rewrite ?length_settle, ?length_app; cbn; eauto; try lia.

Lemma well_formed_new platform options : well_formed (new_G2 platform options).
Proof. destruct options; split; cbn; intros; contradiction. Qed.

Lemma well_formed_scheduleReconnect w :
  well_formed w -> well_formed (scheduleReconnect w).
Proof.
  intros H. unfold scheduleReconnect.
  destruct (reconnectTimer (this w)); [exact H | frame_wf w].
Qed.

Lemma well_formed_settle p st w :
  well_formed w -> well_formed (with_promises (settle p st) w).
Proof. intros H. frame_wf w. Qed.

Lemma well_formed_reject_all e reqs :
  forall w, well_formed w -> well_formed (reject_all e reqs w).
Proof.
  induction reqs as [| r reqs IH]; intros w H; [exact H |].
  rewrite reject_all_cons. apply IH. now apply well_formed_settle.
Qed.

Lemma well_formed_connectBridge b w :
  well_formed w -> well_formed (snd (connectBridge b w)).
Proof.
  intros H. unfold connectBridge. cbn [new_promise].
  destruct (is_open _); cbn [snd].
  - frame_wf w.
  - destruct (accepts _ _); cbn [snd]; frame_wf w.
    intros s Hin. apply in_app_or in Hin.
    destruct Hin as [Hin | [<- | []]]; [eauto | right; cbn; lia].
Qed.

Lemma well_formed_send method params w :
  well_formed w -> well_formed (snd (send method params w)).
Proof.
  intros H. unfold send. cbn [new_promise].
  set (w1 := with_promises (fun ps => ps ++ [Pending]) w).
  destruct (ws (this w1)) as [i |]; cbn [snd]; [| frame_wf w].
  destruct (is_open w1); cbn [snd]; [| frame_wf w].
  frame_wf w.
  - intros e Hin. apply in_map_set in Hin.
    destruct Hin as [-> | Hin]; [right; cbn; lia | now left].
  - intros s Hin. left. revert s Hin. apply sockets_awaiting_update. reflexivity.
Qed.

Lemma well_formed_dispatch msg w :
  well_formed w -> well_formed (fst (dispatch msg w)).
Proof.
  intros H. unfold dispatch.
  destruct (has "event" msg) as [[|] |]; cbn [fst]; [frame_wf w | | exact H].
  destruct (get msg "id") as [[| | | k | |] |]; try exact H.
  destruct (map_get (pending (this w)) k) as [r |]; [| exact H].
  destruct (get msg "error") as [[| | | | |] |]; cbn [fst];
    try destruct (converts _ && converts _); cbn [fst];
    frame_wf w; intros e Hin; left; now apply in_map_delete in Hin.
Qed.

Section Reachable.

Variable JSON_parse : string -> option JSON.

Lemma well_formed_step op w :
  well_formed w -> well_formed (step JSON_parse op w).
Proof.
  intros H.
  destruct op as [method params | event h | event h | | | i | i | i | i raw | ms];
    cbn [step].
  - now apply well_formed_send.
  - frame_wf w.
  - frame_wf w. unfold off, with_this. cbn.
    destruct (map_get (listeners (this w)) event); cbn; auto.
  - now apply well_formed_connectBridge.
  - unfold closeBridge. cbn. destruct (ws (this w)); frame_wf w.
    intros s Hin. left. revert s Hin. apply sockets_awaiting_update.
    intros s. unfold socket_close. now destruct (readyState s).
  - destruct (nth_error (sockets w) i) as [s |]; [| exact H].
    destruct (readyState s); try exact H.
    unfold onopen. apply well_formed_settle. frame_wf w.
    intros s' Hin. left. revert s' Hin. apply sockets_awaiting_update. reflexivity.
  - destruct (nth_error (sockets w) i) as [s |]; [| exact H].
    unfold onerror. destruct (is_open w); [exact H |].
    destruct (retry s && _);
      [apply well_formed_scheduleReconnect |]; now apply well_formed_settle.
  - destruct (nth_error (sockets w) i) as [s |]; [| exact H].
    destruct (readyState s); try exact H;
      unfold onclose;
      match goal with
      | |- well_formed (if ?c then scheduleReconnect ?w' else ?w') =>
          assert (well_formed w');
          [| destruct c; [now apply well_formed_scheduleReconnect | assumption]]
      end;
      (apply (well_formed_frame (reject_all (Error "Bridge connection lost")
                 (pending (this (with_sockets (update i (set_readyState CLOSED)) w)))
                 (with_sockets (update i (set_readyState CLOSED)) w)));
       [apply well_formed_reject_all; frame_wf w;
        intros s' Hin; left; revert s' Hin; apply sockets_awaiting_update; reflexivity
       | cbn; lia | cbn; tauto | cbn; eauto]).
  - destruct (nth_error (sockets w) i); [| exact H].
    unfold handleMessage. destruct (JSON_parse raw); [| exact H].
    now apply well_formed_dispatch.
  - set (w1 := later ms w).
    assert (H1 : well_formed w1) by (frame_wf w).
    destruct (reconnectTimer (this w1)) as [due |]; [| exact H1].
    destruct (due <=? now w1); [| exact H1].
    set (w2 := with_this (set_reconnectTimer None) w1).
    assert (H2 : well_formed w2) by (frame_wf w1).
    destruct (reconnect_callback_cases w1) as [-> | [-> | ->]]; fold w2;
      [exact H2 | | apply well_formed_scheduleReconnect];
      now apply well_formed_connectBridge.
Qed.

Lemma well_formed_run ops :
  forall w, well_formed w -> well_formed (run JSON_parse ops w).
Proof.
  induction ops as [| op ops IH]; intros w H; [exact H |].
  cbn [run fold_left]. apply IH. now apply well_formed_step.
Qed.

(** [send] on an open socket hands the new promise to the pending map
    and to nothing else. *)
Lemma send_owned method params w :
  well_formed w -> is_open w = true ->
  owned (next_key w) (fst (send method params w)) (snd (send method params w)).
Proof.
  intros (Hmap & Hsock) Hopen. unfold send, next_key. cbn [new_promise].
  set (w1 := with_promises (fun ps => ps ++ [Pending]) w).
  assert (Hopen1 : is_open w1 = true) by exact Hopen.
  assert (Hws : exists i, ws (this w1) = Some i).
  { unfold is_open, ws_readyState in Hopen1.
    destruct (ws (this w1)) as [i |]; [now exists i | discriminate]. }
  destruct Hws as (i & Hws). rewrite Hws, Hopen1. cbn [fst snd].
  repeat split; cbn.
  - unfold promise_state. cbn.
    now rewrite nth_error_app2, Nat.sub_diag by lia.
  - intros k r Hin Hr. apply in_map_set in Hin.
    destruct Hin as [[= -> _] | Hin]; [reflexivity |].
    specialize (Hmap k r Hin). lia.
  - intros s Hin. apply sockets_awaiting_update in Hin; [| reflexivity].
    destruct Hin as (s0 & Hin0 & ->). specialize (Hsock s0 Hin0). lia.
Qed.

(** C3, amended.  [send] takes no timeout and starts no timer.  When
    the socket is open, the promise it returns stays pending through
    every later run of calls, socket events and lapses of time, however
    long, in which no socket closes and no message with the id of the
    request arrives. *)
Theorem send_without_answer_stays_pending method params w ops :
  well_formed w ->
  is_open w = true ->
  forallb (quiet JSON_parse (next_key w)) ops = true ->
  reconnectTimer (this (snd (send method params w))) = reconnectTimer (this w)
  /\ promise_state (run JSON_parse ops (snd (send method params w)))
                   (fst (send method params w)) = Some Pending.
Proof.
  intros Hwf Hopen Hquiet. split.
  - unfold send. cbn [new_promise].
    destruct (ws _); [destruct (is_open _) |]; reflexivity.
  - apply (owned_run JSON_parse (next_key w) _ ops _ Hquiet).
    now apply send_owned.
Qed.

End Reachable.

Lemma well_formed_connected : well_formed Samples.connected.
Proof.
  apply well_formed_run, well_formed_new.
Qed.

Lemma send_without_answer_stays_pending_witness :
  promise_state
    (run Samples.parse
         [Elapse 30000; SocketMessage 0%nat Samples.stray_text;
          SocketMessage 0%nat Samples.event_text; CallSend "disconnect" None;
          Elapse 86400000]
         Samples.waiting) 1%nat = Some Pending.
Proof.
  apply (send_without_answer_stays_pending Samples.parse "getStatus" None Samples.connected
           [Elapse 30000; SocketMessage 0%nat Samples.stray_text;
            SocketMessage 0%nat Samples.event_text; CallSend "disconnect" None;
            Elapse 86400000]).
  - exact well_formed_connected.
  - reflexivity.
  - reflexivity.
Defined.

(** C3 as stated does not hold: a day after [send], with no message
    dispatched and the socket still open, the promise has not been
    settled with a timeout error or with anything else, and the object
    holds no timer. *)
Lemma request_pending_after_a_day :
  let w := run Samples.parse [Elapse 86400000] Samples.waiting in
  now w = 86400000
  /\ promise_state w 1%nat = Some Pending
  /\ map_get (pending (this w)) "1" = Some 1%nat
  /\ reconnectTimer (this w) = None.
Proof.
  repeat split; reflexivity.
Qed.

(** *** Keys of the pending map *)

Lemma toString10_inj a b :
  0 <= a -> 0 <= b -> JS.toString10 a = JS.toString10 b -> a = b.
Proof.
  intros Ha Hb. unfold JS.toString10.
  destruct (Z.ltb_spec a 0); [lia |]. destruct (Z.ltb_spec b 0); [lia |].
  intros Heq.
  assert (Hnonnil : forall n, N.to_uint n <> Decimal.Nil).
  { intros [| q]; [discriminate | apply DecimalPos.Unsigned.to_uint_nonnil]. }
  apply (f_equal NilZero.uint_of_string) in Heq.
  rewrite !NilZero.usu in Heq by apply Hnonnil.
  injection Heq as Heq. apply DecimalN.Unsigned.to_uint_inj in Heq.
  now apply Z2N.inj.
Qed.

Lemma increment_range n : 0 <= n <= 2^53 -> n <= increment n <= 2^53.
Proof.
  intros Hn. unfold increment. destruct (Z.ltb_spec n (2^53)); lia.
Qed.

(** What [send] does when the socket is open. *)
Lemma send_open method params w :
  is_open w = true ->
  let p := fst (send method params w) in
  let w' := snd (send method params w) in
  p = List.length (promises w)
  /\ promises w' = promises w ++ [Pending]
  /\ idCounter (this w') = increment (idCounter (this w))
  /\ pending (this w') = map_set (next_key w) p (pending (this w))
  /\ is_open w' = true.
Proof.
  intros Hopen. unfold send, next_key. cbn [new_promise].
  set (w1 := with_promises (fun ps => ps ++ [Pending]) w).
  assert (Hopen1 : is_open w1 = true) by exact Hopen.
  unfold is_open, ws_readyState in Hopen.
  change (ws (this w1)) with (ws (this w)).
  destruct (ws (this w)) as [i |] eqn:Hws; [| discriminate].
  rewrite Hopen1. cbn [fst snd].
  repeat split.
  unfold is_open, ws_readyState. cbn. rewrite Hws.
  rewrite nth_error_update, Nat.eqb_refl.
  destruct (nth_error (sockets w) i) as [s |]; [| discriminate].
  cbn in *. exact Hopen.
Qed.

(** What [send] does otherwise. *)
Lemma send_closed method params w :
  is_open w = false ->
  let p := fst (send method params w) in
  let w' := snd (send method params w) in
  p = List.length (promises w)
  /\ promises w' = promises w ++ [Rejected (Error "Not connected to bridge")]
  /\ this w' = this w.
Proof.
  intros Hopen. unfold send. cbn [new_promise].
  set (w1 := with_promises (fun ps => ps ++ [Pending]) w).
  assert (Hopen1 : is_open w1 = false) by exact Hopen.
  assert (Hsettle : settle (List.length (promises w))
                      (Rejected (Error "Not connected to bridge"))
                      (promises w ++ [Pending])
                    = promises w ++ [Rejected (Error "Not connected to bridge")]).
  { unfold settle. generalize (promises w). intros ps.
    induction ps as [| x ps IH]; cbn; [reflexivity | now rewrite IH]. }
  destruct (ws (this w1)); [rewrite Hopen1 |]; cbn [fst snd];
    repeat split; cbn; exact Hsettle.
Qed.

(** The pending map after one operation: as before, with one entry set
    by [send], with one entry deleted, or empty. *)
Lemma dispatch_pending msg w :
  idCounter (this (fst (dispatch msg w))) = idCounter (this w)
  /\ (pending (this (fst (dispatch msg w))) = pending (this w)
      \/ exists k, pending (this (fst (dispatch msg w))) = map_delete k (pending (this w))).
Proof.
  unfold dispatch.
  destruct (has "event" msg) as [[|] |]; cbn [fst]; [cbn; auto | | auto].
  destruct (get msg "id") as [[| | | k | |] |]; auto.
  destruct (map_get (pending (this w)) k) as [r |]; auto.
  destruct (get msg "error") as [[| | | | |] |];
    try destruct (converts _ && converts _); cbn; eauto.
Qed.

Lemma scheduleReconnect_this w :
  idCounter (this (scheduleReconnect w)) = idCounter (this w)
  /\ pending (this (scheduleReconnect w)) = pending (this w).
Proof.
  unfold scheduleReconnect. destruct (reconnectTimer (this w)); cbn; auto.
Qed.

Lemma connectBridge_this b w :
  idCounter (this (snd (connectBridge b w))) = idCounter (this w)
  /\ pending (this (snd (connectBridge b w))) = pending (this w).
Proof.
  unfold connectBridge. cbn [new_promise].
  destruct (is_open _); [| destruct (accepts _ _)]; cbn; auto.
Qed.

Section Keys.

Variable JSON_parse : string -> option JSON.

Lemma step_pending op w :
  let w' := step JSON_parse op w in
  match op with
  | CallSend _ _ =>
      if is_open w
      then idCounter (this w') = increment (idCounter (this w))
           /\ exists p, pending (this w') = map_set (next_key w) p (pending (this w))
      else idCounter (this w') = idCounter (this w)
           /\ pending (this w') = pending (this w)
  | _ =>
      idCounter (this w') = idCounter (this w)
      /\ (pending (this w') = pending (this w)
          \/ (exists k, pending (this w') = map_delete k (pending (this w)))
          \/ pending (this w') = [])
  end.
Proof.
  destruct op as [method params | event h | event h | | | i | i | i | i raw | ms];
    cbn [step].
  - destruct (is_open w) eqn:Hopen.
    + destruct (send_open method params w Hopen) as (_ & _ & Hc & Hp & _). eauto.
    + destruct (send_closed method params w Hopen) as (_ & _ & ->). auto.
  - cbn. auto.
  - unfold off, with_this. cbn. destruct (map_get (listeners (this w)) event); cbn; auto.
  - destruct (connectBridge_this false w) as (-> & ->). auto.
  - unfold closeBridge. cbn. destruct (ws (this w)); cbn; auto.
  - destruct (nth_error (sockets w) i) as [s |]; [| auto].
    destruct (readyState s); cbn; auto.
  - destruct (nth_error (sockets w) i) as [s |]; [| auto].
    unfold onerror. destruct (is_open w); [auto |].
    destruct (retry s && _); [destruct (scheduleReconnect_this
      (reject (awaiting s) (Error ("Bridge connection failed: " ++ url (this w))) w))
      as (-> & ->) |]; cbn; auto.
  - destruct (nth_error (sockets w) i) as [s |]; [| auto].
    assert (Hclose : forall w0, idCounter (this w0) = idCounter (this w) ->
                                idCounter (this (onclose w0)) = idCounter (this w)
                                /\ pending (this (onclose w0)) = []).
    { intros w0 Hc. unfold onclose.
      match goal with
      | |- context [if ?c then scheduleReconnect ?w1 else ?w1] =>
          destruct c; [destruct (scheduleReconnect_this w1) as (-> & ->) |]
      end; cbn;
        destruct (reject_all_this (Error "Bridge connection lost") (pending (this w0)) w0)
          as (-> & _); auto. }
    destruct (readyState s); [| | | auto];
      destruct (Hclose (with_sockets (update i (set_readyState CLOSED)) w) eq_refl)
        as (-> & ->); auto.
  - destruct (nth_error (sockets w) i); [| auto].
    unfold handleMessage. destruct (JSON_parse raw) as [msg |]; [| auto].
    destruct (dispatch_pending msg w) as (-> & [-> | (k & ->)]); eauto.
  - set (w1 := later ms w).
    destruct (reconnectTimer (this w1)) as [due |]; [| auto].
    destruct (due <=? now w1); [| auto].
    destruct (connectBridge_this true (with_this (set_reconnectTimer None) w1))
      as (Hc & Hp).
    destruct (scheduleReconnect_this
                (snd (connectBridge true (with_this (set_reconnectTimer None) w1))))
      as (Hc' & Hp').
    destruct (reconnect_callback_cases w1) as [-> | [-> | ->]];
      rewrite ?Hc', ?Hp', ?Hc, ?Hp; cbn; auto.
Qed.

(** The keys of the pending map stay pairwise distinct, whatever
    happens. *)
Lemma NoDup_keys_step op w :
  NoDup (keys (pending (this w))) ->
  NoDup (keys (pending (this (step JSON_parse op w)))).
Proof.
  intros Hnd. pose proof (step_pending op w) as H. cbv zeta in H.
  destruct op; try (destruct H as (_ & [-> | [(k & ->) | ->]]);
                    [exact Hnd | now apply NoDup_keys_delete | constructor]).
  destruct (is_open w).
  - destruct H as (_ & p & ->). now apply NoDup_keys_set.
  - destruct H as (_ & ->). exact Hnd.
Qed.

Lemma counted_step op w :
  counted w -> counted (step JSON_parse op w).
Proof.
  intros (Hc & Hkeys). pose proof (step_pending op w) as H. cbv zeta in H.
  assert (Hsame : forall w',
             idCounter (this w') = idCounter (this w) ->
             (forall k, In k (keys (pending (this w'))) -> In k (keys (pending (this w)))) ->
             counted w').
  { intros w' Hc' Hsub. split; rewrite Hc'; [exact Hc |].
    intros k Hin. now apply Hkeys, Hsub. }
  destruct op;
    try (destruct H as (Hc' & [Hp | [(k & Hp) | Hp]]);
         apply Hsame; try exact Hc'; rewrite Hp;
         [auto | intros k' Hin; rewrite keys_delete in Hin;
                 apply filter_In in Hin; tauto
          | intros k' []]).
  destruct (is_open w).
  - destruct H as (Hc' & p & Hp). pose proof (increment_range _ Hc) as Hinc.
    split; rewrite Hc'; [lia |].
    intros k Hin. rewrite Hp in Hin. apply in_keys_set in Hin.
    destruct Hin as [-> | Hin].
    + exists (increment (idCounter (this w))). split; [| reflexivity].
      unfold increment in *. destruct (Z.ltb_spec (idCounter (this w)) (2^53)); lia.
    + destruct (Hkeys k Hin) as (n & Hn & ->). exists n. split; [lia | reflexivity].
  - destruct H as (Hc' & Hp). apply Hsame; [exact Hc' | now rewrite Hp].
Qed.

Lemma counted_run ops :
  forall w, counted w -> counted (run JSON_parse ops w).
Proof.
  induction ops as [| op ops IH]; intros w H; [exact H |].
  cbn [run fold_left]. apply IH. now apply counted_step.
Qed.

Lemma NoDup_keys_run ops :
  forall w, NoDup (keys (pending (this w))) ->
            NoDup (keys (pending (this (run JSON_parse ops w)))).
Proof.
  induction ops as [| op ops IH]; intros w H; [exact H |].
  cbn [run fold_left]. apply IH. now apply NoDup_keys_step.
Qed.

Lemma counter_step op w :
  counted w ->
  idCounter (this w) <= idCounter (this (step JSON_parse op w)) <= idCounter (this w) + 1.
Proof.
  intros (Hc & _). pose proof (step_pending op w) as H. cbv zeta in H.
  destruct op; try (destruct H as (-> & _); lia).
  destruct (is_open w); destruct H as (-> & _); [| lia].
  unfold increment. destruct (Z.ltb_spec (idCounter (this w)) (2^53)); lia.
Qed.

Lemma counter_run ops :
  forall w, counted w ->
            idCounter (this w) <= idCounter (this (run JSON_parse ops w))
            <= idCounter (this w) + Z.of_nat (List.length ops).
Proof.
  induction ops as [| op ops IH]; intros w H; cbn [run fold_left List.length]; [lia |].
  pose proof (counter_step op w H).
  pose proof (IH _ (counted_step op w H)).
  change (fold_left (fun w op => step JSON_parse op w) ops (step JSON_parse op w))
    with (run JSON_parse ops (step JSON_parse op w)). lia.
Qed.

Lemma counted_new platform options : counted (new_G2 platform options).
Proof.
  destruct options; split; cbn; try lia; intros k [].
Qed.

End Keys.

(** *** When the counter stops counting *)

Lemma sends_succ n w : sends (N.succ n) w = snd (getStatus (sends n w)).
Proof. unfold sends. apply N.iter_succ. Qed.

(** After [n] calls of [getStatus] on the connected sample client
    ([n <= 2^53]) the counter is [n], the socket is still open, every
    request of the pending map is unsettled, and the request of the last
    call is in the map under the text of [n]. *)
Lemma sends_spec n :
  Z.of_N n <= 2^53 ->
  let w := sends n Samples.connected in
  idCounter (this w) = Z.of_N n
  /\ is_open w = true
  /\ (forall k r, In (k, r) (pending (this w)) -> promise_state w r = Some Pending)
  /\ (n <> 0%N ->
      map_get (pending (this w)) (JS.toString10 (Z.of_N n))
      = Some (List.length (promises w) - 1)%nat).
Proof.
  induction n as [| n IH] using N.peano_ind; intros Hn.
  - repeat split; try reflexivity; [intros k r [] | congruence].
  - cbv zeta in *. rewrite sends_succ.
    destruct IH as (Hc & Hopen & Hall & _); [lia |].
    set (w := sends n Samples.connected) in *. clearbody w.
    destruct (send_open "getStatus" None w Hopen) as (Hp & Hps & Hc' & Hmap & Hopen').
    unfold getStatus.
    set (p := fst (send "getStatus" None w)) in *.
    set (w' := snd (send "getStatus" None w)) in *. clearbody p w'.
    assert (Hinc : increment (idCounter (this w)) = Z.of_N (N.succ n)).
    { unfold increment. destruct (Z.ltb_spec (idCounter (this w)) (2^53)); lia. }
    repeat split.
    + congruence.
    + exact Hopen'.
    + intros k r Hin. rewrite Hmap in Hin. apply in_map_set in Hin.
      unfold promise_state. rewrite Hps.
      destruct Hin as [[= _ ->] | Hin].
      * now rewrite Hp, nth_error_app2, Nat.sub_diag by lia.
      * specialize (Hall k r Hin).
        rewrite nth_error_app1; [exact Hall |].
        now apply pending_in_store with Pending.
    + intros _. rewrite Hmap, map_get_set. unfold next_key. rewrite Hinc.
      rewrite String.eqb_refl, Hps, length_app, Hp. cbn [List.length].
      f_equal. lia.
Qed.

(** C5, amended.  [send] makes no check of the key and knows no
    [DuplicateKey] error.  With an open socket it registers the request
    under the text of [++idCounter] with [Map.set], which replaces an
    entry already under that key, and its promise is left pending; with
    no open socket its promise is rejected with ["Not connected to
    bridge"] and the pending map is left as it is.  The pending map has
    at most one request per key, before and after. *)
Theorem send_registers_with_set method params w :
  NoDup (keys (pending (this w))) ->
  let p := fst (send method params w) in
  let w' := snd (send method params w) in
  NoDup (keys (pending (this w')))
  /\ if is_open w
     then promise_state w' p = Some Pending
          /\ pending (this w') = map_set (next_key w) p (pending (this w))
          /\ map_get (pending (this w')) (next_key w) = Some p
     else promise_state w' p = Some (Rejected (Error "Not connected to bridge"))
          /\ pending (this w') = pending (this w).
Proof.
  intros Hnd p w'. subst p w'.
  destruct (is_open w) eqn:Hopen.
  - destruct (send_open method params w Hopen) as (Hp & Hps & _ & Hmap & _).
    rewrite Hmap. repeat split.
    + now apply NoDup_keys_set.
    + unfold promise_state. rewrite Hps, Hp.
      now rewrite nth_error_app2, Nat.sub_diag by lia.
    + now rewrite map_get_set, String.eqb_refl.
  - destruct (send_closed method params w Hopen) as (Hp & Hps & Hthis).
    rewrite Hthis. repeat split; [exact Hnd |].
    unfold promise_state. rewrite Hps, Hp.
    now rewrite nth_error_app2, Nat.sub_diag by lia.
Qed.

Lemma send_registers_with_set_witness :
  let p := fst (send "getStatus" None Samples.connected) in
  let w' := snd (send "getStatus" None Samples.connected) in
  NoDup (keys (pending (this Samples.connected)))
  /\ NoDup (keys (pending (this w')))
  /\ promise_state w' p = Some Pending
  /\ pending (this w') = map_set (next_key Samples.connected) p
                                 (pending (this Samples.connected))
  /\ map_get (pending (this w')) (next_key Samples.connected) = Some p.
Proof.
  assert (Hnd : NoDup (keys (pending (this Samples.connected)))) by constructor.
  split; [exact Hnd |].
  exact (send_registers_with_set "getStatus" None Samples.connected Hnd).
Defined.

(** C5 as stated does not hold.  After 2^53 calls of [send] the counter
    is 2^53 and stays there, so the next call comes with the key of the
    request before it, which is still unresolved.  That call does not
    fail: its promise is pending, and its request has taken the place of
    the earlier one in the pending map. *)
Lemma saturated_counter_overwrites_request :
  let w := sends 9007199254740992 Samples.connected in
  let req := (List.length (promises w) - 1)%nat in
  let p := fst (getStatus w) in
  let w' := snd (getStatus w) in
  is_open w = true
  /\ map_get (pending (this w)) (next_key w) = Some req
  /\ promise_state w req = Some Pending
  /\ promise_state w' p = Some Pending
  /\ p <> req
  /\ map_get (pending (this w')) (next_key w) = Some p.
Proof.
  destruct (sends_spec 9007199254740992) as (Hc & Hopen & Hall & Hlast); [reflexivity |].
  specialize (Hlast ltac:(discriminate)).
  set (w := sends 9007199254740992 Samples.connected) in *. clearbody w.
  assert (Hkey : next_key w = JS.toString10 (Z.of_N 9007199254740992)).
  { unfold next_key. rewrite Hc. reflexivity. }
  cbv zeta. unfold getStatus.
  destruct (send_open "getStatus" None w Hopen) as (Hp & Hps & _ & Hmap & _).
  pose proof (map_get_in _ _ _ Hlast) as Hin.
  pose proof (pending_in_store _ _ _ (Hall _ _ Hin)) as Hlt.
  rewrite Hkey in *.
  repeat split.
  - exact Hopen.
  - exact Hlast.
  - exact (Hall _ _ Hin).
  - unfold promise_state. rewrite Hps, Hp.
    now rewrite nth_error_app2, Nat.sub_diag by lia.
  - lia.
  - now rewrite Hmap, map_get_set, String.eqb_refl.
Qed.

(** C8 as stated does not hold.  The call of [send] number 2^53 and the
    one after it register their requests under the same key,
    ["9007199254740992"], and the later call overwrites the entry of the
    earlier one, whose promise is not settled. *)
Lemma saturated_counter_repeats_key :
  let w1 := sends 9007199254740991 Samples.connected in
  let p1 := fst (getStatus w1) in
  let w2 := snd (getStatus w1) in
  let p2 := fst (getStatus w2) in
  let w3 := snd (getStatus w2) in
  is_open w1 = true /\ is_open w2 = true
  /\ next_key w1 = "9007199254740992"
  /\ next_key w2 = "9007199254740992"
  /\ map_get (pending (this w2)) "9007199254740992" = Some p1
  /\ promise_state w2 p1 = Some Pending
  /\ p2 <> p1
  /\ map_get (pending (this w3)) "9007199254740992" = Some p2.
Proof.
  destruct (sends_spec 9007199254740991) as (Hc & Hopen & _ & _); [discriminate |].
  set (w1 := sends 9007199254740991 Samples.connected) in *. clearbody w1.
  cbv zeta. unfold getStatus.
  assert (Hkey1 : next_key w1 = "9007199254740992")
    by (unfold next_key; rewrite Hc; reflexivity).
  destruct (send_open "getStatus" None w1 Hopen) as (Hp1 & Hps1 & Hc1 & Hmap1 & Hopen2).
  set (p1 := fst (send "getStatus" None w1)) in *.
  set (w2 := snd (send "getStatus" None w1)) in *. clearbody p1 w2.
  assert (Hkey2 : next_key w2 = "9007199254740992")
    by (unfold next_key; rewrite Hc1, Hc; reflexivity).
  destruct (send_open "getStatus" None w2 Hopen2) as (Hp2 & Hps2 & _ & Hmap2 & _).
  rewrite Hkey1 in *. rewrite Hkey2 in *.
  repeat split; try assumption; try reflexivity.
  - now rewrite Hmap1, map_get_set, String.eqb_refl.
  - unfold promise_state. rewrite Hps1, Hp1.
    now rewrite nth_error_app2, Nat.sub_diag by lia.
  - rewrite Hp2, Hps1, length_app, Hp1. cbn [List.length]. lia.
  - now rewrite Hmap2, map_get_set, String.eqb_refl.
Qed.

(** *** The requests of the pending map are unsettled *)

Lemma NoDup_values_set (m : JSMap PendingRequest) k p :
  NoDup (map snd m) -> ~ In p (map snd m) -> NoDup (map snd (map_set k p m)).
Proof.
  induction m as [| [k0 r0] m IH]; cbn; intros Hnd Hfresh.
  - constructor; [intros [] | constructor].
  - inversion Hnd as [| ? ? Hnotin Hrest]; subst.
    destruct (String.eqb k k0); cbn.
    + constructor; [tauto | exact Hrest].
    + constructor; [| apply IH; tauto].
      intros Hin. apply in_map_iff in Hin. destruct Hin as ([k1 r1] & Heq & Hin).
      cbn in Heq. subst r1. apply in_map_set in Hin.
      destruct Hin as [[= _ ->] | Hin]; [tauto |].
      apply Hnotin. apply in_map_iff. now exists (k1, r0).
Qed.

Lemma NoDup_values_delete (m : JSMap PendingRequest) k :
  NoDup (map snd m) -> NoDup (map snd (map_delete k m)).
Proof.
  unfold map_delete.
  induction m as [| [k0 r0] m IH]; cbn; intros Hnd; [constructor |].
  inversion Hnd as [| ? ? Hnotin Hrest]; subst.
  destruct (String.eqb k k0); cbn; [now apply IH |].
  constructor; [| now apply IH].
  intros Hin. apply Hnotin.
  apply in_map_iff in Hin. destruct Hin as (e & Heq & Hin).
  apply filter_In in Hin. apply in_map_iff. exists e. tauto.
Qed.

Lemma same_value_same_key (m : JSMap PendingRequest) k k' r :
  NoDup (map snd m) -> In (k, r) m -> In (k', r) m -> k = k'.
Proof.
  induction m as [| [k0 r0] m IH]; cbn; intros Hnd H1 H2; [contradiction |].
  inversion Hnd as [| ? ? Hnotin Hrest]; subst.
  assert (Hval : forall k1, In (k1, r0) m -> False).
  { intros k1 Hin. apply Hnotin. apply in_map_iff. now exists (k1, r0). }
  destruct H1 as [H1 | H1], H2 as [H2 | H2].
  - congruence.
  - injection H1 as _ <-. exfalso. eauto.
  - injection H2 as _ <-. exfalso. eauto.
  - now apply IH.
Qed.

Lemma in_map_delete_key {V} (m : JSMap V) k k' v :
  In (k', v) (map_delete k m) -> k' <> k.
Proof.
  unfold map_delete. intros Hin. apply filter_In in Hin. destruct Hin as (_ & Hneq).
  cbn in Hneq. intros ->. now rewrite String.eqb_refl in Hneq.
Qed.

(** [unsettled] is kept when the pending map stays, the promises of its
    requests stay, and the sockets wait for what they waited for or for
    promises made since. *)
Lemma unsettled_frame w w' :
  well_formed w -> unsettled w ->
  pending (this w') = pending (this w) ->
  (forall r, (r < List.length (promises w))%nat ->
             nth_error (promises w') r = nth_error (promises w) r
             \/ forall k, ~ In (k, r) (pending (this w))) ->
  (forall s, In s (sockets w') ->
             (exists s0, In s0 (sockets w) /\ awaiting s = awaiting s0)
             \/ (List.length (promises w) <= awaiting s)%nat) ->
  unsettled w'.
Proof.
  intros (Hwf & _) (Hnd & Hall & Hsock) Hmap Hstore Hawait.
  unfold unsettled, promise_state in *. rewrite Hmap.
  repeat split.
  - exact Hnd.
  - intros k r Hin.
    destruct (Hstore r (Hwf k r Hin)) as [-> | Hno]; [eauto | now destruct (Hno k)].
  - intros s k r Hs Hin.
    destruct (Hawait s Hs) as [(s0 & Hs0 & ->) | Hnew]; [eauto |].
    specialize (Hwf k r Hin). lia.
Qed.

Ltac frame_unsettled w :=
  apply (unsettled_frame w); cbn;
  rewrite ?length_settle, ?length_app; cbn; eauto; try lia.

Lemma unsettled_settle_other p st w :
  well_formed w -> unsettled w ->
  (forall k, ~ In (k, p) (pending (this w))) ->
  unsettled (with_promises (settle p st) w).
Proof.
  intros Hwf H Hp. frame_unsettled w.
  intros r _. destruct (Nat.eq_dec p r) as [-> | Hne]; [now right | left].
  now apply settle_other.
Qed.

Lemma unsettled_awaited s w :
  unsettled w -> In s (sockets w) ->
  forall k, ~ In (k, awaiting s) (pending (this w)).
Proof.
  intros (_ & _ & Hsock) Hs k Hin. now apply (Hsock s k (awaiting s) Hs Hin).
Qed.

Lemma unsettled_fresh w :
  well_formed w -> forall k, ~ In (k, List.length (promises w)) (pending (this w)).
Proof.
  intros (Hwf & _) k Hin. specialize (Hwf _ _ Hin). lia.
Qed.

Lemma unsettled_scheduleReconnect w :
  well_formed w -> unsettled w -> unsettled (scheduleReconnect w).
Proof.
  intros Hwf H. unfold scheduleReconnect.
  destruct (reconnectTimer (this w)); [exact H | frame_unsettled w].
Qed.

Lemma unsettled_connectBridge b w :
  well_formed w -> unsettled w -> unsettled (snd (connectBridge b w)).
Proof.
  intros Hwf H. unfold connectBridge. cbn [new_promise].
  destruct (is_open _); cbn [snd].
  - frame_unsettled w. intros r Hr. left.
    rewrite settle_other by lia. now apply promise_state_push.
  - destruct (accepts _ _); cbn [snd].
    + frame_unsettled w.
      * intros r Hr. left. now apply promise_state_push.
      * intros s Hin. apply in_app_or in Hin.
        destruct Hin as [Hin | [<- | []]]; [eauto | right; cbn; lia].
    + frame_unsettled w. intros r Hr. left.
      rewrite settle_other by lia. now apply promise_state_push.
Qed.

Lemma unsettled_send method params w :
  well_formed w -> unsettled w -> unsettled (snd (send method params w)).
Proof.
  intros Hwf H.
  destruct (is_open w) eqn:Hopen.
  - destruct (send_open method params w Hopen) as (Hp & Hps & _ & Hmap & _).
    assert (Hsockets : forall s, In s (sockets (snd (send method params w))) ->
                                 exists s0, In s0 (sockets w) /\ awaiting s = awaiting s0).
    { unfold send. cbn [new_promise].
      set (w1 := with_promises (fun ps => ps ++ [Pending]) w).
      assert (Hopen1 : is_open w1 = true) by exact Hopen.
      destruct (ws (this w1)) as [i |] eqn:Hws.
      - rewrite Hopen1. cbn [snd]. cbn. apply sockets_awaiting_update. reflexivity.
      - unfold is_open, ws_readyState in Hopen1. rewrite Hws in Hopen1. discriminate. }
    set (p := fst (send method params w)) in *.
    set (w' := snd (send method params w)) in *. clearbody p w'.
    destruct Hwf as (Hwf & Hwfs). destruct H as (Hnd & Hall & Hsock).
    unfold unsettled, promise_state in *. rewrite Hmap, Hps.
    assert (Hfresh : ~ In p (map snd (pending (this w)))).
    { intros Hin. apply in_map_iff in Hin. destruct Hin as ([k r] & Heq & Hin).
      cbn in Heq. subst r. specialize (Hwf _ _ Hin). lia. }
    repeat split.
    + now apply NoDup_values_set.
    + intros k r Hin. apply in_map_set in Hin.
      destruct Hin as [[= _ ->] | Hin].
      * now rewrite Hp, nth_error_app2, Nat.sub_diag by lia.
      * rewrite nth_error_app1 by (now apply (Hwf k)). now apply (Hall k).
    + intros s k r Hs Hin. destruct (Hsockets s Hs) as (s0 & Hs0 & ->).
      apply in_map_set in Hin.
      destruct Hin as [[= _ ->] | Hin]; [| now apply (Hsock s0 k)].
      specialize (Hwfs s0 Hs0). lia.
  - destruct (send_closed method params w Hopen) as (_ & Hps & Hthis).
    assert (Hsockets : sockets (snd (send method params w)) = sockets w).
    { unfold send. cbn [new_promise].
      set (w1 := with_promises (fun ps => ps ++ [Pending]) w).
      assert (Hopen1 : is_open w1 = false) by exact Hopen.
      destruct (ws (this w1)); [rewrite Hopen1 |]; reflexivity. }
    apply (unsettled_frame w); try assumption.
    + now rewrite Hthis.
    + intros r Hr. left. rewrite Hps. now rewrite !nth_error_app1 by lia.
    + intros s Hs. left. rewrite Hsockets in Hs. eauto.
Qed.

Lemma unsettled_dispatch msg w :
  well_formed w -> unsettled w -> unsettled (fst (dispatch msg w)).
Proof.
  intros Hwf H. unfold dispatch.
  destruct (has "event" msg) as [[|] |]; cbn [fst]; [frame_unsettled w | | exact H].
  destruct (get msg "id") as [[| | | k | |] |]; try exact H.
  destruct (map_get (pending (this w)) k) as [r |] eqn:Hget; [| exact H].
  apply map_get_in in Hget.
  set (w1 := with_this (fun g => set_pending (map_delete k (pending g)) g) w).
  assert (Hwf1 : well_formed w1).
  { apply (well_formed_frame w); cbn; eauto.
    intros e Hin. left. now apply in_map_delete in Hin. }
  assert (H1 : unsettled w1).
  { destruct H as (Hnd & Hall & Hsock). unfold unsettled, promise_state in *. cbn.
    repeat split.
    - now apply NoDup_values_delete.
    - intros k' r' Hin. apply in_map_delete in Hin. now apply (Hall k').
    - intros s k' r' Hs Hin. apply in_map_delete in Hin. now apply (Hsock s k'). }
  assert (Hgone : forall k', ~ In (k', r) (pending (this w1))).
  { intros k' Hin. cbn in Hin.
    pose proof (in_map_delete_key _ _ _ _ Hin) as Hneq.
    apply in_map_delete in Hin. destruct H as (Hnd & _).
    apply Hneq. now apply (same_value_same_key (pending (this w)) k' k r). }
  destruct (get msg "error") as [[| | | | |] |]; cbn [fst];
    try exact H1; try (now apply unsettled_settle_other);
    destruct (converts _ && converts _); cbn [fst];
    try exact H1; now apply unsettled_settle_other.
Qed.

Section Unsettled.

Variable JSON_parse : string -> option JSON.

Lemma unsettled_step op w :
  well_formed w -> unsettled w -> unsettled (step JSON_parse op w).
Proof.
  intros Hwf H.
  destruct op as [method params | event h | event h | | | i | i | i | i raw | ms];
    cbn [step].
  - now apply unsettled_send.
  - frame_unsettled w.
  - frame_unsettled w. unfold off, with_this. cbn.
    destruct (map_get (listeners (this w)) event); cbn; auto.
  - now apply unsettled_connectBridge.
  - unfold closeBridge. cbn. destruct (ws (this w)); frame_unsettled w.
    intros s Hin. left. revert s Hin. apply sockets_awaiting_update.
    intros s. unfold socket_close. now destruct (readyState s).
  - destruct (nth_error (sockets w) i) as [s |] eqn:Hs; [| exact H].
    destruct (readyState s); try exact H.
    set (w1 := with_sockets (update i (set_readyState OPEN)) w).
    assert (Hwf1 : well_formed w1).
    { apply (well_formed_frame w); cbn; eauto.
      intros s' Hin. left. revert s' Hin. apply sockets_awaiting_update. reflexivity. }
    assert (H1 : unsettled w1).
    { apply (unsettled_frame w); cbn; eauto.
      intros s' Hin. left. revert s' Hin. apply sockets_awaiting_update. reflexivity. }
    unfold onopen. apply unsettled_settle_other; try assumption.
    apply (unsettled_awaited s w H). now apply nth_error_In with i.
  - destruct (nth_error (sockets w) i) as [s |] eqn:Hs; [| exact H].
    unfold onerror. destruct (is_open w); [exact H |].
    assert (Hrej : unsettled (reject (awaiting s)
                     (Error ("Bridge connection failed: " ++ url (this w))) w)).
    { apply unsettled_settle_other; try assumption.
      apply (unsettled_awaited s w H). now apply nth_error_In with i. }
    destruct (retry s && _); [| exact Hrej].
    apply unsettled_scheduleReconnect; [now apply well_formed_settle | exact Hrej].
  - destruct (nth_error (sockets w) i) as [s |] eqn:Hs; [| exact H].
    assert (Hclose : forall w0, pending (this (onclose w0)) = [] -> unsettled (onclose w0)).
    { intros w0 Hp. unfold unsettled. rewrite Hp. cbn.
      repeat split; [constructor | intros ? ? [] | intros ? ? ? ? []]. }
    pose proof (step_pending JSON_parse (SocketClose i) w) as Hshape.
    cbv zeta in Hshape. cbn [step] in Hshape. rewrite Hs in Hshape.
    destruct (readyState s); try exact H; apply Hclose;
      unfold onclose;
      match goal with
      | |- context [if ?c then scheduleReconnect ?w1 else ?w1] =>
          destruct c; [destruct (scheduleReconnect_this w1) as (_ & ->) |]; reflexivity
      end.
  - destruct (nth_error (sockets w) i); [| exact H].
    unfold handleMessage. destruct (JSON_parse raw); [| exact H].
    now apply unsettled_dispatch.
  - set (w1 := later ms w).
    assert (Hwf1 : well_formed w1) by (frame_wf w).
    assert (H1 : unsettled w1) by (frame_unsettled w).
    destruct (reconnectTimer (this w1)) as [due |]; [| exact H1].
    destruct (due <=? now w1); [| exact H1].
    set (w2 := with_this (set_reconnectTimer None) w1).
    assert (Hwf2 : well_formed w2) by (frame_wf w1).
    assert (H2 : unsettled w2) by (frame_unsettled w1).
    destruct (reconnect_callback_cases w1) as [-> | [-> | ->]]; fold w2;
      [exact H2 | | apply unsettled_scheduleReconnect;
                    [now apply well_formed_connectBridge |]];
      now apply unsettled_connectBridge.
Qed.

(** In every world that a new client can reach, every request of the
    pending map has an unsettled promise. *)
Lemma reachable_unsettled platform options ops :
  let w := run JSON_parse ops (new_G2 platform options) in
  well_formed w /\ unsettled w.
Proof.
  cbv zeta.
  assert (Hgen : forall ops w, well_formed w -> unsettled w ->
                               well_formed (run JSON_parse ops w)
                               /\ unsettled (run JSON_parse ops w)).
  { clear ops. induction ops as [| op ops IH]; intros w Hwf H; [tauto |].
    cbn [run fold_left]. apply IH; [now apply well_formed_step | now apply unsettled_step]. }
  apply Hgen; [apply well_formed_new |].
  destruct options; unfold unsettled; cbn;
    (repeat split; [constructor | intros ? ? [] | intros ? ? ? []]).
Qed.

End Unsettled.

End SdkFacts.

(* ================================================================== *)
(** ** Facts about raw commands *)
(* ================================================================== *)

Module RawCommandFacts.

Import Sdk RawCommand.

(** [sendRaw] leaves the pending map and the counter of the client as
    they are. *)
Lemma sendRaw_leaves_client clock random svcHi svcLo payload wait rw :
  let rw' := snd (sendRaw clock random svcHi svcLo payload wait rw) in
  pending (this (base rw')) = pending (this (base rw))
  /\ idCounter (this (base rw')) = idCounter (this (base rw)).
Proof.
  unfold sendRaw. cbn [new_promise].
  destruct (ws _); [destruct (option_map _ _) as [[| | |] |] |]; cbn; auto.
Qed.

(** Two raw commands sent in the same millisecond with the same random
    number have the same id.  Neither fails: both listeners are added,
    both promises are pending, and the one answer of the bridge resolves
    the two of them. *)
Example sendRaw_twice_same_id :
  let hi := JNumber (S754_finite false 1 7) in      (* 0x80 *)
  let lo := JNumber (S754_finite false 1 5) in      (* 0x20 *)
  let hex := JString "080c10015a040a020800" in
  let wait := JNumber (S754_finite false 3 (-1)) in (* 1.5 *)
  let start := mkRawWorld Samples.connected [] in
  let rw1 := snd (sendRaw 1770000000000 "0.25" hi lo hex wait start) in
  let rw2 := snd (sendRaw 1770000000000 "0.25" hi lo hex wait rw1) in
  let rw3 := raw_message Samples.parse 0 Samples.raw_reply_text rw2 in
  raw_listeners rw2
  = [mkRawListener 0 "17700000000000.25" 1; mkRawListener 0 "17700000000000.25" 2]
  /\ promises (base rw2) = [Fulfilled None; Pending; Pending]
  /\ raw_listeners rw3 = []
  /\ promises (base rw3)
     = [Fulfilled None;
        Fulfilled (Some (JArray [JString "aa21"]));
        Fulfilled (Some (JArray [JString "aa21"]))]
  /\ pending (this (base rw3)) = [].
Proof. repeat split; reflexivity. Qed.

End RawCommandFacts.

(* ================================================================== *)
(** ** Facts about the frame codec and the reassembler *)
(* ================================================================== *)

Module CodecFacts.

Import Codec.

(** *** Chunks *)

Lemma chunks_concat fuel size :
  forall data, (1 <= size)%nat -> (List.length data <= fuel)%nat ->
               List.concat (chunks fuel size data) = data.
Proof.
  induction fuel as [| fuel IH]; intros data Hsize Hfuel.
  - destruct data; [reflexivity | cbn in Hfuel; lia].
  - destruct data as [| x data]; [reflexivity |].
    cbn [chunks List.concat]. rewrite IH.
    + apply firstn_skipn.
    + exact Hsize.
    + rewrite length_skipn. cbn [List.length] in *. lia.
Qed.

Lemma chunks_sizes fuel size :
  forall data, (1 <= size)%nat ->
               Forall (fun c => (1 <= List.length c <= size)%nat) (chunks fuel size data).
Proof.
  induction fuel as [| fuel IH]; intros data Hsize.
  - destruct data; constructor.
  - destruct data as [| x data]; [constructor |].
    cbn [chunks]. constructor; [| now apply IH].
    rewrite length_firstn. cbn [List.length]. lia.
Qed.

Lemma ceil_div_small a b : 0 < a <= b -> ceil_div a b = 1.
Proof.
  intros H. unfold ceil_div.
  replace (a + b - 1) with (1 * b + (a - 1)) by lia.
  rewrite Z.div_add_l by lia. rewrite Z.div_small; lia.
Qed.

Lemma ceil_div_step a b : 0 < b -> 0 <= a -> ceil_div (a + b) b = 1 + ceil_div a b.
Proof.
  intros Hb Ha. unfold ceil_div.
  replace (a + b + b - 1) with (1 * b + (a + b - 1)) by lia.
  rewrite Z.div_add_l by lia. reflexivity.
Qed.

Lemma ceil_div_zero b : 0 < b -> ceil_div 0 b = 0.
Proof.
  intros Hb. unfold ceil_div. apply Z.div_small. lia.
Qed.

(** The number of chunks is [ceil(len / size)]. *)
Lemma chunks_count fuel size :
  forall data, (1 <= size)%nat -> (List.length data <= fuel)%nat ->
               Z.of_nat (List.length (chunks fuel size data))
               = ceil_div (Z.of_nat (List.length data)) (Z.of_nat size).
Proof.
  induction fuel as [| fuel IH]; intros data Hsize Hfuel.
  - destruct data; [| cbn in Hfuel; lia]. cbn. now rewrite ceil_div_zero by lia.
  - destruct data as [| x data]; [cbn; now rewrite ceil_div_zero by lia |].
    cbn [chunks List.length]. rewrite Nat2Z.inj_succ, IH.
    + rewrite length_skipn.
      destruct (Nat.le_gt_cases (List.length (x :: data)) size) as [Hle | Hgt].
      * replace (List.length (x :: data) - size)%nat with 0%nat by lia.
        rewrite ceil_div_zero by lia.
        rewrite ceil_div_small; [reflexivity |]. cbn [List.length] in *. lia.
      * replace (Z.of_nat (S (List.length data)))
          with (Z.of_nat (List.length (x :: data) - size) + Z.of_nat size)
          by (cbn [List.length] in *; lia).
        rewrite ceil_div_step by lia. lia.
    + exact Hsize.
    + rewrite length_skipn. cbn [List.length] in *. lia.
Qed.

Section Roundtrip.

Variable checksum_of : list Z -> Z.
Variable message_id_of : list Z -> Z.
Variables min_frame_length max_frame_length : Z.

Abbreviation decode := (decode checksum_of min_frame_length max_frame_length).
Abbreviation feed := (feed message_id_of).
Abbreviation assemble_all :=
  (assemble_all checksum_of message_id_of min_frame_length max_frame_length).
Abbreviation frames_from := (frames_from checksum_of).

Variable max_fragment_payload : Z.
Hypothesis max_positive : 1 <= max_fragment_payload.
Hypothesis short_frames_pass : min_frame_length <= 8.
Hypothesis long_frames_pass : 7 + max_fragment_payload <= max_frame_length.

Abbreviation chunk_ok := (Codec.chunk_ok max_fragment_payload).

(** A frame made by [encode] with an index and a total in range passes
    the checks of [decode]. *)
Lemma decode_encoded index total seq svc c :
  chunk_ok c -> 1 <= total <= 20 -> 1 <= index <= total ->
  let f := mkFrame (u8 seq) index total svc c
                   (u16 (checksum_of (covered (u8 seq) index total svc c))) in
  decode f = inl f.
Proof.
  intros (Hc1 & Hc2) Htotal Hindex f. subst f. unfold Codec.decode, frame_length.
  cbn [sequence fragment_index fragment_total service payload checksum].
  replace (min_frame_length <=? 5 + Z.of_nat (List.length c) + 2) with true
    by (symmetry; apply Z.leb_le; lia).
  replace (5 + Z.of_nat (List.length c) + 2 <=? max_frame_length) with true
    by (symmetry; apply Z.leb_le; lia).
  replace (1 <=? total) with true by (symmetry; apply Z.leb_le; lia).
  replace (total <=? 20) with true by (symmetry; apply Z.leb_le; lia).
  replace (1 <=? index) with true by (symmetry; apply Z.leb_le; lia).
  replace (index <=? total) with true by (symmetry; apply Z.leb_le; lia).
  now rewrite Z.eqb_refl.
Qed.

Lemma u8_small x : 0 <= x < 256 -> u8 x = x.
Proof. intros H. unfold u8. now apply Z.mod_small. Qed.

(** A frame whose index is above those seen so far is new. *)
Lemma not_seen f (l : list Frame) :
  Forall (fun g => fragment_index g < fragment_index f) l ->
  existsb (frame_eqb f) l = false.
Proof.
  induction 1 as [| g l Hg Hl IH]; [reflexivity |].
  cbn [existsb]. rewrite IH, orb_false_r.
  unfold frame_eqb.
  replace (fragment_index f =? fragment_index g) with false
    by (symmetry; apply Z.eqb_neq; lia).
  now rewrite andb_false_r.
Qed.

(** Feeding the continuation fragments [index .. total] to an assembly
    that waits for fragment [index] completes the message. *)
Lemma assemble_continuation total svc :
  1 <= total <= 20 ->
  forall cs index seq r a,
    Forall chunk_ok cs -> cs <> [] ->
    2 <= index -> index + Z.of_nat (List.length cs) - 1 = total ->
    current r = Some a ->
    assembly_total a = total -> assembly_next a = index ->
    Forall (fun g => fragment_index g < index) (seen r) ->
    assemble_all (frames_from index total seq svc cs) r
    = [mkMessage (assembly_service a) (message_id_of (assembly_body a ++ List.concat cs))
                 (assembly_body a ++ List.concat cs)].
Proof.
  intros Htotal cs.
  induction cs as [| c rest IH];
    intros index seq r a Hcs Hne Hindex Hlast Hcur Hatot Hanext Hseen; [congruence |].
  apply Forall_cons_iff in Hcs. destruct Hcs as (Hc & Hrest).
  rewrite <- Hatot in *.
  cbn [Codec.frames_from Codec.assemble_all List.length] in *.
  replace (index =? 1) with false by (symmetry; apply Z.eqb_neq; lia).
  rewrite (u8_small index), (u8_small (assembly_total a)) by lia.
  rewrite (decode_encoded index (assembly_total a) seq None c) by (auto; lia).
  set (f := mkFrame (u8 seq) index (assembly_total a) None c
                    (u16 (checksum_of (covered (u8 seq) index (assembly_total a) None c)))).
  unfold Codec.feed.
  rewrite (not_seen f (seen r)) by exact Hseen.
  cbn [fragment_index fragment_total payload f].
  replace (index =? 1) with false by (symmetry; apply Z.eqb_neq; lia).
  rewrite Hcur, Hanext, !Z.eqb_refl. cbn [andb].
  destruct rest as [| c' rest'].
  - replace (index =? assembly_total a) with true
      by (symmetry; apply Z.eqb_eq; cbn [List.length] in Hlast; lia).
    cbn [Codec.frames_from Codec.assemble_all List.concat]. unfold finish.
    now rewrite app_nil_r.
  - replace (index =? assembly_total a) with false
      by (symmetry; apply Z.eqb_neq; cbn [List.length] in Hlast; lia).
    rewrite (IH (index + 1) (seq + 1) _
               (mkAssembly (assembly_service a) (assembly_total a) (index + 1)
                           (assembly_body a ++ c))); cbn; try reflexivity; try lia.
    + now rewrite <- app_assoc.
    + exact Hrest.
    + discriminate.
    + cbn [List.length] in Hlast. lia.
    + constructor; [cbn; lia |].
      eapply Forall_impl; [| exact Hseen]. cbn. intros g Hg. lia.
Qed.

(** The frames of a message go through the pipeline to one message with
    the body they were made from. *)
Lemma assemble_encoded total svc cs seq :
  1 <= total <= 20 ->
  Forall chunk_ok cs -> cs <> [] ->
  Z.of_nat (List.length cs) = total ->
  assemble_all (frames_from 1 total seq svc cs) fresh
  = [mkMessage svc (message_id_of (List.concat cs)) (List.concat cs)].
Proof.
  intros Htotal Hcs Hne Hlen.
  destruct cs as [| c rest]; [congruence |].
  inversion Hcs as [| ? ? Hc Hrest]; subst.
  cbn [Codec.frames_from Codec.assemble_all].
  change (1 =? 1) with true. cbv iota.
  rewrite (u8_small 1), (u8_small (Z.of_nat (List.length (c :: rest)))) by lia.
  rewrite (decode_encoded 1 _ seq (Some svc) c) by (auto; lia).
  unfold Codec.feed. cbn [seen fresh existsb fragment_index fragment_total service payload].
  change (1 =? 1) with true. cbv iota.
  destruct rest as [| c' rest'].
  - cbn. unfold finish. now rewrite app_nil_r.
  - replace (Z.of_nat (List.length (c :: c' :: rest')) =? 1) with false
      by (symmetry; apply Z.eqb_neq; cbn [List.length]; lia).
    rewrite (assemble_continuation (Z.of_nat (List.length (c :: c' :: rest'))) svc Htotal
               (c' :: rest') 2 (seq + 1) _
               (mkAssembly svc (Z.of_nat (List.length (c :: c' :: rest'))) 2 c));
      cbn [current seen assembly_service assembly_body assembly_total assembly_next List.concat];
      try reflexivity; try lia; try discriminate; try exact Hrest.
    + cbn [List.length]. lia.
    + constructor; [cbn; lia | constructor].
Qed.

Lemma length_frames_from cs :
  forall index total seq svc,
    List.length (frames_from index total seq svc cs) = List.length cs.
Proof.
  induction cs as [| c rest IH]; intros index total seq svc; cbn [Codec.frames_from List.length];
    [reflexivity | now rewrite IH].
Qed.

Lemma frames_from_fields cs :
  Forall chunk_ok cs ->
  forall index total seq svc,
    Forall (fun f => fragment_total f = u8 total
                     /\ Z.of_nat (List.length (payload f)) <= max_fragment_payload)
           (frames_from index total seq svc cs).
Proof.
  induction 1 as [| c rest Hc Hrest IH]; intros index total seq svc;
    cbn [Codec.frames_from]; constructor; [| apply IH].
  cbn. split; [reflexivity | apply Hc].
Qed.

(** C7, amended.  For a payload [P] that is not empty and a
    [max_fragment_payload >= 1] with [ceil(len(P) / max_fragment_payload)
    <= 20], frames of the lengths in question being within the bounds
    that [decode] checks: [encode] makes [ceil(len(P) /
    max_fragment_payload)] frames, each with that number as its
    [fragment_total] and with a payload of at most [max_fragment_payload]
    bytes, and the frames, decoded and fed to a fresh reassembler, give
    exactly one message, whose body is [P]. *)
Theorem roundtrip_within_limits svc data seq :
  data <> [] ->
  ceil_div (Z.of_nat (List.length data)) max_fragment_payload <= 20 ->
  let frames := encode checksum_of svc data max_fragment_payload seq in
  let total := ceil_div (Z.of_nat (List.length data)) max_fragment_payload in
  roundtrip checksum_of message_id_of min_frame_length max_frame_length
            svc data max_fragment_payload seq = [data]
  /\ Z.of_nat (List.length frames) = total
  /\ Forall (fun f => fragment_total f = total
                      /\ Z.of_nat (List.length (payload f)) <= max_fragment_payload)
            frames.
Proof.
  intros Hne Htotal frames total. subst frames.
  set (size := Z.to_nat max_fragment_payload).
  assert (Hsize : (1 <= size)%nat) by (subst size; lia).
  assert (Hsize' : Z.of_nat size = max_fragment_payload) by (subst size; lia).
  set (cs := chunks (List.length data) size data).
  assert (Hconcat : List.concat cs = data) by (apply chunks_concat; [exact Hsize | lia]).
  assert (Hcount : Z.of_nat (List.length cs) = total).
  { subst cs total. rewrite chunks_count by (auto; lia). now rewrite Hsize'. }
  assert (Hcs : Forall chunk_ok cs).
  { eapply Forall_impl; [| apply (chunks_sizes (List.length data) size data Hsize)].
    cbn. intros c Hc. split; lia. }
  assert (Hcs_ne : cs <> []).
  { intros Heq. rewrite Heq in Hconcat. cbn in Hconcat. congruence. }
  assert (Hrange : 1 <= total <= 20).
  { split; [| exact Htotal]. destruct cs; [congruence | cbn [List.length] in Hcount; lia]. }
  unfold roundtrip, encode. fold size. fold cs. fold total.
  repeat split.
  - rewrite (assemble_encoded total svc cs seq Hrange Hcs Hcs_ne Hcount).
    cbn. now rewrite Hconcat.
  - now rewrite length_frames_from.
  - eapply Forall_impl; [| apply (frames_from_fields cs Hcs)].
    cbn. intros f (Hf & Hlen). rewrite Hf. split; [apply u8_small; lia | exact Hlen].
Qed.

End Roundtrip.

Lemma roundtrip_within_limits_witness :
  roundtrip Samples.byte_sum (fun _ => 20) 8 207 (10, 32) [1; 2; 3; 4; 5; 6; 7] 3 254
  = [[1; 2; 3; 4; 5; 6; 7]].
Proof.
  apply (roundtrip_within_limits Samples.byte_sum (fun _ => 20) 8 207 3
           ltac:(lia) ltac:(lia) ltac:(lia) (10, 32) [1; 2; 3; 4; 5; 6; 7] 254).
  - discriminate.
  - vm_compute. discriminate.
Defined.

(** C7 as stated does not hold: a payload of 21 bytes sent with
    [max_fragment_payload = 1] makes 21 frames, each with
    [fragment_total = 21]; [decode] refuses a total above 20, every frame
    is dropped, and no message comes out. *)
Lemma twenty_one_fragments_are_dropped :
  let data := repeat 7 21 in
  let frames := encode Samples.byte_sum (10, 32) data 1 0 in
  List.length frames = 21%nat
  /\ Forall (fun f => fragment_total f = 21
                      /\ decode Samples.byte_sum 8 207 f = inr SequenceOutOfRange) frames
  /\ roundtrip Samples.byte_sum (fun _ => 20) 8 207 (10, 32) data 1 0 = []
  /\ roundtrip Samples.byte_sum (fun _ => 20) 8 207 (10, 32) data 1 0 <> [data].
Proof.
  cbv zeta.
  assert (Hnone : roundtrip Samples.byte_sum (fun _ => 20) 8 207 (10, 32) (repeat 7 21) 1 0 = [])
    by (vm_compute; reflexivity).
  split; [vm_compute; reflexivity |].
  split; [| split; [exact Hnone | rewrite Hnone; discriminate]].
  set (frames := encode Samples.byte_sum (10, 32) (repeat 7 21) 1 0).
  vm_compute in frames. subst frames.
  repeat (constructor; [split; vm_compute; reflexivity |]). constructor.
Qed.

End CodecFacts.


(* ================================================================== *)
(** ** Facts about payloads *)
(* ================================================================== *)

Module PayloadFacts.

Import JS JSFacts DeviceInfo DeviceInfoFacts Payload.

(** The tag of a field below 32 is one byte, and the parser splits it
    back into field number and wire type. *)
Lemma tag_byte f wt :
  0 <= f < 32 -> 0 <= wt < 8 ->
  JS.or (JS.shl f 3) wt = tag f wt
  /\ JS.sar (tag f wt) 3 = f /\ JS.and (tag f wt) 7 = wt /\ 0 <= tag f wt < 256.
Proof.
  intros Hf Hw. unfold tag.
  pose (P := fun t => (JS.or (JS.shl (t / 8) 3) (t mod 8) =? t)
                 && (JS.sar t 3 =? t / 8) && (JS.and t 7 =? t mod 8)).
  assert (Ht : 0 <= 8 * f + wt < Z.of_nat 256) by lia.
  assert (H : P (8 * f + wt) = true) by by_range P 256%nat Ht.
  unfold P in H. rewrite !andb_true_iff, !Z.eqb_eq in H.
  replace ((8 * f + wt) / 8) with f in H
    by (apply (Z.div_unique (8 * f + wt) 8 f wt); lia).
  replace ((8 * f + wt) mod 8) with wt in H
    by (apply (Z.mod_unique (8 * f + wt) 8 f wt); lia).
  intuition lia.
Qed.

Lemma length_app_cons (pre : Buffer) b rest :
  JS.length (pre ++ [b]) = JS.length pre + 1
  /\ JS.length pre < JS.length (pre ++ b :: rest).
Proof.
  unfold JS.length. rewrite !length_app. cbn [List.length]. lia.
Qed.

(** [read_encoded] up to the sign bit: the encoding of a value below
    [2^(31 - shift)] is read back, whatever follows it. *)
Lemma read_encoded_wide fe :
  forall v fr pre post acc shift,
    (1 <= fe)%nat ->
    0 <= v < 2 ^ (7 * Z.of_nat fe) ->
    0 <= shift <= 31 -> v < 2 ^ (31 - shift) ->
    0 <= acc < 2 ^ shift ->
    (List.length (encodeVarint_loop fe v) <= fr)%nat ->
    readVarint fr (pre ++ encodeVarint_loop fe v ++ post) (JS.length pre) acc shift
    = (acc + v * 2 ^ shift,
       JS.length pre + JS.length (encodeVarint_loop fe v)).
Proof.
  induction fe as [| fe IH]; intros v fr pre post acc shift Hfe Hv Hs Hroom Hacc Hfr;
    [lia |].
  cbn [encodeVarint_loop] in *.
  set (P := 2 ^ (31 - shift)) in *.
  set (Q := 2 ^ shift) in *.
  assert (HPQ : P * Q = 2^31).
  { unfold P, Q. rewrite <- Z.pow_add_r by lia. f_equal. lia. }
  assert (HQ : 0 < Q) by (apply Z.pow_pos_nonneg; lia).
  assert (HP : 0 < P) by (apply Z.pow_pos_nonneg; lia).
  assert (Hv31 : 0 <= v < 2^31) by nia.
  assert (Htop : acc + v * Q < 2^31) by nia.
  assert (Hpos : forall b rest, (JS.length pre <? JS.length (pre ++ b :: rest)) = true).
  { intros b rest. apply Z.ltb_lt. apply length_app_cons. }
  destruct (v >? 127) eqn:Hgt.
  - (* a continuation byte, then the rest *)
    apply Z.gtb_lt in Hgt.
    destruct fe as [| fe']; [cbn in Hv; lia |].
    rewrite pow7_succ in Hv.
    assert (Hshift : shift + 7 <= 31).
    { destruct (Z.le_gt_cases (shift + 7) 31) as [Hle | Hlt]; [exact Hle |].
      assert (P <= 2^6) by (apply Z.pow_le_mono_r; lia).
      change (2^6) with 64 in *. lia. }
    assert (HP7 : P = 128 * 2 ^ (31 - (shift + 7))).
    { unfold P. change 128 with (2^7). rewrite <- Z.pow_add_r by lia. f_equal. lia. }
    assert (HQ7 : 2 ^ (shift + 7) = 128 * Q).
    { unfold Q. rewrite Z.pow_add_r by lia. change (2^7) with 128. lia. }
    assert (Hlow : 0 <= v mod 128 < 128) by (apply Z.mod_pos_bound; lia).
    pose proof (Z.div_mod v 128 ltac:(lia)) as Hdm.
    assert (Hdiv : 0 <= v / 128) by (apply Z.div_pos; lia).
    destruct (low7_of_continuation (v mod 128) Hlow) as (Hor & Hand127 & Hand128 & _ & _).
    rewrite (and_127 v Hv31) in *. rewrite Hor in *.
    destruct fr as [| fr]; [cbn in Hfr; lia |].
    cbn [readVarint app]. rewrite (Hpos _ _).
    rewrite index_app_here. cbn [operand].
    rewrite Hand127, Hand128. cbn [Z.eqb].
    rewrite (shl_small (v mod 128) shift) by (fold Q; nia).
    rewrite (or_disjoint acc (v mod 128) shift) by (fold Q; nia).
    rewrite (sar_7 v Hv31) in *.
    replace (pre ++ (v mod 128 + 128) :: encodeVarint_loop (S fe') (v / 128) ++ post)
      with ((pre ++ [v mod 128 + 128]) ++ encodeVarint_loop (S fe') (v / 128) ++ post)
      by (now rewrite <- app_assoc).
    replace (JS.length pre + 1) with (JS.length (pre ++ [v mod 128 + 128]))
      by (apply length_app_cons; exact []).
    assert (H1 : 0 <= v / 128 < 2 ^ (7 * Z.of_nat (S fe')))
      by (split; [exact Hdiv | apply Z.div_lt_upper_bound; lia]).
    assert (H2 : 0 <= shift + 7 <= 31) by lia.
    assert (H3 : v / 128 < 2 ^ (31 - (shift + 7)))
      by (apply Z.div_lt_upper_bound; lia).
    assert (H4 : 0 <= acc + v mod 128 * 2 ^ shift < 2 ^ (shift + 7))
      by (fold Q; rewrite HQ7; nia).
    assert (H5 : (List.length (encodeVarint_loop (S fe') (v / 128)) <= fr)%nat)
      by (cbn [List.length] in Hfr; lia).
    rewrite (IH (v / 128) fr _ post _ _ ltac:(lia) H1 H2 H3 H4 H5).
    f_equal.
    + fold Q. rewrite HQ7. nia.
    + destruct (length_app_cons pre (v mod 128 + 128) []) as [-> _].
      unfold JS.length. cbn [List.length]. lia.
  - (* the last byte *)
    assert (Hv128 : 0 <= v < 128) by (pose proof (Zgt_cases v 127); rewrite Hgt in *; lia).
    destruct (low7_of_continuation v Hv128) as (_ & _ & _ & Hand127 & Hand128).
    rewrite Hand127 in *.
    destruct fr as [| fr]; [cbn in Hfr; lia |].
    cbn [readVarint app]. rewrite (Hpos _ _).
    rewrite index_app_here. cbn [operand].
    rewrite Hand127, Hand128. cbn [Z.eqb].
    rewrite (shl_small v shift) by (fold Q; nia).
    rewrite (or_disjoint acc v shift) by (fold Q; nia).
    reflexivity.
Qed.

Lemma subarray_after (pre tail : Buffer) n :
  0 <= n ->
  subarray (pre ++ tail) (JS.length pre) (JS.length pre + n)
  = firstn (Z.to_nat n) tail.
Proof.
  intros Hn. unfold subarray, clamp_index, JS.length.
  rewrite length_app.
  destruct (Z.of_nat (List.length pre) <? 0) eqn:H1; [apply Z.ltb_lt in H1; lia |].
  destruct (Z.of_nat (List.length pre) + n <? 0) eqn:H2; [apply Z.ltb_lt in H2; lia |].
  rewrite (Z.min_l (Z.of_nat (List.length pre))) by lia.
  rewrite Nat2Z.id, skipn_app, skipn_all, Nat.sub_diag. cbn [skipn app].
  destruct (Z.le_gt_cases n (Z.of_nat (List.length tail))).
  - rewrite Z.min_l by lia. f_equal. lia.
  - rewrite Z.min_r by lia. rewrite !firstn_all2; try reflexivity; lia.
Qed.

(** A round of the main loop that starts on the tag [t]. *)
Lemma iteration_at (pre : Buffer) t rest :
  iteration (pre ++ t :: rest) (JS.length pre) =
  let bytes := pre ++ t :: rest in
  let pos := JS.length pre + 1 in
  if JS.and t 7 =? 0 then
    let '(value, pos) := readVarint (S (List.length bytes)) bytes pos 0 0 in
    Continue pos (Varint (JS.sar t 3) value)
  else if JS.and t 7 =? 2 then
    let '(len, pos) := readVarint (S (List.length bytes)) bytes pos 0 0 in
    let data := subarray bytes pos (pos + len) in
    Continue (pos + len) (Bytes (JS.sar t 3) (to_hex data) (printable_string data) len)
  else if JS.and t 7 =? 5 then
    match readLE 4 bytes pos with
    | Some value => Continue (pos + 4) (Fixed32 (JS.sar t 3) value)
    | None => Raise
    end
  else if JS.and t 7 =? 1 then
    match readLE 8 bytes pos with
    | Some value => Continue (pos + 8) (Fixed64 (JS.sar t 3) (toString10 value))
    | None => Raise
    end
  else Break.
Proof.
  unfold iteration.
  destruct (JS.length pre >=? JS.length (pre ++ t :: rest)) eqn:Hge.
  { apply Z.geb_le in Hge. pose proof (length_app_cons pre t rest). lia. }
  rewrite index_app_here. reflexivity.
Qed.

(** The encoding of a number below 2^31, read from right after a tag. *)
Lemma read_after_tag (pre : Buffer) t n tail :
  0 <= n < 2^31 ->
  readVarint (S (List.length (pre ++ t :: encodeVarint n ++ tail)))
             (pre ++ t :: encodeVarint n ++ tail) (JS.length pre + 1) 0 0
  = (n, JS.length pre + 1 + JS.length (encodeVarint n)).
Proof.
  intros Hn.
  replace (pre ++ t :: encodeVarint n ++ tail)
    with ((pre ++ [t]) ++ encodeVarint n ++ tail) by (now rewrite <- app_assoc).
  destruct (length_app_cons pre t []) as [<- _].
  unfold encodeVarint.
  rewrite (read_encoded_wide 6 n).
  - f_equal. change (2 ^ 0) with 1. lia.
  - lia.
  - change (2 ^ (7 * Z.of_nat 6)) with (2^42). lia.
  - lia.
  - change (2 ^ (31 - 0)) with (2^31). lia.
  - change (2 ^ 0) with 1. lia.
  - rewrite !length_app. lia.
Qed.

(** The round that reads a varint field. *)
Lemma iteration_varint_field (pre : Buffer) f v tail :
  0 <= f < 32 -> 0 <= v < 2^31 ->
  iteration (pre ++ tag f 0 :: encodeVarint v ++ tail) (JS.length pre)
  = Continue (JS.length pre + 1 + JS.length (encodeVarint v)) (Varint f v).
Proof.
  intros Hf Hv.
  destruct (tag_byte f 0) as (_ & Hnum & Hwire & _); [lia | lia |].
  rewrite iteration_at. cbv zeta.
  rewrite Hnum, Hwire. change (0 =? 0) with true. cbv iota.
  now rewrite read_after_tag.
Qed.

(** The round that reads a length-delimited field whose declared length
    is [n]: the data are the bytes that the buffer has, up to [n] of
    them. *)
Lemma iteration_bytes_field (pre : Buffer) f n tail :
  0 <= f < 32 -> 0 <= n < 2^31 ->
  iteration (pre ++ tag f 2 :: encodeVarint n ++ tail) (JS.length pre)
  = Continue (JS.length pre + 1 + JS.length (encodeVarint n) + n)
             (Bytes f (to_hex (firstn (Z.to_nat n) tail))
                    (printable_string (firstn (Z.to_nat n) tail)) n).
Proof.
  intros Hf Hn.
  destruct (tag_byte f 2) as (_ & Hnum & Hwire & _); [lia | lia |].
  rewrite iteration_at. cbv zeta.
  rewrite Hnum, Hwire. change (2 =? 0) with false. change (2 =? 2) with true. cbv iota.
  rewrite read_after_tag by exact Hn.
  replace (pre ++ tag f 2 :: encodeVarint n ++ tail)
    with ((pre ++ tag f 2 :: encodeVarint n) ++ tail)
    by (rewrite <- app_assoc; reflexivity).
  replace (JS.length pre + 1 + JS.length (encodeVarint n))
    with (JS.length (pre ++ tag f 2 :: encodeVarint n))
    by (unfold JS.length; rewrite length_app; cbn [List.length]; lia).
  rewrite subarray_after by lia. reflexivity.
Qed.

Lemma firstn_length_app {A} (l l' : list A) :
  firstn (Z.to_nat (Z.of_nat (List.length l))) (l ++ l') = l.
Proof.
  rewrite Nat2Z.id, firstn_app, firstn_all, Nat.sub_diag. cbn [firstn].
  apply app_nil_r.
Qed.

(** The round that reads one part of a payload. *)
Lemma iteration_part p (pre post : Buffer) :
  part_ok p ->
  iteration (pre ++ part_bytes p ++ post) (JS.length pre)
  = Continue (JS.length pre + JS.length (part_bytes p)) (record_of p).
Proof.
  destruct p as [f v | f data]; cbn [part_ok part_bytes record_of].
  - intros (Hf & Hv). unfold pbVarint.
    destruct (tag_byte f 0) as (-> & _); [lia | lia |].
    cbn [app]. rewrite iteration_varint_field by assumption.
    f_equal. unfold JS.length. cbn [List.length]. lia.
  - intros (Hf & Hdata & Hlen). unfold pbBytes.
    destruct (tag_byte f 2) as (-> & _); [lia | lia |].
    assert (Hn : 0 <= JS.length data < 2^31) by (unfold JS.length in *; lia).
    cbn [app]. rewrite <- app_assoc.
    rewrite iteration_bytes_field by assumption.
    replace (firstn (Z.to_nat (JS.length data)) (data ++ post)) with data
      by (symmetry; apply firstn_length_app).
    f_equal. unfold JS.length. cbn [List.length]. rewrite !length_app. lia.
Qed.

Lemma part_bytes_ok p : part_ok p -> Forall byte (part_bytes p) /\ part_bytes p <> [].
Proof.
  destruct p as [f v | f data]; cbn [part_ok part_bytes].
  - intros (Hf & Hv). unfold pbVarint.
    destruct (tag_byte f 0) as (-> & _ & _ & Ht); [lia | lia |].
    split; [| discriminate].
    constructor; [exact Ht | apply encodeVarint_loop_bytes].
  - intros (Hf & Hdata & Hlen). unfold pbBytes.
    destruct (tag_byte f 2) as (-> & _ & _ & Ht); [lia | lia |].
    split; [| discriminate].
    constructor; [exact Ht |].
    apply Forall_app. split; [apply encodeVarint_loop_bytes | exact Hdata].
Qed.

Lemma payload_bytes parts : Forall part_ok parts -> Forall byte (payload parts).
Proof.
  induction 1 as [| p rest Hp _ IH]; cbn [payload flat_map]; [constructor |].
  apply Forall_app. split; [apply part_bytes_ok, Hp | exact IH].
Qed.

(** The main loop on a payload that sits in a buffer: one round for
    each part. *)
Lemma parse_loop_payload parts :
  forall (pre post : Buffer) fields fuel,
    Forall part_ok parts ->
    parse_loop (List.length parts + fuel) (pre ++ payload parts ++ post)
               (JS.length pre) fields
    = parse_loop fuel (pre ++ payload parts ++ post)
                 (JS.length pre + JS.length (payload parts))
                 (fields ++ map record_of parts).
Proof.
  induction parts as [| p rest IH]; intros pre post fields fuel Hok.
  - cbn [payload flat_map map List.length Nat.add app].
    rewrite app_nil_r. f_equal. unfold JS.length. cbn [List.length]. lia.
  - apply Forall_cons_iff in Hok. destruct Hok as [Hp Hrest].
    destruct (part_bytes_ok p Hp) as [_ Hne].
    cbn [payload flat_map map List.length Nat.add]. fold (payload rest).
    rewrite parse_loop_S.
    rewrite <- (app_assoc (part_bytes p)).
    rewrite (iteration_part p pre (payload rest ++ post) Hp).
    replace (JS.length pre <? JS.length (pre ++ part_bytes p ++ payload rest ++ post))
      with true.
    2:{ symmetry. apply Z.ltb_lt. unfold JS.length. rewrite !length_app.
        destruct (part_bytes p); [congruence | cbn [List.length]; lia]. }
    replace (pre ++ part_bytes p ++ payload rest ++ post)
      with ((pre ++ part_bytes p) ++ payload rest ++ post)
      by (now rewrite <- app_assoc).
    replace (JS.length pre + JS.length (part_bytes p))
      with (JS.length (pre ++ part_bytes p))
      by (unfold JS.length; rewrite length_app; lia).
    rewrite (IH _ post _ fuel Hrest).
    f_equal.
    + unfold JS.length. rewrite !length_app. lia.
    + now rewrite <- app_assoc.
Qed.

(** A payload alone in its buffer. *)
Lemma parse_payload parts fuel :
  Forall part_ok parts -> (List.length parts < fuel)%nat ->
  parse_loop fuel (payload parts) 0 [] = Some (Return (map record_of parts)).
Proof.
  intros Hok Hfuel.
  replace fuel with (List.length parts + S (fuel - S (List.length parts)))%nat by lia.
  pose proof (parse_loop_payload parts [] [] [] (S (fuel - S (List.length parts))) Hok) as H.
  rewrite app_nil_r in H. cbn [app] in H.
  change (JS.length []) with 0 in H.
  rewrite H, parse_loop_S, Z.ltb_irrefl. reflexivity.
Qed.

(** The two hexadecimal printers agree on bytes. *)
Lemma toHex_to_hex bytes : Forall byte bytes -> toHex bytes = to_hex bytes.
Proof.
  unfold toHex.
  induction 1 as [| b rest Hb Hrest IH]; [reflexivity |].
  cbn [map String.concat to_hex].
  rewrite (byte_text b Hb).
  destruct rest as [| b' rest'].
  - reflexivity.
  - cbn [map] in *. cbn [String.append]. now rewrite IH.
Qed.

(** *** Payloads, written and read back *)

(** X1.  A payload spread from calls of [pbVarint] and [pbBytes] is read
    back by [parseProtobuf] part by part: one record for each call, in
    the order of the calls, a varint field with its value and a
    length-delimited field with the hexadecimal text, the printable
    text and the length of its data.  One round of the main loop for
    each part and one to see the end of the buffer are enough. *)
Theorem payload_parse_roundtrip (parts : list Part) (fuel : nat) :
  Forall part_ok parts -> (List.length parts < fuel)%nat ->
  parseProtobuf fuel (toHex (payload parts)) = Some (Return (map record_of parts)).
Proof.
  intros Hok Hfuel. unfold parseProtobuf.
  rewrite from_hex_toHex by (apply payload_bytes, Hok).
  now apply parse_payload.
Qed.

Lemma payload_parse_roundtrip_witness :
  let parts := [PVarint 1 12; PVarint 2 1852516352;
                PBytes 31 [72; 105]; PBytes 11 (pbBytes 1 (pbVarint 1 0))] in
  parseProtobuf 5 (toHex (payload parts))
  = Some (Return [Varint 1 12; Varint 2 1852516352;
                  Bytes 31 "4869" (Some "Hi") 2; Bytes 11 "0a020800" None 4]).
Proof.
  apply (payload_parse_roundtrip
           [PVarint 1 12; PVarint 2 1852516352;
            PBytes 31 [72; 105]; PBytes 11 (pbBytes 1 (pbVarint 1 0))] 5).
  - repeat constructor; unfold byte; cbn; lia.
  - cbn. lia.
Defined.

(** X2.  What [printResponse] does with a length-delimited field: the
    hexadecimal text of the record is parsed again.  When the data of
    the field are themselves a payload, the first pass returns one
    record whose length is the length of the inner payload, and the
    second pass, on the [hex] member of that record, returns the
    records of the inner parts. *)
Theorem nested_payload_parse (f : Z) (inner : list Part) (fuel fuel' : nat) :
  0 <= f < 32 -> Forall part_ok inner -> JS.length (payload inner) < 2^31 ->
  (2 <= fuel)%nat -> (List.length inner < fuel')%nat ->
  exists hex str,
    parseProtobuf fuel (toHex (pbBytes f (payload inner)))
    = Some (Return [Bytes f hex str (JS.length (payload inner))])
    /\ parseProtobuf fuel' hex = Some (Return (map record_of inner)).
Proof.
  intros Hf Hok Hlen Hfuel Hfuel'.
  pose proof (payload_bytes inner Hok) as Hbytes.
  exists (to_hex (payload inner)), (printable_string (payload inner)).
  split.
  - assert (Hpart : Forall part_ok [PBytes f (payload inner)])
      by (repeat constructor; [lia | lia | exact Hbytes | exact Hlen]).
    unfold parseProtobuf.
    replace (pbBytes f (payload inner)) with (payload [PBytes f (payload inner)])
      by (cbn [payload flat_map part_bytes]; apply app_nil_r).
    rewrite from_hex_toHex by (apply payload_bytes, Hpart).
    now rewrite (parse_payload _ fuel Hpart) by (cbn [List.length]; lia).
  - unfold parseProtobuf.
    rewrite <- toHex_to_hex by exact Hbytes.
    rewrite from_hex_toHex by exact Hbytes.
    now apply parse_payload.
Qed.

Lemma nested_payload_parse_witness :
  exists hex str,
    parseProtobuf 2 (toHex (pbBytes 11 (payload [PBytes 1 (pbVarint 1 0)])))
    = Some (Return [Bytes 11 hex str (JS.length (payload [PBytes 1 (pbVarint 1 0)]))])
    /\ parseProtobuf 2 hex
       = Some (Return (map record_of [PBytes 1 (pbVarint 1 0)])).
Proof.
  apply (nested_payload_parse 11 [PBytes 1 (pbVarint 1 0)] 2 2).
  - lia.
  - repeat constructor; unfold byte; cbn; lia.
  - cbn. lia.
  - lia.
  - cbn. lia.
Defined.

(** *** Hexadecimal text *)

Lemma length_to_hex bytes : String.length (to_hex bytes) = (2 * List.length bytes)%nat.
Proof.
  induction bytes as [| b rest IH]; [reflexivity |].
  cbn [to_hex byte_hex String.append String.length List.length]. lia.
Qed.

(** X3.  [toHex] and [Buffer.from(_, "hex")] are inverse to each other on
    bytes: the text has two digits for each byte, the buffer made from
    it holds the bytes, and printing that buffer with
    [toString("hex")] gives the text again. *)
Theorem hex_text_roundtrip (bytes : list Z) :
  Forall byte bytes ->
  from_hex (toHex bytes) = bytes
  /\ to_hex (from_hex (toHex bytes)) = toHex bytes
  /\ String.length (toHex bytes) = (2 * List.length bytes)%nat.
Proof.
  intros Hbytes.
  rewrite (from_hex_toHex bytes Hbytes), (toHex_to_hex bytes Hbytes).
  repeat split. apply length_to_hex.
Qed.

Lemma hex_text_roundtrip_witness :
  from_hex (toHex [0; 10; 170; 255]) = [0; 10; 170; 255]
  /\ to_hex (from_hex (toHex [0; 10; 170; 255])) = toHex [0; 10; 170; 255]
  /\ String.length (toHex [0; 10; 170; 255]) = (2 * 4)%nat.
Proof.
  apply (hex_text_roundtrip [0; 10; 170; 255]).
  repeat constructor; unfold byte; lia.
Defined.

(** *** The shape of a varint *)

Lemma encodeVarint_loop_shape n :
  forall x, (1 <= n)%nat -> 7 * Z.of_nat n <= 28 ->
    - 2^31 <= x < 2 ^ (7 * Z.of_nat n) ->
    (1 <= List.length (encodeVarint_loop n x) <= n)%nat
    /\ Forall (fun b => 128 <= b < 256) (removelast (encodeVarint_loop n x))
    /\ 0 <= last (encodeVarint_loop n x) 0 < 128.
Proof.
  induction n as [| n IH]; intros x Hn Hbits Hx; [lia |].
  cbn [encodeVarint_loop].
  pose proof (and_127_range x) as Hlow.
  destruct (x >? 127) eqn:Hgt.
  - apply Z.gtb_lt in Hgt.
    rewrite pow7_succ in Hx.
    destruct n as [| n']; [cbn in Hx; lia |].
    assert (Hx31 : 0 <= x < 2^31).
    { split; [lia |].
      apply Z.lt_le_trans with (2 ^ (7 * Z.of_nat (S (S n')))); [rewrite pow7_succ; lia |].
      apply Z.pow_le_mono_r; lia. }
    rewrite (sar_7 x Hx31).
    destruct (IH (x / 128)) as (Hlen & Hinit & Hlast); try lia.
    { split.
      - assert (0 <= x / 128) by (apply Z.div_pos; lia). lia.
      - apply Z.div_lt_upper_bound; lia. }
    destruct (low7_of_continuation _ Hlow) as (-> & _).
    destruct (encodeVarint_loop (S n') (x / 128)) as [| b rest] eqn:Hrest;
      [cbn [List.length] in Hlen; lia |].
    split; [cbn [List.length] in *; lia |].
    split.
    + change (removelast (JS.and x 127 + 128 :: b :: rest))
        with (JS.and x 127 + 128 :: removelast (b :: rest)).
      constructor; [lia | exact Hinit].
    + exact Hlast.
  - cbn [List.length removelast last].
    repeat split; try lia. constructor.
Qed.

(** X4.  Whatever the integer, [encodeVarint] returns between one and five
    bytes, of which the last has its top bit clear and all the others
    have it set: the loop always ends with a terminated varint. *)
Theorem encodeVarint_well_formed (value : Z) :
  (1 <= List.length (encodeVarint value) <= 5)%nat
  /\ Forall (fun b => 128 <= b < 256) (removelast (encodeVarint value))
  /\ 0 <= last (encodeVarint value) 0 < 128.
Proof.
  rewrite encodeVarint_unfold.
  pose proof (and_127_range value) as Hlow.
  destruct (value >? 127).
  - pose proof (sar_7_range value) as Hx.
    unfold encodeVarint.
    rewrite (encodeVarint_loop_stable 4 _ 6) by (change (7 * Z.of_nat 4) with 28; lia).
    destruct (encodeVarint_loop_shape 4 (JS.sar value 7)) as (Hlen & Hinit & Hlast);
      [lia | lia | change (7 * Z.of_nat 4) with 28; lia |].
    destruct (low7_of_continuation _ Hlow) as (-> & _).
    destruct (encodeVarint_loop 4 (JS.sar value 7)) as [| b rest];
      [cbn [List.length] in Hlen; lia |].
    split; [cbn [List.length] in *; lia |].
    split.
    + change (removelast (JS.and value 127 + 128 :: b :: rest))
        with (JS.and value 127 + 128 :: removelast (b :: rest)).
      constructor; [lia | exact Hinit].
    + exact Hlast.
  - cbn [List.length removelast last].
    repeat split; try lia. constructor.
Qed.

(** *** Numbers from 2^31 *)

Lemma to_int32_high v : 2^31 <= v < 2^32 -> to_int32 v = v - 2^32.
Proof.
  intros Hv. unfold to_int32.
  replace ((v + 2^31) mod 2^32) with (v - 2^31); [lia |].
  apply (Z.mod_unique (v + 2^31) (2^32) 1); lia.
Qed.

Lemma and_127_mod x : JS.and x 127 = to_int32 x mod 128.
Proof.
  unfold JS.and. change (to_int32 127) with (Z.ones 7).
  now rewrite Z.land_ones by lia.
Qed.

(** Two bytes of a varint, the first with its top bit set. *)
Lemma read_two_groups (pre : Buffer) a b tail fr :
  0 <= a < 128 -> 0 <= b < 128 ->
  readVarint (S (S fr)) (pre ++ (a + 128) :: b :: tail) (JS.length pre) 0 0
  = (a + 128 * b, JS.length pre + 2).
Proof.
  intros Ha Hb.
  destruct (low7_of_continuation a Ha) as (_ & Ha127 & Ha128 & _ & _).
  destruct (low7_of_continuation b Hb) as (_ & _ & _ & Hb127 & Hb128).
  cbn [readVarint].
  replace (JS.length pre <? JS.length (pre ++ a + 128 :: b :: tail)) with true
    by (symmetry; apply Z.ltb_lt, length_app_cons).
  rewrite index_app_here. cbn [operand].
  rewrite Ha127, Ha128. change (128 =? 0) with false. cbv iota.
  rewrite (shl_small a 0) by (change (2^0) with 1; lia).
  rewrite (or_disjoint 0 a 0) by (change (2^0) with 1; lia).
  change (2 ^ 0) with 1. rewrite Z.mul_1_r, Z.add_0_l.
  replace (pre ++ a + 128 :: b :: tail) with ((pre ++ [a + 128]) ++ b :: tail)
    by (now rewrite <- app_assoc).
  destruct (length_app_cons pre (a + 128) []) as [<- _].
  replace (JS.length (pre ++ [a + 128]) <? JS.length ((pre ++ [a + 128]) ++ b :: tail))
    with true by (symmetry; apply Z.ltb_lt, length_app_cons).
  rewrite index_app_here. cbn [operand].
  rewrite Hb127, Hb128. change (0 =? 0) with true. cbv iota.
  change (0 + 7) with 7.
  rewrite (shl_small b 7) by (change (2^7) with 128; lia).
  rewrite (or_disjoint a b 7) by (change (2^7) with 128; lia).
  change (2 ^ 7) with 128.
  f_equal; [lia |].
  destruct (length_app_cons pre (a + 128) []) as [-> _]. lia.
Qed.

(** X5.  [encodeVarint] works on 32-bit integers: a number from 2^31 up to
    2^32 - 1 becomes negative at the first [value >>= 7] and the loop
    stops there.  The encoding has two bytes, which hold the low
    fourteen bits of the number, and that is the value that
    [parseProtobuf] reads back from [pbVarint]. *)
Theorem pbVarint_from_2_31_keeps_14_bits (f v : Z) (fuel : nat) :
  0 <= f < 32 -> 2^31 <= v < 2^32 -> (2 <= fuel)%nat ->
  encodeVarint v = [v mod 128 + 128; (v / 128) mod 128]
  /\ parseProtobuf fuel (toHex (pbVarint f v)) = Some (Return [Varint f (v mod 2^14)])
  /\ v mod 2^14 <> v.
Proof.
  intros Hf Hv Hfuel.
  assert (Ha : 0 <= v mod 128 < 128) by (apply Z.mod_pos_bound; lia).
  assert (Hb : 0 <= (v / 128) mod 128 < 128) by (apply Z.mod_pos_bound; lia).
  assert (Henc : encodeVarint v = [v mod 128 + 128; (v / 128) mod 128]).
  { rewrite encodeVarint_unfold.
    replace (v >? 127) with true by (symmetry; apply Z.gtb_lt; lia).
    assert (Hlow : JS.and v 127 = v mod 128).
    { rewrite and_127_mod, (to_int32_high v Hv).
      replace (v - 2^32) with (v + (- 2^25) * 128) by lia.
      apply Z_mod_plus_full. }
    assert (Hsar : JS.sar v 7 = v / 128 - 2^25).
    { unfold JS.sar. change (7 mod 32) with 7.
      rewrite Z.shiftr_div_pow2 by lia. rewrite (to_int32_high v Hv).
      replace (v - 2^32) with (v + (- 2^25) * 2^7) by lia.
      rewrite Z.div_add by lia. change (2^7) with 128. lia. }
    assert (Hq : 2^24 <= v / 128 < 2^25).
    { split; [apply Z.div_le_lower_bound; lia | apply Z.div_lt_upper_bound; lia]. }
    rewrite Hlow, Hsar.
    destruct (low7_of_continuation _ Ha) as (-> & _).
    rewrite encodeVarint_unfold.
    replace (v / 128 - 2^25 >? 127) with false
      by (symmetry; rewrite Z.gtb_ltb; apply Z.ltb_ge; lia).
    rewrite and_127_mod, to_int32_small by lia.
    replace (v / 128 - 2^25) with (v / 128 + (- 2^18) * 128) by lia.
    now rewrite Z_mod_plus_full. }
  split; [exact Henc |].
  split.
  - destruct (tag_byte f 0) as (Htag & Hnum & Hwire & Ht); [lia | lia |].
    unfold parseProtobuf, pbVarint. rewrite Htag, Henc.
    rewrite from_hex_toHex by (repeat constructor; lia).
    destruct fuel as [| [| fuel]]; try lia.
    rewrite parse_loop_S.
    change (0 <? JS.length [tag f 0; v mod 128 + 128; (v / 128) mod 128]) with true.
    cbv iota.
    pose proof (iteration_at [] (tag f 0) [v mod 128 + 128; (v / 128) mod 128]) as Hit.
    cbn [app] in Hit. change (JS.length []) with 0 in Hit.
    rewrite Hit. cbv zeta.
    rewrite Hnum, Hwire. change (0 =? 0) with true. cbv iota.
    pose proof (read_two_groups [tag f 0] (v mod 128) ((v / 128) mod 128) [] 2 Ha Hb)
      as Hread.
    cbn [app] in Hread. change (JS.length [tag f 0]) with 1 in Hread.
    change (0 + 1) with 1.
    change (S (List.length [tag f 0; v mod 128 + 128; (v / 128) mod 128])) with 4%nat.
    rewrite Hread.
    rewrite parse_loop_S.
    change (1 + 2 <? JS.length [tag f 0; v mod 128 + 128; (v / 128) mod 128]) with false.
    cbv iota. cbn [app].
    change (2^14) with (128 * 128).
    now rewrite (Z.rem_mul_r v 128 128) by lia.
  - pose proof (Z.mod_pos_bound v (2^14)). lia.
Qed.

Lemma pbVarint_from_2_31_keeps_14_bits_witness :
  encodeVarint 4000000000 = [4000000000 mod 128 + 128; (4000000000 / 128) mod 128]
  /\ parseProtobuf 2 (toHex (pbVarint 2 4000000000))
     = Some (Return [Varint 2 (4000000000 mod 2^14)])
  /\ 4000000000 mod 2^14 <> 4000000000.
Proof.
  apply (pbVarint_from_2_31_keeps_14_bits 2 4000000000 2); lia.
Defined.

(** *** When the main loop ends *)

Lemma round_start_succ bytes k :
  forall start pos pos' f,
    round_start k bytes start = Some pos ->
    iteration bytes pos = Continue pos' f ->
    pos' < JS.length bytes ->
    round_start (S k) bytes start = Some pos'.
Proof.
  induction k as [| k IH]; intros start pos pos' f Hk Hit Hlt.
  - cbn [round_start] in *.
    destruct (start <? JS.length bytes); [| discriminate].
    injection Hk as ->. rewrite Hit.
    now replace (pos' <? JS.length bytes) with true by (symmetry; now apply Z.ltb_lt).
  - change (round_start (S k) bytes start)
      with (if start <? JS.length bytes
            then match iteration bytes start with
                 | Continue p _ => round_start k bytes p
                 | _ => None
                 end
            else None) in Hk.
    change (round_start (S (S k)) bytes start)
      with (if start <? JS.length bytes
            then match iteration bytes start with
                 | Continue p _ => round_start (S k) bytes p
                 | _ => None
                 end
            else None).
    destruct (start <? JS.length bytes); [| discriminate].
    destruct (iteration bytes start) as [p g | |]; try discriminate.
    now apply (IH p pos pos' f).
Qed.

Lemma parse_loop_progress bytes start :
  forall fuel k pos fields,
    (1 <= fuel)%nat -> 0 <= pos -> JS.length bytes - pos < Z.of_nat fuel ->
    (pos < JS.length bytes -> round_start k bytes start = Some pos) ->
    (exists c, parse_loop fuel bytes pos fields = Some c)
    \/ (exists k' pos0 pos' f data str len,
          (k <= k' < k + fuel)%nat
          /\ round_start k' bytes start = Some pos0
          /\ 0 <= pos0 < JS.length bytes
          /\ iteration bytes pos0 = Continue pos' (Bytes f data str len)
          /\ len < 0).
Proof.
  induction fuel as [| fuel IH]; intros k pos fields Hfuel Hpos Hroom Hround; [lia |].
  rewrite parse_loop_S.
  destruct (pos <? JS.length bytes) eqn:Hlt; [| left; eauto].
  apply Z.ltb_lt in Hlt. specialize (Hround Hlt).
  pose proof (iteration_forward bytes pos) as Hfw.
  destruct (iteration bytes pos) as [pos' f | |] eqn:Hit; [| left; eauto | left; eauto].
  assert (Hcases : pos < pos' \/ exists n data str len, f = Bytes n data str len /\ len < 0).
  { destruct f as [n v | n data str len | n v | n v]; try (left; exact Hfw).
    destruct Hfw as [Hfw | Hfw]; [left; exact Hfw |].
    right. exists n, data, str, len. split; [reflexivity | exact Hfw]. }
  destruct Hcases as [Hforward | (n & data & str & len & -> & Hneg)].
  - destruct (IH (S k) pos' (fields ++ [f])) as [Hends | Hneg]; try lia.
    + intros Hlt'. exact (round_start_succ bytes k start pos pos' f Hround Hit Hlt').
    + left. exact Hends.
    + right. destruct Hneg as (k' & pos0 & pos1 & n & data & str & len & Hk' & Hrest).
      exists k', pos0, pos1, n, data, str, len. split; [lia | exact Hrest].
  - right. exists k, pos, pos', n, data, str, len.
    repeat split; try lia; assumption.
Qed.

(** X6.  [parseProtobuf] returns, or throws, within as many rounds of its
    main loop as the buffer has bytes, and one more to see the end,
    unless one of those rounds of the call reads a length-delimited
    field whose length is negative: that is the only way for [pos] not
    to move forwards. *)
Theorem parseProtobuf_ends_unless_negative_length (hex : string) :
  let bytes := from_hex hex in
  (exists c, parseProtobuf (S (List.length bytes)) hex = Some c)
  \/ (exists k pos pos' f data str len,
        (k <= List.length bytes)%nat
        /\ round_start k bytes 0 = Some pos
        /\ 0 <= pos < JS.length bytes
        /\ iteration bytes pos = Continue pos' (Bytes f data str len)
        /\ len < 0).
Proof.
  cbv zeta. unfold parseProtobuf.
  destruct (parse_loop_progress (from_hex hex) 0 (S (List.length (from_hex hex))) 0 0 [])
    as [Hends | (k & pos & pos' & f & data & str & len & Hk & Hrest)].
  - lia.
  - lia.
  - unfold JS.length. lia.
  - intros Hlt. cbn [round_start].
    now replace (0 <? JS.length (from_hex hex)) with true by (symmetry; now apply Z.ltb_lt).
  - left. exact Hends.
  - right. exists k, pos, pos', f, data, str, len. split; [lia | exact Hrest].
Qed.

(** *** What follows a payload *)

Lemma parse_after_payload parts (post : Buffer) fuel :
  Forall part_ok parts ->
  parse_loop (List.length parts + fuel) (payload parts ++ post) 0 []
  = parse_loop fuel (payload parts ++ post) (JS.length (payload parts))
               (map record_of parts).
Proof.
  intros Hok.
  exact (parse_loop_payload parts [] post [] fuel Hok).
Qed.

Lemma tail_bytes parts t rest :
  Forall part_ok parts -> byte t -> Forall byte rest ->
  Forall (fun b => 0 <= b < 256) (payload parts ++ t :: rest).
Proof.
  intros Hok Ht Hrest. apply Forall_app. split.
  - apply payload_bytes, Hok.
  - constructor; assumption.
Qed.

(** X7.  A tag whose wire type is none of 0, 1, 2 and 5 ends the parse
    without an error: the records read so far are returned, and the
    tag and everything after it are left unread. *)
Theorem unknown_wire_type_ends_parse (parts : list Part) (f wt : Z)
        (rest : list Z) (fuel : nat) :
  Forall part_ok parts -> 0 <= f < 32 -> In wt [3; 4; 6; 7] ->
  Forall byte rest -> (List.length parts < fuel)%nat ->
  parseProtobuf fuel (toHex (payload parts ++ tag f wt :: rest))
  = Some (Return (map record_of parts)).
Proof.
  intros Hok Hf Hwt Hrest Hfuel.
  assert (Hw : 0 <= wt < 8) by (cbn [In] in Hwt; lia).
  destruct (tag_byte f wt) as (_ & Hnum & Hwire & Ht); [lia | lia |].
  unfold parseProtobuf.
  rewrite from_hex_toHex by (apply tail_bytes; assumption).
  replace fuel with (List.length parts + S (fuel - S (List.length parts)))%nat by lia.
  rewrite (parse_after_payload parts _ _ Hok), parse_loop_S.
  replace (JS.length (payload parts) <? JS.length (payload parts ++ tag f wt :: rest))
    with true by (symmetry; apply Z.ltb_lt, length_app_cons).
  rewrite iteration_at. cbv zeta. rewrite Hwire.
  destruct Hwt as [<- | [<- | [<- | [<- | []]]]]; reflexivity.
Qed.

Lemma unknown_wire_type_ends_parse_witness :
  parseProtobuf 2 (toHex (payload [PVarint 1 12] ++ tag 2 3 :: [8; 1]))
  = Some (Return (map record_of [PVarint 1 12])).
Proof.
  apply (unknown_wire_type_ends_parse [PVarint 1 12] 2 3 [8; 1] 2).
  - repeat constructor; lia.
  - lia.
  - cbn. tauto.
  - repeat constructor; unfold byte; lia.
  - cbn. lia.
Defined.

(** [readUInt32LE] and [readBigUInt64LE] right after a tag. *)
Lemma readLE_after (pre : Buffer) t word width :
  0 <= width ->
  readLE width (pre ++ t :: word) (JS.length pre + 1)
  = if width <=? JS.length word
    then Some (little_endian (firstn (Z.to_nat width) word))
    else None.
Proof.
  intros Hw. unfold readLE.
  replace (0 <=? JS.length pre + 1) with true
    by (symmetry; apply Z.leb_le; unfold JS.length; lia).
  cbn [andb].
  replace (JS.length pre + 1 + width <=? JS.length (pre ++ t :: word))
    with (width <=? JS.length word).
  2:{ unfold JS.length. rewrite length_app. cbn [List.length].
      destruct (Z.leb_spec width (Z.of_nat (List.length word)));
        symmetry; [apply Z.leb_le | apply Z.leb_gt]; lia. }
  destruct (width <=? JS.length word); [| reflexivity].
  replace (pre ++ t :: word) with ((pre ++ [t]) ++ word) by (now rewrite <- app_assoc).
  destruct (length_app_cons pre t []) as [<- _].
  unfold JS.length. rewrite Nat2Z.id, skipn_app, skipn_all, Nat.sub_diag.
  reflexivity.
Qed.

(** X8.  A fixed-width field that is cut short makes [parseProtobuf] throw:
    the [RangeError] of the read past the end escapes, and the records
    of the fields before it are not returned. *)
Theorem truncated_fixed_width_throws (parts : list Part) (f wt : Z)
        (word : list Z) (fuel : nat) :
  Forall part_ok parts -> 0 <= f < 32 ->
  (wt = 5 /\ JS.length word < 4) \/ (wt = 1 /\ JS.length word < 8) ->
  Forall byte word -> (List.length parts < fuel)%nat ->
  parseProtobuf fuel (toHex (payload parts ++ tag f wt :: word)) = Some Throw.
Proof.
  intros Hok Hf Hwt Hword Hfuel.
  assert (Hw : 0 <= wt < 8) by lia.
  destruct (tag_byte f wt) as (_ & Hnum & Hwire & Ht); [lia | lia |].
  unfold parseProtobuf.
  rewrite from_hex_toHex by (apply tail_bytes; assumption).
  replace fuel with (List.length parts + S (fuel - S (List.length parts)))%nat by lia.
  rewrite (parse_after_payload parts _ _ Hok), parse_loop_S.
  replace (JS.length (payload parts) <? JS.length (payload parts ++ tag f wt :: word))
    with true by (symmetry; apply Z.ltb_lt, length_app_cons).
  rewrite iteration_at. cbv zeta. rewrite Hwire.
  destruct Hwt as [[-> Hshort] | [-> Hshort]].
  - change (5 =? 0) with false. change (5 =? 2) with false. change (5 =? 5) with true.
    cbv iota. rewrite readLE_after by lia.
    replace (4 <=? JS.length word) with false by (symmetry; apply Z.leb_gt; lia).
    reflexivity.
  - change (1 =? 0) with false. change (1 =? 2) with false. change (1 =? 5) with false.
    change (1 =? 1) with true.
    cbv iota. rewrite readLE_after by lia.
    replace (8 <=? JS.length word) with false by (symmetry; apply Z.leb_gt; lia).
    reflexivity.
Qed.

Lemma truncated_fixed_width_throws_witness :
  parseProtobuf 3 (toHex (payload [PVarint 1 12; PVarint 2 1] ++ tag 3 5 :: [1; 2; 3]))
  = Some Throw.
Proof.
  apply (truncated_fixed_width_throws [PVarint 1 12; PVarint 2 1] 3 5 [1; 2; 3] 3).
  - repeat constructor; lia.
  - lia.
  - left. split; [reflexivity | cbn; lia].
  - repeat constructor; unfold byte; lia.
  - cbn. lia.
Defined.

(** X9.  A fixed-width field that is whole is read in little-endian order:
    four bytes after a tag of wire type 5 give a [fixed32] record with
    their number, and eight bytes after a tag of wire type 1 give a
    [fixed64] record with the decimal text of theirs. *)
Theorem fixed_width_field_is_little_endian (parts : list Part) (f : Z)
        (b0 b1 b2 b3 b4 b5 b6 b7 : Z) (fuel : nat) :
  Forall part_ok parts -> 0 <= f < 32 ->
  Forall byte [b0; b1; b2; b3; b4; b5; b6; b7] ->
  (List.length parts + 1 < fuel)%nat ->
  parseProtobuf fuel (toHex (payload parts ++ tag f 5 :: [b0; b1; b2; b3]))
  = Some (Return (map record_of parts
                  ++ [Fixed32 f (b0 + 2^8 * b1 + 2^16 * b2 + 2^24 * b3)]))
  /\ parseProtobuf fuel (toHex (payload parts ++ tag f 1 :: [b0; b1; b2; b3; b4; b5; b6; b7]))
     = Some (Return (map record_of parts
                     ++ [Fixed64 f (toString10 (b0 + 2^8 * b1 + 2^16 * b2 + 2^24 * b3
                                                + 2^32 * b4 + 2^40 * b5 + 2^48 * b6
                                                + 2^56 * b7))])).
Proof.
  intros Hok Hf Hbytes Hfuel.
  assert (Hall := Hbytes).
  repeat (apply Forall_cons_iff in Hbytes; destruct Hbytes as [? Hbytes]).
  replace fuel with (List.length parts + S (S (fuel - S (S (List.length parts)))))%nat by lia.
  split.
  - destruct (tag_byte f 5) as (_ & Hnum & Hwire & Ht); [lia | lia |].
    unfold parseProtobuf.
    rewrite from_hex_toHex
      by (apply tail_bytes; [assumption | exact Ht |];
          repeat (apply Forall_cons; [assumption |]); apply Forall_nil).
    rewrite (parse_after_payload parts _ _ Hok), parse_loop_S.
    replace (JS.length (payload parts)
             <? JS.length (payload parts ++ tag f 5 :: [b0; b1; b2; b3]))
      with true by (symmetry; apply Z.ltb_lt, length_app_cons).
    rewrite iteration_at. cbv zeta. rewrite Hnum, Hwire.
    change (5 =? 0) with false. change (5 =? 2) with false. change (5 =? 5) with true.
    cbv iota. rewrite readLE_after by lia.
    change (4 <=? JS.length [b0; b1; b2; b3]) with true. cbv iota.
    rewrite parse_loop_S.
    replace (JS.length (payload parts) + 1 + 4
             <? JS.length (payload parts ++ tag f 5 :: [b0; b1; b2; b3]))
      with false
      by (symmetry; apply Z.ltb_ge; unfold JS.length; rewrite length_app;
          cbn [List.length]; lia).
    do 4 f_equal.
    change (Z.to_nat 4) with 4%nat. cbn [firstn little_endian]. f_equal. lia.
  - destruct (tag_byte f 1) as (_ & Hnum & Hwire & Ht); [lia | lia |].
    unfold parseProtobuf.
    rewrite from_hex_toHex
      by (apply tail_bytes; [assumption | exact Ht |];
          repeat (apply Forall_cons; [assumption |]); apply Forall_nil).
    rewrite (parse_after_payload parts _ _ Hok), parse_loop_S.
    replace (JS.length (payload parts)
             <? JS.length (payload parts ++ tag f 1 :: [b0; b1; b2; b3; b4; b5; b6; b7]))
      with true by (symmetry; apply Z.ltb_lt, length_app_cons).
    rewrite iteration_at. cbv zeta. rewrite Hnum, Hwire.
    change (1 =? 0) with false. change (1 =? 2) with false. change (1 =? 5) with false.
    change (1 =? 1) with true.
    cbv iota. rewrite readLE_after by lia.
    change (8 <=? JS.length [b0; b1; b2; b3; b4; b5; b6; b7]) with true. cbv iota.
    rewrite parse_loop_S.
    replace (JS.length (payload parts) + 1 + 8
             <? JS.length (payload parts ++ tag f 1 :: [b0; b1; b2; b3; b4; b5; b6; b7]))
      with false
      by (symmetry; apply Z.ltb_ge; unfold JS.length; rewrite length_app;
          cbn [List.length]; lia).
    change (Z.to_nat 8) with 8%nat. cbn [firstn little_endian].
    do 6 f_equal. lia.
Qed.

Lemma fixed_width_field_is_little_endian_witness :
  parseProtobuf 3 (toHex (payload [PVarint 1 12] ++ tag 2 5 :: [1; 2; 3; 4]))
  = Some (Return (map record_of [PVarint 1 12]
                  ++ [Fixed32 2 (1 + 2^8 * 2 + 2^16 * 3 + 2^24 * 4)]))
  /\ parseProtobuf 3 (toHex (payload [PVarint 1 12] ++ tag 2 1 :: [1; 2; 3; 4; 5; 6; 7; 8]))
     = Some (Return (map record_of [PVarint 1 12]
                     ++ [Fixed64 2 (toString10 (1 + 2^8 * 2 + 2^16 * 3 + 2^24 * 4
                                                + 2^32 * 5 + 2^40 * 6 + 2^48 * 7
                                                + 2^56 * 8))])).
Proof.
  apply (fixed_width_field_is_little_endian [PVarint 1 12] 2 1 2 3 4 5 6 7 8 3).
  - repeat constructor; lia.
  - lia.
  - repeat constructor; unfold byte; lia.
  - cbn. lia.
Defined.

(** X10.  A length-delimited field whose declared length runs past the end
    of the buffer is accepted: [subarray] clamps the range, so the
    record holds the bytes that are there, while its [length] member is
    the declared length. *)
Theorem overlong_bytes_field_is_clamped (parts : list Part) (f n : Z)
        (data : list Z) (fuel : nat) :
  Forall part_ok parts -> 0 <= f < 32 -> Forall byte data ->
  JS.length data < n < 2^31 -> (List.length parts + 1 < fuel)%nat ->
  parseProtobuf fuel (toHex (payload parts ++ tag f 2 :: encodeVarint n ++ data))
  = Some (Return (map record_of parts
                  ++ [Bytes f (to_hex data) (printable_string data) n])).
Proof.
  intros Hok Hf Hdata Hn Hfuel.
  destruct (tag_byte f 2) as (_ & _ & _ & Ht); [lia | lia |].
  assert (Hn' : 0 <= n < 2^31) by (unfold JS.length in Hn; lia).
  unfold parseProtobuf.
  rewrite from_hex_toHex
    by (apply tail_bytes; [assumption | exact Ht |];
        apply Forall_app; split; [apply encodeVarint_loop_bytes | exact Hdata]).
  replace fuel with (List.length parts + S (S (fuel - S (S (List.length parts)))))%nat by lia.
  rewrite (parse_after_payload parts _ _ Hok), parse_loop_S.
  replace (JS.length (payload parts)
           <? JS.length (payload parts ++ tag f 2 :: encodeVarint n ++ data))
    with true by (symmetry; apply Z.ltb_lt, length_app_cons).
  rewrite iteration_bytes_field by assumption.
  rewrite firstn_all2 by (unfold JS.length in Hn; lia).
  rewrite parse_loop_S.
  replace (JS.length (payload parts) + 1 + JS.length (encodeVarint n) + n
           <? JS.length (payload parts ++ tag f 2 :: encodeVarint n ++ data))
    with false
    by (symmetry; apply Z.ltb_ge; unfold JS.length in *; rewrite length_app;
        cbn [List.length]; rewrite length_app; lia).
  reflexivity.
Qed.

Lemma overlong_bytes_field_is_clamped_witness :
  parseProtobuf 3 (toHex (payload [PVarint 1 12] ++ tag 2 2 :: encodeVarint 200 ++ [72; 105]))
  = Some (Return (map record_of [PVarint 1 12]
                  ++ [Bytes 2 (to_hex [72; 105]) (printable_string [72; 105]) 200])).
Proof.
  apply (overlong_bytes_field_is_clamped [PVarint 1 12] 2 200 [72; 105] 3).
  - repeat constructor; lia.
  - lia.
  - repeat constructor; unfold byte; lia.
  - cbn. lia.
  - cbn. lia.
Defined.

(** *** Text that is not hexadecimal *)

Lemma from_hex_to_hex_app bytes rest :
  Forall byte bytes -> from_hex (to_hex bytes ++ rest) = bytes ++ from_hex rest.
Proof.
  induction 1 as [| b bytes Hb Hbytes IH]; [reflexivity |].
  cbn [to_hex app].
  assert (Hassoc : ((byte_hex b ++ to_hex bytes) ++ rest
                    = byte_hex b ++ to_hex bytes ++ rest)%string) by reflexivity.
  rewrite Hassoc, (from_hex_byte b _ Hb), IH. reflexivity.
Qed.

Lemma from_hex_not_hex rest : not_hex rest -> from_hex rest = [].
Proof.
  destruct rest as [| c1 [| c2 rest]]; try reflexivity.
  cbn [not_hex from_hex].
  destruct (hex_value c1), (hex_value c2); tauto.
Qed.

(** X25.  [parseProtobuf] reads the hexadecimal digits at the start of
    its argument and silently drops the rest: an odd digit at the end,
    or anything from the first pair of characters that is not a pair
    of hexadecimal digits (a space, a line break), is ignored together
    with all that follows, and the payload before it is parsed as if
    it stood alone. *)
Theorem text_after_hex_is_ignored (parts : list Part) (rest : string) (fuel : nat) :
  Forall part_ok parts -> not_hex rest -> (List.length parts < fuel)%nat ->
  parseProtobuf fuel (toHex (payload parts) ++ rest)
  = Some (Return (map record_of parts)).
Proof.
  intros Hok Hrest Hfuel.
  pose proof (payload_bytes parts Hok) as Hbytes.
  unfold parseProtobuf.
  rewrite (toHex_to_hex _ Hbytes), (from_hex_to_hex_app _ rest Hbytes).
  rewrite (from_hex_not_hex rest Hrest), app_nil_r.
  now apply parse_payload.
Qed.

Lemma text_after_hex_is_ignored_witness :
  parseProtobuf 3 (toHex (payload [PVarint 1 12; PVarint 2 1]) ++ " 5a040a020800")
  = Some (Return (map record_of [PVarint 1 12; PVarint 2 1])).
Proof.
  apply (text_after_hex_is_ignored [PVarint 1 12; PVarint 2 1] " 5a040a020800" 3).
  - repeat constructor; lia.
  - exact I.
  - cbn. lia.
Defined.

End PayloadFacts.


(* ================================================================== *)
(** ** More facts about the G2 client *)
(* ================================================================== *)

Module ClientFacts.

Import JS Sdk Invariants Views SdkFacts.

Lemma settle_last ps st : settle (List.length ps) st (ps ++ [Pending]) = ps ++ [st].
Proof.
  unfold settle. induction ps as [| x ps IH]; cbn; [reflexivity | now rewrite IH].
Qed.

(** The whole effect of [send]. *)
Lemma send_effect method params w :
  snd (send method params w) =
  if is_open w then
    mkWorld (set_pending (map_set (next_key w) (List.length (promises w))
                                  (pending (this w)))
                         (set_idCounter (increment (idCounter (this w))) (this w)))
            (promises w ++ [Pending])
            (match ws (this w) with
             | Some i =>
                 update i (fun s => mkWebSocket (readyState s)
                                      (outbox s ++ [request (next_key w) method params])
                                      (awaiting s) (retry s)) (sockets w)
             | None => sockets w
             end)
            (now w) (calls w) (accepts w)
  else mkWorld (this w) (promises w ++ [Rejected (Error "Not connected to bridge")])
               (sockets w) (now w) (calls w) (accepts w).
Proof.
  unfold send, next_key, request. cbn [new_promise].
  set (w1 := with_promises (fun ps => ps ++ [Pending]) w).
  assert (Hopen1 : is_open w1 = is_open w) by reflexivity.
  change (ws (this w1)) with (ws (this w)).
  destruct (ws (this w)) as [i |] eqn:Hws.
  - rewrite Hopen1. destruct (is_open w); cbn [fst snd].
    + reflexivity.
    + unfold reject, with_promises. cbn. now rewrite settle_last.
  - replace (is_open w) with false
      by (unfold is_open, ws_readyState; now rewrite Hws).
    cbn [snd]. unfold reject, with_promises. cbn. now rewrite settle_last.
Qed.

Lemma send_promise method params w :
  fst (send method params w) = List.length (promises w).
Proof.
  unfold send. cbn [new_promise].
  destruct (ws _); [destruct (is_open _) |]; reflexivity.
Qed.

(** The whole effect of [connectBridge]. *)
Lemma connectBridge_effect b w :
  fst (connectBridge b w) = List.length (promises w)
  /\ snd (connectBridge b w) =
     if is_open w then
       mkWorld (this w) (promises w ++ [Fulfilled None]) (sockets w) (now w) (calls w) (accepts w)
     else if accepts w (url (this w)) then
       mkWorld (set_ws (Some (List.length (sockets w))) (set_closed false (this w)))
               (promises w ++ [Pending])
               (sockets w ++ [mkWebSocket CONNECTING [] (List.length (promises w)) b])
               (now w) (calls w) (accepts w)
     else
       mkWorld (set_closed false (this w)) (promises w ++ [Rejected SyntaxError])
               (sockets w) (now w) (calls w) (accepts w).
Proof.
  unfold connectBridge. cbn [new_promise].
  set (w1 := with_promises (fun ps => ps ++ [Pending]) w).
  assert (Hopen1 : is_open w1 = is_open w) by reflexivity.
  rewrite Hopen1. destruct (is_open w); cbn [fst snd].
  - split; [reflexivity |].
    unfold resolve, with_promises. cbn. now rewrite settle_last.
  - change (accepts (with_this (set_closed false) w1)
                    (url (this (with_this (set_closed false) w1))))
      with (accepts w (url (this w))).
    destruct (accepts w (url (this w))); cbn [fst snd]; split; try reflexivity.
    unfold reject, with_promises. cbn. now rewrite settle_last.
Qed.

Lemma scheduleReconnect_frame_all w :
  same_but_pending (this w)
    (set_reconnectTimer (reconnectTimer (this w)) (this (scheduleReconnect w)))
  /\ pending (this (scheduleReconnect w)) = pending (this w)
  /\ sockets (scheduleReconnect w) = sockets w
  /\ promises (scheduleReconnect w) = promises w
  /\ now (scheduleReconnect w) = now w
  /\ calls (scheduleReconnect w) = calls w.
Proof.
  unfold scheduleReconnect, same_but_pending.
  destruct (reconnectTimer (this w)) eqn:Ht; cbn; rewrite ?Ht; repeat split.
Qed.

(** [handleMessage] acts on the pending map, on promises and on the
    log of handler calls, and on nothing else. *)
Lemma dispatch_frame msg w :
  let w' := fst (dispatch msg w) in
  same_but_pending (this w) (this w')
  /\ sockets w' = sockets w /\ now w' = now w
  /\ List.length (promises w') = List.length (promises w).
Proof.
  unfold dispatch, same_but_pending.
  destruct (has "event" msg) as [[|] |]; cbn [fst]; [cbn; tauto | | tauto].
  destruct (get msg "id") as [[| | | k | |] |]; try tauto.
  destruct (map_get (pending (this w)) k) as [r |]; [| tauto].
  destruct (get msg "error") as [[| | | | |] |];
    try destruct (converts _ && converts _); cbn;
    rewrite ?length_settle; tauto.
Qed.

(** The whole effect of [ws.onclose]. *)
Lemma onclose_effect w :
  onclose w =
  mkWorld (set_reconnectTimer
             (if autoReconnect (this w) && negb (closed (this w))
              then Some (default (reconnectTimer (this w))
                                 (now w + timer_delay (reconnectDelay (this w))))
              else reconnectTimer (this w))
             (set_pending [] (this w)))
          (promises (reject_all (Error "Bridge connection lost") (pending (this w)) w))
          (sockets w) (now w) (calls w) (accepts w).
Proof.
  unfold onclose.
  destruct (reject_all_this (Error "Bridge connection lost") (pending (this w)) w)
    as (Ht & Hs & Hc & Hn & Ha).
  set (w1 := reject_all (Error "Bridge connection lost") (pending (this w)) w) in *.
  clearbody w1. destruct w1 as [g1 ps1 ss1 n1 cs1 a1]. cbn in *. subst.
  unfold scheduleReconnect. cbn.
  destruct (autoReconnect (this w) && negb (closed (this w))); [| reflexivity].
  destruct (reconnectTimer (this w)) eqn:Htimer;
    unfold with_this, set_reconnectTimer, set_pending; cbn; rewrite ?Htimer; reflexivity.
Qed.

(** The whole effect of the timer callback. *)
Lemma reconnect_callback_effect w :
  reconnect_callback w =
  if closed (this w) then with_this (set_reconnectTimer None) w
  else if is_open w then
    mkWorld (set_reconnectTimer None (this w)) (promises w ++ [Fulfilled None])
            (sockets w) (now w) (calls w) (accepts w)
  else if accepts w (url (this w)) then
    mkWorld (set_ws (Some (List.length (sockets w)))
               (set_closed false (set_reconnectTimer None (this w))))
            (promises w ++ [Pending])
            (sockets w ++ [mkWebSocket CONNECTING [] (List.length (promises w)) true])
            (now w) (calls w) (accepts w)
  else
    mkWorld (set_reconnectTimer (Some (now w + timer_delay (reconnectDelay (this w))))
               (set_closed false (this w)))
            (promises w ++ [Rejected SyntaxError])
            (sockets w) (now w) (calls w) (accepts w).
Proof.
  unfold reconnect_callback.
  change (closed (this (with_this (set_reconnectTimer None) w))) with (closed (this w)).
  destruct (closed (this w)); [reflexivity |].
  pose proof (connectBridge_effect true (with_this (set_reconnectTimer None) w)) as (Hp & Hw).
  destruct (connectBridge true (with_this (set_reconnectTimer None) w)) as [p w'].
  cbn [fst snd] in Hp, Hw. subst p w'.
  change (is_open (with_this (set_reconnectTimer None) w)) with (is_open w).
  change (accepts (with_this (set_reconnectTimer None) w)
                  (url (this (with_this (set_reconnectTimer None) w))))
    with (accepts w (url (this w))).
  destruct (is_open w); [| destruct (accepts w (url (this w)))];
    unfold promise_state; cbn [promises with_this this];
    rewrite nth_error_app2, Nat.sub_diag by lia; reflexivity.
Qed.

(** The whole effect of [ws.onerror]. *)
Lemma onerror_effect s w :
  onerror s w =
  if is_open w then w
  else
    let failed := Error ("Bridge connection failed: " ++ url (this w)) in
    let w' := reject (awaiting s) failed w in
    if retry s && match promise_state w (awaiting s) with
                  | Some Pending => true
                  | _ => false
                  end
    then mkWorld (set_reconnectTimer
                    (Some (default (reconnectTimer (this w))
                                   (now w + timer_delay (reconnectDelay (this w)))))
                    (this w))
                 (promises w') (sockets w) (now w) (calls w) (accepts w)
    else w'.
Proof.
  unfold onerror. destruct (is_open w); [reflexivity |]. cbv zeta.
  destruct (retry s && _); [| reflexivity].
  unfold scheduleReconnect, reject, with_promises. cbn.
  destruct w as [g ps ss n cs ok]. cbn.
  destruct g as [u a d so pe li ic cl [t |]]; reflexivity.
Qed.

(** *** Listeners *)

Lemma set_add_In h s : In h (set_add h s).
Proof.
  unfold set_add. destruct (existsb (Nat.eqb h) s) eqn:Hex.
  - apply existsb_exists in Hex. destruct Hex as (x & Hin & Heq).
    apply Nat.eqb_eq in Heq. now subst.
  - apply in_or_app. right. now left.
Qed.

Lemma set_add_fresh h s : ~ In h s -> set_add h s = s ++ [h].
Proof.
  intros Hnot. unfold set_add.
  destruct (existsb (Nat.eqb h) s) eqn:Hex; [| reflexivity].
  apply existsb_exists in Hex. destruct Hex as (x & Hin & Heq).
  apply Nat.eqb_eq in Heq. now subst.
Qed.

Lemma set_add_idem h s : set_add h (set_add h s) = set_add h s.
Proof.
  unfold set_add at 1.
  replace (existsb (Nat.eqb h) (set_add h s)) with true; [reflexivity |].
  symmetry. apply existsb_exists. exists h. split; [apply set_add_In | apply Nat.eqb_refl].
Qed.

Lemma set_delete_fresh h s : ~ In h s -> set_delete h (s ++ [h]) = s.
Proof.
  intros Hnot. unfold set_delete. rewrite filter_app. cbn [filter].
  rewrite Nat.eqb_refl. cbn [negb]. rewrite app_nil_r.
  induction s as [| x s IH]; [reflexivity |].
  cbn [filter].
  destruct (Nat.eqb h x) eqn:Heq.
  - apply Nat.eqb_eq in Heq. subst. exfalso. apply Hnot. now left.
  - cbn [negb]. f_equal. apply IH. intros Hin. apply Hnot. now right.
Qed.

Lemma NoDup_set_add h s : NoDup s -> NoDup (set_add h s).
Proof.
  intros Hnd. unfold set_add.
  destruct (existsb (Nat.eqb h) s) eqn:Hex; [exact Hnd |].
  apply NoDup_app; [exact Hnd | repeat constructor; intros [] |].
  intros x Hin [Heq | []]. subst x.
  assert (existsb (Nat.eqb h) s = true); [| congruence].
  apply existsb_exists. exists h. split; [exact Hin | apply Nat.eqb_refl].
Qed.

Lemma map_set_idem {V} (m : JSMap V) k v : map_set k v (map_set k v m) = map_set k v m.
Proof.
  induction m as [| [k' v'] m IH]; cbn [map_set].
  - now rewrite String.eqb_refl.
  - destruct (String.eqb k k') eqn:Heq; cbn [map_set].
    + now rewrite String.eqb_refl.
    + rewrite Heq. now rewrite IH.
Qed.

Lemma registered_on event h other w :
  registered other (on event h w)
  = if String.eqb event other then set_add h (registered other w) else registered other w.
Proof.
  unfold registered, on, with_this, set_listeners. cbn [this listeners].
  rewrite map_get_set.
  destruct (String.eqb event other) eqn:Heq; [| reflexivity].
  apply String.eqb_eq in Heq. now subst.
Qed.

Lemma registered_off event h other w :
  registered other (off event h w)
  = if String.eqb event other then set_delete h (registered other w) else registered other w.
Proof.
  unfold registered, off, with_this. cbn [this].
  destruct (map_get (listeners (this w)) event) as [s |] eqn:Hget;
    unfold set_listeners; cbn [listeners].
  - rewrite map_get_set.
    destruct (String.eqb event other) eqn:Heq; [| reflexivity].
    apply String.eqb_eq in Heq. subst. now rewrite Hget.
  - destruct (String.eqb event other) eqn:Heq; [| reflexivity].
    apply String.eqb_eq in Heq. subst. now rewrite Hget.
Qed.

(** X11.  Registering a handler a second time changes nothing, and [off]
    undoes [on]: after [on(event, h)] and [off(event, h)] for a handler
    that was not registered, every event has the handlers it had, in
    the same order. *)
Theorem on_off_roundtrip (event other : string) (h : EventHandler) (w : World) :
  ~ In h (registered event w) ->
  on event h (on event h w) = on event h w
  /\ registered event (on event h w) = registered event w ++ [h]
  /\ registered other (off event h (on event h w)) = registered other w.
Proof.
  intros Hfresh. split; [| split].
  - unfold on, with_this, set_listeners. cbn [this listeners url autoReconnect
      reconnectDelay ws pending idCounter closed reconnectTimer promises sockets now calls].
    do 2 f_equal.
    rewrite map_get_set, String.eqb_refl. cbn [default].
    now rewrite set_add_idem, map_set_idem.
  - rewrite registered_on, String.eqb_refl. now apply set_add_fresh.
  - rewrite registered_off, registered_on.
    destruct (String.eqb event other) eqn:Heq; [| reflexivity].
    apply String.eqb_eq in Heq. subst other.
    rewrite (set_add_fresh h _ Hfresh). now apply set_delete_fresh.
Qed.

Lemma on_off_roundtrip_witness :
  on "response" 9%nat (on "response" 9%nat Samples.connected)
  = on "response" 9%nat Samples.connected
  /\ registered "response" (on "response" 9%nat Samples.connected)
     = registered "response" Samples.connected ++ [9%nat]
  /\ registered "response" (off "response" 9%nat (on "response" 9%nat Samples.connected))
     = registered "response" Samples.connected.
Proof.
  apply (on_off_roundtrip "response" "response" 9%nat Samples.connected).
  vm_compute. intros [H | []]. discriminate H.
Defined.

Section Delivery.

Variable JSON_parse : string -> option JSON.

(** Nothing but [on] and [off] touches the listeners. *)
Lemma step_listeners op w :
  match op with
  | CallOn _ _ | CallOff _ _ => True
  | _ => listeners (this (step JSON_parse op w)) = listeners (this w)
  end.
Proof.
  destruct op as [method params | event h | event h | | | i | i | i | i raw | ms];
    cbn [step]; try exact I.
  - rewrite send_effect. destruct (is_open w); reflexivity.
  - destruct (connectBridge_effect false w) as (_ & ->).
    destruct (is_open w); [| destruct (accepts w (url (this w)))]; reflexivity.
  - unfold closeBridge. cbn. destruct (ws (this w)); reflexivity.
  - destruct (nth_error (sockets w) i) as [s |]; [| reflexivity].
    destruct (readyState s); reflexivity.
  - destruct (nth_error (sockets w) i) as [s |]; [| reflexivity].
    rewrite onerror_effect. destruct (is_open w); [reflexivity |]. cbv zeta.
    destruct (retry s && _); reflexivity.
  - destruct (nth_error (sockets w) i) as [s |]; [| reflexivity].
    destruct (readyState s); try reflexivity; now rewrite onclose_effect.
  - destruct (nth_error (sockets w) i); [| reflexivity].
    unfold handleMessage. destruct (JSON_parse raw) as [msg |]; [| reflexivity].
    destruct (dispatch_frame msg w) as (Hsame & _). apply Hsame.
  - set (w1 := later ms w).
    destruct (reconnectTimer (this w1)) as [due |]; [| reflexivity].
    destruct (due <=? now w1); [| reflexivity].
    rewrite reconnect_callback_effect.
    destruct (closed (this w1)); [reflexivity |].
    destruct (is_open w1); [| destruct (accepts w1 (url (this w1)))]; reflexivity.
Qed.

Lemma registered_step event op w :
  registered event (step JSON_parse op w) = subscribe event (registered event w) op.
Proof.
  pose proof (step_listeners op w) as H.
  destruct op; cbn [subscribe]; try (unfold registered; now rewrite H).
  - cbn [step]. rewrite registered_on. reflexivity.
  - cbn [step]. rewrite registered_off. reflexivity.
Qed.

Lemma registered_run event ops :
  forall w, registered event (run JSON_parse ops w)
            = subscriptions event ops (registered event w).
Proof.
  induction ops as [| op ops IH]; intros w; [reflexivity |].
  cbn [run fold_left subscriptions]. fold (run JSON_parse ops (step JSON_parse op w)).
  rewrite IH, registered_step. reflexivity.
Qed.

Lemma NoDup_subscriptions event ops :
  forall s, NoDup s -> NoDup (subscriptions event ops s).
Proof.
  induction ops as [| op ops IH]; intros s Hnd; [exact Hnd |].
  cbn [subscriptions fold_left]. apply IH.
  destruct op; cbn [subscribe]; try exact Hnd;
    destruct (String.eqb _ event); try exact Hnd.
  - now apply NoDup_set_add.
  - now apply NoDup_filter.
Qed.

(** X12.  Who hears an event depends on the calls of [on] and [off] for that
    event and on nothing else: after any run from [new G2], a message
    with an [event] member calls the handlers that those calls have
    left, each of them once, in the order in which they were added,
    with [msg.data ?? {}]; requests, sockets, reconnects and
    [closeBridge] take no handler away. *)
Theorem event_delivery_follows_subscriptions
        (platform : string -> bool) (options : Options) (ops : list Op) (raw : string)
        (members : list (string * JSON)) (event : string) :
  JSON_parse raw = Some (JObject members) ->
  assoc "event" members = Some (JString event) ->
  let w := run JSON_parse ops (new_G2 platform options) in
  let handlers := subscriptions event ops [] in
  handleMessage JSON_parse raw w
  = (mkWorld (this w) (promises w) (sockets w) (now w)
             (calls w ++ map (fun h => (h, orEmptyObject (assoc "data" members)))
                             handlers) (accepts w),
     Normal)
  /\ NoDup handlers.
Proof.
  intros Hparse Hevent w handlers.
  split; [| apply NoDup_subscriptions; constructor].
  unfold handleMessage. rewrite Hparse.
  unfold dispatch. cbn [has get]. rewrite Hevent. cbn [default].
  unfold emit. do 2 f_equal. f_equal.
  change (default (map_get (listeners (this w)) event) []) with (registered event w).
  subst w handlers. rewrite registered_run.
  destruct options; reflexivity.
Qed.

End Delivery.

Lemma event_delivery_follows_subscriptions_witness :
  let ops := [CallOn "response" 7%nat; CallOn "response" 8%nat; CallConnectBridge;
              CallOn "response" 7%nat; SocketOpen 0%nat; CallOff "response" 7%nat;
              CallCloseBridge; CallOn "connected" 5%nat] in
  let w := run Samples.parse ops (new_G2 Samples.platform NoOptions) in
  handleMessage Samples.parse Samples.event_text w
  = (mkWorld (this w) (promises w) (sockets w) (now w)
             (calls w ++ map (fun h => (h, orEmptyObject
                                             (assoc "data" [("event", JString "response");
                                                            ("data", JObject [("raw", JString "aa21")])])))
                             (subscriptions "response" ops [])) (accepts w),
     Normal)
  /\ NoDup (subscriptions "response" ops []).
Proof.
  apply (event_delivery_follows_subscriptions Samples.parse Samples.platform NoOptions);
    reflexivity.
Defined.

(** *** The connection *)

Ltac fields :=
  cbn [this promises sockets now calls accepts later url autoReconnect reconnectDelay ws pending
       listeners idCounter closed reconnectTimer set_ws set_pending set_listeners
       set_idCounter set_closed set_reconnectTimer with_this with_promises
       with_sockets fst snd andb negb default readyState outbox awaiting retry
       set_readyState option_map].

Lemma nth_error_last {A} (l : list A) x : nth_error (l ++ [x]) (List.length l) = Some x.
Proof.
  rewrite nth_error_app2 by lia. now rewrite Nat.sub_diag.
Qed.

Lemma update_last {A} (f : A -> A) (l : list A) x :
  update (List.length l) f (l ++ [x]) = l ++ [f x].
Proof.
  induction l as [| y l IH]; cbn; [reflexivity | now rewrite IH].
Qed.

Lemma not_open_without_socket w : ws (this w) = None -> is_open w = false.
Proof.
  intros Hws. unfold is_open, ws_readyState. now rewrite Hws.
Qed.

Section Lifecycle.

Variable JSON_parse : string -> option JSON.

(** While the object is closed and has no socket, only a call of
    [connectBridge] changes that. *)
Lemma closed_step op w :
  no_connect op = true -> closed (this w) = true -> ws (this w) = None ->
  closed (this (step JSON_parse op w)) = true
  /\ ws (this (step JSON_parse op w)) = None
  /\ List.length (sockets (step JSON_parse op w)) = List.length (sockets w).
Proof.
  intros Hop Hclosed Hws.
  pose proof (not_open_without_socket w Hws) as Hopen.
  destruct op as [method params | event h | event h | | | i | i | i | i raw | ms];
    cbn [step].
  - rewrite send_effect, Hopen. fields. auto.
  - unfold on. fields. auto.
  - unfold off. fields. destruct (map_get (listeners (this w)) event); fields; auto.
  - discriminate.
  - unfold closeBridge. fields. rewrite Hws. fields. auto.
  - destruct (nth_error (sockets w) i) as [s |]; [| auto].
    destruct (readyState s); auto.
    unfold onopen, resolve. fields. rewrite length_update. auto.
  - destruct (nth_error (sockets w) i) as [s |]; [| auto].
    rewrite onerror_effect, Hopen. cbv zeta.
    destruct (retry s && _); unfold reject; fields; auto.
  - destruct (nth_error (sockets w) i) as [s |]; [| auto].
    destruct (readyState s); auto; rewrite onclose_effect; fields;
      rewrite length_update; auto.
  - destruct (nth_error (sockets w) i); [| auto].
    unfold handleMessage. destruct (JSON_parse raw) as [msg |]; [| auto].
    destruct (dispatch_frame msg w) as ((_ & _ & _ & Hw & _ & _ & Hc & _) & Hs & _).
    rewrite Hw, Hc, Hs. auto.
  - set (w1 := later ms w).
    destruct (reconnectTimer (this w1)) as [due |]; [| auto].
    destruct (due <=? now w1); [| auto].
    rewrite reconnect_callback_effect.
    change (closed (this w1)) with (closed (this w)). rewrite Hclosed.
    fields. auto.
Qed.

(** X13.  [closeBridge] is final until [connectBridge] is called again:
    whatever happens after it (socket events, messages, timers, other
    calls), the object stays closed, it has no socket, no socket is
    created, and every [send] is rejected with ["Not connected to
    bridge"]. *)
Theorem closeBridge_stays_closed (ops : list Op) (w : World) :
  forallb no_connect ops = true ->
  let w' := run JSON_parse ops (closeBridge w) in
  closed (this w') = true
  /\ ws (this w') = None
  /\ List.length (sockets w') = List.length (sockets w)
  /\ forall method params,
       promise_state (snd (send method params w')) (fst (send method params w'))
       = Some (Rejected (Error "Not connected to bridge")).
Proof.
  intros Hops w'.
  assert (Hinv : closed (this w') = true /\ ws (this w') = None
                 /\ List.length (sockets w') = List.length (sockets w)).
  { subst w'.
    assert (Hstart : closed (this (closeBridge w)) = true
                     /\ ws (this (closeBridge w)) = None
                     /\ List.length (sockets (closeBridge w)) = List.length (sockets w)).
    { unfold closeBridge. fields.
      destruct (ws (this w)) eqn:Hws; fields; rewrite ?length_update, ?Hws; auto. }
    revert Hstart. generalize (closeBridge w).
    induction ops as [| op ops IH]; intros w0 Hstart; [exact Hstart |].
    cbn [forallb] in Hops. apply andb_true_iff in Hops. destruct Hops as [Hop Hops].
    cbn [run fold_left]. fold (run JSON_parse ops (step JSON_parse op w0)).
    destruct Hstart as (Hc & Hw & Hl).
    destruct (closed_step op w0 Hop Hc Hw) as (Hc' & Hw' & Hl').
    apply (IH Hops). rewrite Hl'. auto. }
  destruct Hinv as (Hc & Hw & Hl). repeat split; try assumption.
  intros method params.
  rewrite send_effect, send_promise, (not_open_without_socket w' Hw).
  unfold promise_state. fields. apply nth_error_last.
Qed.

(** X14.  The client reconnects by itself.  When the socket of the object
    closes while [autoReconnect] is set, the object is not closed and
    no reconnect is under way, the close handler starts the timer.  The
    timer is due after the delay that [setTimeout] makes of
    [reconnectDelay]: [reconnectDelay] itself when it lies between 1
    and 2^31 - 1, and 1 otherwise.  Time that ends before the timer is
    due changes nothing; once it is due, the callback clears it and,
    the url being one that the platform accepts, makes a new socket,
    which becomes the socket of the object; and when that socket
    fails, the timer is started again, with the same delay. *)
Theorem reconnect_after_close (i : nat) (s : WebSocket) (w : World) (ms : Z) :
  nth_error (sockets w) i = Some s -> readyState s <> CLOSED ->
  ws (this w) = Some i -> autoReconnect (this w) = true ->
  closed (this w) = false -> reconnectTimer (this w) = None ->
  accepts w (url (this w)) = true ->
  let delay := timer_delay (reconnectDelay (this w)) in
  let w1 := step JSON_parse (SocketClose i) w in
  let w2 := step JSON_parse (Elapse ms) w1 in
  delay = (if (1 <=? reconnectDelay (this w)) && (reconnectDelay (this w) <=? 2147483647)
           then reconnectDelay (this w) else 1)
  /\ reconnectTimer (this w1) = Some (now w + delay)
  /\ sockets w1 = update i (set_readyState CLOSED) (sockets w)
  /\ if delay <=? Z.max 0 ms
     then reconnectTimer (this w2) = None
          /\ sockets w2
             = sockets w1 ++ [mkWebSocket CONNECTING [] (List.length (promises w1)) true]
          /\ ws (this w2) = Some (List.length (sockets w))
          /\ reconnectTimer (this (step JSON_parse (SocketError (List.length (sockets w))) w2))
             = Some (now w2 + delay)
     else reconnectTimer (this w2) = reconnectTimer (this w1)
          /\ sockets w2 = sockets w1
          /\ ws (this w2) = Some i.
Proof.
  intros Hs Hstate Hws Hauto Hclosed Htimer Hurl delay w1 w2.
  split; [reflexivity |].
  assert (Hw1 : w1 = onclose (with_sockets (update i (set_readyState CLOSED)) w)).
  { subst w1. cbn [step]. rewrite Hs. destruct (readyState s); congruence. }
  rewrite onclose_effect in Hw1. fields. revert Hw1. fields.
  rewrite Hauto, Hclosed, Htimer. fields. fold delay. intros Hw1.
  assert (Hopen : forall n, is_open (mkWorld (this w1) (promises w1) (sockets w1) n
                                             (calls w1) (accepts w1))
                            = false).
  { intros n. unfold is_open, ws_readyState. rewrite Hw1. fields. rewrite Hws.
    rewrite nth_error_update, Nat.eqb_refl, Hs. reflexivity. }
  split; [rewrite Hw1; reflexivity |].
  split; [rewrite Hw1; reflexivity |].
  subst w2. cbn [step].
  set (w1' := later ms w1).
  assert (Htimer1 : reconnectTimer (this w1') = Some (now w + delay))
    by (unfold w1'; rewrite Hw1; reflexivity).
  assert (Hnow1 : now w1' = now w + Z.max 0 ms)
    by (unfold w1'; rewrite Hw1; reflexivity).
  assert (Hdelay1 : timer_delay (reconnectDelay (this w1')) = delay)
    by (unfold w1'; rewrite Hw1; reflexivity).
  assert (Hurl1 : accepts w1' (url (this w1')) = true)
    by (unfold w1'; rewrite Hw1; exact Hurl).
  rewrite Htimer1, Hnow1.
  destruct (Z.leb_spec delay (Z.max 0 ms)) as [Hdue | Hearly].
  - replace (now w + delay <=? now w + Z.max 0 ms) with true
      by (symmetry; apply Z.leb_le; lia).
    rewrite reconnect_callback_effect.
    replace (closed (this w1')) with false by (unfold w1'; rewrite Hw1; now fields).
    rewrite (Hopen _ : is_open w1' = false), Hurl1.
    set (w2 := mkWorld (set_ws (Some (List.length (sockets w1')))
                          (set_closed false (set_reconnectTimer None (this w1'))))
                       (promises w1' ++ [Pending])
                       (sockets w1' ++ [mkWebSocket CONNECTING [] (List.length (promises w1'))
                                                    true])
                       (now w1') (calls w1') (accepts w1')).
    assert (Hlen : List.length (sockets w1') = List.length (sockets w))
      by (unfold w1'; rewrite Hw1; fields; apply length_update).
    split; [reflexivity |]. split; [reflexivity |].
    split; [unfold w2; fields; now rewrite Hlen |].
    rewrite <- Hlen. cbn [step].
    replace (nth_error (sockets w2) (List.length (sockets w1')))
      with (Some (mkWebSocket CONNECTING [] (List.length (promises w1')) true))
      by (symmetry; apply nth_error_last).
    rewrite onerror_effect.
    replace (is_open w2) with false.
    2:{ unfold is_open, ws_readyState, w2. fields. now rewrite nth_error_last. }
    cbv zeta. fields.
    replace (promise_state w2 (List.length (promises w1'))) with (Some Pending)
      by (symmetry; apply nth_error_last).
    unfold w2. fields. rewrite Hdelay1. reflexivity.
  - replace (now w + delay <=? now w + Z.max 0 ms) with false
      by (symmetry; apply Z.leb_gt; lia).
    unfold w1'. fields. repeat split. rewrite Hw1. fields. exact Hws.
Qed.

(** X15.  What becomes of a call of [connectBridge].  On an open socket the
    promise is resolved at once and nothing else changes.  Otherwise
    the object is no longer closed.  When the platform accepts the url,
    the object gets a new socket and the promise waits for it: it is
    resolved when the socket opens and rejected with ["Bridge connection
    failed: <url>"] on its error event, which starts no timer by
    itself.  When [new WebSocket] refuses the url, the promise is
    rejected at once with what the constructor threw, no socket is
    made, and the object is what it was but for [closed]. *)
Theorem connectBridge_outcome (w : World) :
  let p := fst (connectBridge false w) in
  let w1 := snd (connectBridge false w) in
  let i := List.length (sockets w) in
  if is_open w
  then promise_state w1 p = Some (Fulfilled None)
       /\ this w1 = this w /\ sockets w1 = sockets w
  else if accepts w (url (this w))
  then promise_state w1 p = Some Pending
       /\ ws (this w1) = Some i /\ closed (this w1) = false
       /\ sockets w1 = sockets w ++ [mkWebSocket CONNECTING [] p false]
       /\ promise_state (step JSON_parse (SocketOpen i) w1) p = Some (Fulfilled None)
       /\ is_open (step JSON_parse (SocketOpen i) w1) = true
       /\ promise_state (step JSON_parse (SocketError i) w1) p
          = Some (Rejected (Error ("Bridge connection failed: " ++ url (this w))))
       /\ reconnectTimer (this (step JSON_parse (SocketError i) w1))
          = reconnectTimer (this w)
  else promise_state w1 p = Some (Rejected SyntaxError)
       /\ this w1 = set_closed false (this w)
       /\ sockets w1 = sockets w.
Proof.
  cbv zeta.
  destruct (connectBridge_effect false w) as (-> & ->).
  destruct (is_open w) eqn:Hopen.
  - unfold promise_state. fields. repeat split. apply nth_error_last.
  - destruct (accepts w (url (this w))) eqn:Hurl.
    2:{ unfold promise_state. fields. repeat split. apply nth_error_last. }
    set (p := List.length (promises w)).
    set (i := List.length (sockets w)).
    set (sock := mkWebSocket CONNECTING [] p false).
    set (w1 := mkWorld (set_ws (Some i) (set_closed false (this w)))
                       (promises w ++ [Pending]) (sockets w ++ [sock]) (now w) (calls w) (accepts w)).
    assert (Hsock : nth_error (sockets w1) i = Some sock) by apply nth_error_last.
    assert (Hconnecting : is_open w1 = false).
    { unfold is_open, ws_readyState. unfold w1 at 1. fields. now rewrite Hsock. }
    split; [unfold promise_state, w1; fields; apply nth_error_last |].
    split; [reflexivity |]. split; [reflexivity |]. split; [reflexivity |].
    split; [| split; [| split]].
    + cbn [step]. rewrite Hsock. unfold sock. fields.
      unfold onopen, resolve, promise_state, w1. fields.
      unfold p. rewrite settle_at, nth_error_last. reflexivity.
    + cbn [step]. rewrite Hsock. unfold sock. fields.
      unfold onopen, resolve, is_open, ws_readyState, w1. fields.
      unfold i. rewrite update_last, nth_error_last. reflexivity.
    + cbn [step]. rewrite Hsock, onerror_effect, Hconnecting. cbv zeta.
      unfold sock. fields.
      unfold reject, promise_state, w1. fields.
      unfold p. rewrite settle_at, nth_error_last. reflexivity.
    + cbn [step]. rewrite Hsock, onerror_effect, Hconnecting. cbv zeta.
      unfold sock. fields. reflexivity.
Qed.

End Lifecycle.

Lemma closeBridge_stays_closed_witness :
  let w' := run Samples.parse
                [SocketClose 0%nat; Elapse 5000; SocketMessage 0%nat Samples.response_text;
                 CallOn "response" 3%nat; SocketError 0%nat; Elapse 5000]
                (closeBridge Samples.waiting) in
  closed (this w') = true
  /\ ws (this w') = None
  /\ List.length (sockets w') = List.length (sockets Samples.waiting)
  /\ forall method params,
       promise_state (snd (send method params w')) (fst (send method params w'))
       = Some (Rejected (Error "Not connected to bridge")).
Proof.
  apply (closeBridge_stays_closed Samples.parse
           [SocketClose 0%nat; Elapse 5000; SocketMessage 0%nat Samples.response_text;
            CallOn "response" 3%nat; SocketError 0%nat; Elapse 5000]
           Samples.waiting).
  reflexivity.
Defined.

Lemma reconnect_after_close_witness :
  let w := Samples.waiting in
  let delay := timer_delay (reconnectDelay (this w)) in
  let w1 := step Samples.parse (SocketClose 0%nat) w in
  let w2 := step Samples.parse (Elapse 2500) w1 in
  delay = (if (1 <=? reconnectDelay (this w)) && (reconnectDelay (this w) <=? 2147483647)
           then reconnectDelay (this w) else 1)
  /\ reconnectTimer (this w1) = Some (now w + delay)
  /\ sockets w1 = update 0 (set_readyState CLOSED) (sockets w)
  /\ if delay <=? Z.max 0 2500
     then reconnectTimer (this w2) = None
          /\ sockets w2
             = sockets w1 ++ [mkWebSocket CONNECTING [] (List.length (promises w1)) true]
          /\ ws (this w2) = Some (List.length (sockets w))
          /\ reconnectTimer (this (step Samples.parse (SocketError (List.length (sockets w))) w2))
             = Some (now w2 + delay)
     else reconnectTimer (this w2) = reconnectTimer (this w1)
          /\ sockets w2 = sockets w1
          /\ ws (this w2) = Some 0%nat.
Proof.
  apply (reconnect_after_close Samples.parse 0%nat
           (mkWebSocket OPEN [request "1" "getStatus" None] 0%nat false)
           Samples.waiting 2500); try reflexivity.
  discriminate.
Defined.

(** *** Requests and their replies *)

Lemma map_delete_set_fresh {V} (m : JSMap V) k v :
  map_get m k = None -> map_delete k (map_set k v m) = m.
Proof.
  unfold map_get, map_delete.
  induction m as [| [k' v'] m IH]; cbn [assoc map_set filter fst].
  - intros _. rewrite String.eqb_refl. reflexivity.
  - destruct (String.eqb k k') eqn:Heq; [discriminate |].
    intros Hget. cbn [filter fst]. rewrite Heq. cbn [negb].
    now rewrite IH.
Qed.

Section Requests.

Variable JSON_parse : string -> option JSON.

(** X16.  A request and its answer.  [send] on an open socket puts one
    message on that socket, [{ id, method }] with the key of the
    request as [id]; the message has a [params] member when [params]
    is given and truthy, and only then.  When a reply with that [id]
    and without [error] comes back, the promise that [send] returned is
    resolved with [msg.result ?? {}], the pending map is what it was
    before the call, and no other promise has changed. *)
Theorem request_reply_roundtrip (method : string) (params : option JSON) (w : World)
        (raw : string) (members : list (string * JSON)) :
  is_open w = true ->
  map_get (pending (this w)) (next_key w) = None ->
  JSON_parse raw = Some (JObject members) ->
  assoc "event" members = None ->
  assoc "id" members = Some (JString (next_key w)) ->
  assoc "error" members = None ->
  let p := fst (send method params w) in
  let w1 := snd (send method params w) in
  let w2 := fst (handleMessage JSON_parse raw w1) in
  (exists i s msg,
      ws (this w) = Some i /\ nth_error (sockets w) i = Some s
      /\ option_map outbox (nth_error (sockets w1) i) = Some (outbox s ++ [msg])
      /\ msg = request (next_key w) method params
      /\ get msg "id" = Some (JString (next_key w))
      /\ get msg "method" = Some (JString method)
      /\ get msg "params"
         = match params with
           | Some q => if truthy q then Some q else None
           | None => None
           end)
  /\ promise_state w2 p
     = Some (Fulfilled (Some (orEmptyObject (assoc "result" members))))
  /\ pending (this w2) = pending (this w)
  /\ forall q, (q < List.length (promises w))%nat ->
               promise_state w2 q = promise_state w q.
Proof.
  intros Hopen Hfresh Hparse Hevent Hid Herror.
  cbv zeta. rewrite send_promise, send_effect, Hopen.
  remember (next_key w) as K eqn:HK in *.
  set (p := List.length (promises w)).
  split.
  - unfold is_open, ws_readyState in Hopen.
    destruct (ws (this w)) as [i |]; [| discriminate].
    destruct (nth_error (sockets w) i) as [s |] eqn:Hs; [| discriminate].
    exists i, s, (request K method params).
    split; [reflexivity | split; [exact Hs |]]. fields.
    rewrite nth_error_update, Nat.eqb_refl, Hs.
    repeat split. unfold request.
    destruct params as [q |]; [destruct (truthy q) |]; reflexivity.
  - unfold handleMessage. rewrite Hparse.
    unfold dispatch. cbn [has get]. rewrite Hevent, Hid. fields.
    rewrite map_get_set, String.eqb_refl. fields.
    rewrite Herror.
    unfold resolve, promise_state. fields.
    change (@map_set nat K p (pending (this w)))
      with (@map_set PendingRequest K p (pending (this w))).
    rewrite (map_delete_set_fresh (pending (this w)) K p Hfresh).
    repeat split.
    + unfold p. rewrite settle_at, nth_error_last. reflexivity.
    + intros q Hq. rewrite settle_other by (unfold p; lia).
      apply nth_error_app1. exact Hq.
Qed.

(** X17.  The three ways in which a pending request is held: in every world
    that a run from [new G2] reaches, the promise of each entry of the
    pending map is still pending, no promise is registered under two
    keys, and none is the promise of a [connectBridge] call. *)
Theorem pending_requests_are_unsettled
        (platform : string -> bool) (options : Options) (ops : list Op) :
  let w := run JSON_parse ops (new_G2 platform options) in
  (forall K req, map_get (pending (this w)) K = Some req ->
                 promise_state w req = Some Pending)
  /\ (forall K K' req, map_get (pending (this w)) K = Some req ->
                       map_get (pending (this w)) K' = Some req -> K = K')
  /\ (forall K req s, map_get (pending (this w)) K = Some req ->
                      In s (sockets w) -> awaiting s <> req).
Proof.
  intros w.
  destruct (reachable_unsettled JSON_parse platform options ops)
    as (_ & Hnd & Hpending & Hsock).
  fold w in Hnd, Hpending, Hsock.
  split; [| split].
  - intros K req Hget. apply (Hpending K). now apply map_get_in.
  - intros K K' req Hget Hget'.
    apply (same_value_same_key (pending (this w)) K K' req Hnd); now apply map_get_in.
  - intros K req s Hget Hin. apply (Hsock s K req Hin). now apply map_get_in.
Qed.

(** X18.  An inbound message acts on requests and on nothing else: whatever
    the text, [handleMessage] leaves the sockets alone (it sends
    nothing), keeps the listeners, the counter, the connection state
    and the timer, adds no entry to the pending map, and settles at
    most one promise. *)
Theorem handleMessage_touches_requests_only (raw : string) (w : World) :
  let w' := fst (handleMessage JSON_parse raw w) in
  same_but_pending (this w) (this w')
  /\ sockets w' = sockets w /\ now w' = now w
  /\ (forall e, In e (pending (this w')) -> In e (pending (this w)))
  /\ exists p, forall q, q <> p -> promise_state w' q = promise_state w q.
Proof.
  cbv zeta. unfold handleMessage.
  destruct (JSON_parse raw) as [msg |]; cbn [fst];
    [| unfold same_but_pending; repeat split; auto; exists 0%nat; auto].
  destruct (dispatch_frame msg w) as (Hsame & Hs & Hn & _).
  split; [exact Hsame |]. split; [exact Hs |]. split; [exact Hn |].
  split.
  - destruct (dispatch_pending msg w) as (_ & [-> | (k & ->)]); [auto |].
    intros e. apply in_map_delete.
  - unfold dispatch.
    destruct (has "event" msg) as [[|] |]; cbn [fst]; try (exists 0%nat; now auto).
    destruct (get msg "id") as [[| | | k | |] |]; try (exists 0%nat; now auto).
    destruct (map_get (pending (this w)) k) as [r |]; [| exists 0%nat; now auto].
    exists r. intros q Hq.
    destruct (get msg "error") as [[| | | | |] |];
      try destruct (converts _ && converts _);
      unfold reject, resolve, promise_state;
      fields; try reflexivity; now apply settle_other.
Qed.

End Requests.

Lemma request_reply_roundtrip_witness :
  let w := Samples.waiting in
  let p := fst (send "setText" (Some (JObject [("text", JString "hi")])) w) in
  let w1 := snd (send "setText" (Some (JObject [("text", JString "hi")])) w) in
  let w2 := fst (handleMessage Replies.parse Replies.second_reply_text w1) in
  (exists i s msg,
      ws (this w) = Some i /\ nth_error (sockets w) i = Some s
      /\ option_map outbox (nth_error (sockets w1) i) = Some (outbox s ++ [msg])
      /\ msg = request (next_key w) "setText" (Some (JObject [("text", JString "hi")]))
      /\ get msg "id" = Some (JString (next_key w))
      /\ get msg "method" = Some (JString "setText")
      /\ get msg "params" = Some (JObject [("text", JString "hi")]))
  /\ promise_state w2 p
     = Some (Fulfilled (Some (orEmptyObject
                                (assoc "result" [("id", JString "2"); ("result", JNull)]))))
  /\ pending (this w2) = pending (this w)
  /\ forall q, (q < List.length (promises w))%nat ->
               promise_state w2 q = promise_state w q.
Proof.
  apply (request_reply_roundtrip Replies.parse "setText"
           (Some (JObject [("text", JString "hi")])) Samples.waiting
           Replies.second_reply_text [("id", JString "2"); ("result", JNull)]);
    reflexivity.
Defined.

(** *** Requests that nothing settles *)

Lemma reject_all_other e reqs :
  forall w q, (forall k, ~ In (k, q) reqs) ->
              promise_state (reject_all e reqs w) q = promise_state w q.
Proof.
  induction reqs as [| [k r] reqs IH]; intros w q Hnot; [reflexivity |].
  rewrite reject_all_cons, IH.
  - unfold reject, promise_state. cbn [snd]. fields.
    apply settle_other. intros ->. apply (Hnot k). now left.
  - intros k' Hin. apply (Hnot k'). now right.
Qed.

Lemma orphan_owned K req w : orphan req w -> owned K req w.
Proof.
  intros (Hp & Hnone & Hs). split; [exact Hp | split; [| exact Hs]].
  intros k r Hin ->. destruct (Hnone k Hin).
Qed.

Lemma owned_twice_orphan K1 K2 req w :
  K1 <> K2 -> owned K1 req w -> owned K2 req w -> orphan req w.
Proof.
  intros Hne (Hp & H1 & Hs) (_ & H2 & _). split; [exact Hp | split; [| exact Hs]].
  intros k Hin. apply Hne.
  rewrite <- (H1 k req Hin eq_refl). apply (H2 k req Hin eq_refl).
Qed.

Section Orphans.

Variable JSON_parse : string -> option JSON.

(** For an operation that is not the close of a socket there are two
    keys that it does not answer. *)
Lemma quiet_choice op :
  (forall i, op <> SocketClose i) ->
  exists K1 K2, K1 <> K2 /\ quiet JSON_parse K1 op = true
                /\ quiet JSON_parse K2 op = true.
Proof.
  intros Hop.
  assert (Hab : exists K1 K2 : string, K1 <> K2 /\ true = true /\ true = true)
    by (exists "a", "b"; repeat split; discriminate).
  destruct op as [method params | event h | event h | | | i | i | i | i raw | ms];
    cbn [quiet]; try exact Hab.
  - destruct (Hop i eq_refl).
  - destruct (JSON_parse raw) as [msg |]; [| exact Hab].
    destruct (get msg "id") as [[| | | k | |] |]; try exact Hab.
    destruct (String.eqb k "a") eqn:Ha; destruct (String.eqb k "b") eqn:Hb.
    + apply String.eqb_eq in Ha, Hb. congruence.
    + apply String.eqb_eq in Ha. subst k.
      exists "b", "c". repeat split. discriminate.
    + apply String.eqb_eq in Hb. subst k.
      exists "a", "c". repeat split. discriminate.
    + exists "a", "b". rewrite Ha, Hb. repeat split. discriminate.
Qed.

Lemma orphan_step req op w : orphan req w -> orphan req (step JSON_parse op w).
Proof.
  intros Horphan.
  destruct (match op with SocketClose _ => true | _ => false end) eqn:Hkind.
  - destruct op as [| | | | | | | i | |]; try discriminate.
    cbn [step].
    destruct (nth_error (sockets w) i) as [s |]; [| exact Horphan].
    assert (Hclose : orphan req (onclose (with_sockets (update i (set_readyState CLOSED)) w))).
    { destruct Horphan as (Hp & Hnone & Hs).
      rewrite onclose_effect. split; [| split].
      - unfold promise_state. fields.
        change (nth_error (promises (reject_all (Error "Bridge connection lost")
                                        (pending (this w))
                                        (with_sockets (update i (set_readyState CLOSED)) w)))
                          req)
          with (promise_state (reject_all (Error "Bridge connection lost")
                                 (pending (this w))
                                 (with_sockets (update i (set_readyState CLOSED)) w)) req).
        rewrite reject_all_other by exact Hnone. exact Hp.
      - fields. intros k [].
      - fields. intros s' Hin.
        destruct (sockets_awaiting_update (set_readyState CLOSED) i (sockets w)
                    (fun _ => eq_refl) s' Hin) as (s0 & Hin0 & ->).
        now apply Hs. }
    destruct (readyState s); try exact Hclose. exact Horphan.
  - destruct (quiet_choice op) as (K1 & K2 & Hne & Hq1 & Hq2).
    { intros i ->. discriminate. }
    apply (owned_twice_orphan K1 K2); [exact Hne | |];
      apply owned_step; try assumption; now apply orphan_owned.
Qed.

Lemma orphan_run req ops :
  forall w, orphan req w -> orphan req (run JSON_parse ops w).
Proof.
  induction ops as [| op ops IH]; intros w H; [exact H |].
  cbn [run fold_left]. apply IH. now apply orphan_step.
Qed.

(** X19.  A reply whose [error] member is [null] loses the request.  The
    entry is deleted from the pending map before [err.code] is read,
    and that read throws a [TypeError] out of [handleMessage]: the
    promise of the request is neither resolved nor rejected, and from
    then on nothing can settle it, whatever happens to the object. *)
Theorem null_error_reply_orphans_request
        (platform : string -> bool) (options : Options) (before after : list Op)
        (raw : string)
        (members : list (string * JSON)) (K : string) (req : PendingRequest) :
  JSON_parse raw = Some (JObject members) ->
  assoc "event" members = None ->
  assoc "id" members = Some (JString K) ->
  assoc "error" members = Some JNull ->
  let w := run JSON_parse before (new_G2 platform options) in
  map_get (pending (this w)) K = Some req ->
  let w' := fst (handleMessage JSON_parse raw w) in
  snd (handleMessage JSON_parse raw w) = Throws TypeError
  /\ map_get (pending (this w')) K = None
  /\ promise_state (run JSON_parse after w') req = Some Pending.
Proof.
  intros Hparse Hevent Hid Herror w Hget.
  destruct (reachable_unsettled JSON_parse platform options before)
    as (_ & Hnd & Hpending & Hsock).
  fold w in Hnd, Hpending, Hsock.
  pose proof (map_get_in _ _ _ Hget) as Hin.
  assert (Hw' : handleMessage JSON_parse raw w
                = (with_this (fun g => set_pending (map_delete K (pending g)) g) w,
                   Throws TypeError)).
  { unfold handleMessage. rewrite Hparse.
    unfold dispatch. cbn [has get]. rewrite Hevent, Hid, Hget, Herror. reflexivity. }
  cbv zeta. rewrite Hw'. cbn [fst snd].
  split; [reflexivity |].
  split.
  - fields. rewrite map_get_delete, String.eqb_refl. reflexivity.
  - apply orphan_run. split; [| split].
    + exact (Hpending K req Hin).
    + fields. intros k Hk.
      pose proof (in_map_delete_key _ _ _ _ Hk) as Hne.
      apply in_map_delete in Hk.
      apply Hne. exact (same_value_same_key _ k K req Hnd Hk Hin).
    + fields. intros s Hs. exact (Hsock s K req Hs Hin).
Qed.

End Orphans.

(** C2.  A request can outlive the close of the socket.  A client
    connects and sends [getStatus]; the bridge answers
    [{"id":"1","error":null}]; the socket closes.  The reply takes the
    request out of the pending map and then makes [handleMessage]
    throw, so that the promise of [send] is still pending when the
    socket closes; the close handler, which rejects the requests of
    the map, finds the map empty; and the promise is pending after the
    close and after whatever follows it: the request is never rejected
    with ["Bridge connection lost"]. *)
Theorem orphaned_request_survives_close :
  let w0 := run Replies.parse
                [CallConnectBridge; SocketOpen 0%nat; CallSend "getStatus" None]
                (new_G2 Samples.platform NoOptions) in
  let w1 := step Replies.parse (SocketMessage 0%nat Replies.null_error_text) w0 in
  let w2 := step Replies.parse (SocketClose 0%nat) w1 in
  sent w0 = [request "1" "getStatus" None]
  /\ map_get (pending (this w0)) "1" = Some 1%nat
  /\ promise_state w0 1%nat = Some Pending
  /\ handleMessage Replies.parse Replies.null_error_text w0 = (w1, Throws TypeError)
  /\ pending (this w1) = []
  /\ promise_state w1 1%nat = Some Pending
  /\ option_map readyState (nth_error (sockets w1) 0) = Some OPEN
  /\ option_map readyState (nth_error (sockets w2) 0) = Some CLOSED
  /\ pending (this w2) = []
  /\ promise_state w2 1%nat = Some Pending
  /\ forall ops, promise_state (run Replies.parse ops w2) 1%nat = Some Pending.
Proof.
  cbv zeta. do 10 (split; [reflexivity |]).
  intros ops. apply orphan_run. split; [reflexivity | split].
  - intros k Hin. vm_compute in Hin. exact Hin.
  - intros s Hin. vm_compute in Hin. destruct Hin as [<- | []]. discriminate.
Qed.

Lemma null_error_reply_orphans_request_witness :
  let before := [CallConnectBridge; SocketOpen 0%nat; CallSend "getStatus" None] in
  let after := [SocketMessage 0%nat Samples.response_text; Elapse 60000;
                SocketClose 0%nat; Elapse 60000; SocketOpen 1%nat] in
  let w := run Replies.parse before (new_G2 Samples.platform NoOptions) in
  let w' := fst (handleMessage Replies.parse Replies.null_error_text w) in
  snd (handleMessage Replies.parse Replies.null_error_text w) = Throws TypeError
  /\ map_get (pending (this w')) "1" = None
  /\ promise_state (run Replies.parse after w') 1%nat = Some Pending.
Proof.
  apply (null_error_reply_orphans_request Replies.parse Samples.platform NoOptions
           [CallConnectBridge; SocketOpen 0%nat; CallSend "getStatus" None]
           [SocketMessage 0%nat Samples.response_text; Elapse 60000;
            SocketClose 0%nat; Elapse 60000; SocketOpen 1%nat]
           Replies.null_error_text [("id", JString "1"); ("error", JNull)] "1" 1%nat);
    reflexivity.
Defined.

(** *** The ids of requests *)

Section Ids.

Variable JSON_parse : string -> option JSON.

(** The messages sent are those of the outboxes, whatever else there is
    to a socket. *)
Lemma sent_concat w : sent w = List.concat (map outbox (sockets w)).
Proof. apply flat_map_concat_map. Qed.

Lemma map_outbox_update (f : WebSocket -> WebSocket) i ss :
  (forall s, outbox (f s) = outbox s) -> map outbox (update i f ss) = map outbox ss.
Proof.
  intros Hf. revert i.
  induction ss as [| x ss IH]; intros [| i]; cbn [update map];
    rewrite ?Hf, ?IH; reflexivity.
Qed.

Lemma numbered_frame w w' :
  numbered w ->
  idCounter (this w') = idCounter (this w) ->
  map outbox (sockets w') = map outbox (sockets w) ->
  ws (this w') = ws (this w) \/ ws (this w') = None ->
  numbered w'.
Proof.
  intros (Hc & Hids & Hlast) Hcounter Hboxes Hws.
  assert (Hlen : List.length (sockets w') = List.length (sockets w))
    by (rewrite <- (length_map outbox), Hboxes; apply length_map).
  unfold numbered, sent_ids in *. rewrite !sent_concat in *.
  rewrite Hboxes, Hcounter, Hlen.
  repeat split; try assumption.
  intros i Hi. destruct Hws as [Hws | Hws]; rewrite Hws in Hi;
    [now apply Hlast | discriminate].
Qed.

Lemma numbered_socket w w' s :
  numbered w ->
  idCounter (this w') = idCounter (this w) ->
  sockets w' = sockets w ++ [s] -> outbox s = [] ->
  ws (this w') = Some (List.length (sockets w)) ->
  numbered w'.
Proof.
  intros (Hc & Hids & Hlast) Hcounter Hs Hbox Hws.
  unfold numbered, sent_ids, sent in *.
  rewrite Hs, flat_map_app. cbn [flat_map]. rewrite Hbox, !app_nil_r, Hcounter.
  repeat split; try assumption.
  intros i Hi. rewrite Hws in Hi. injection Hi as <-.
  rewrite length_app. cbn [List.length]. lia.
Qed.

(** [send] on the newest socket puts its message after all the others. *)
Lemma sent_send method params w :
  (forall i, ws (this w) = Some i -> S i = List.length (sockets w)) ->
  sent (snd (send method params w))
  = if is_open w then sent w ++ [request (next_key w) method params] else sent w.
Proof.
  intros Hlast. rewrite send_effect.
  destruct (is_open w) eqn:Hopen; [| reflexivity].
  unfold sent. fields.
  unfold is_open, ws_readyState in Hopen.
  destruct (ws (this w)) as [i |] eqn:Hws; [| discriminate].
  specialize (Hlast i eq_refl).
  destruct (sockets w) as [| x ss] eqn:Hss; [discriminate |].
  destruct (exists_last (l := x :: ss)) as (front & last & Heq); [discriminate |].
  rewrite Heq in *. rewrite length_app in Hlast. cbn [List.length] in Hlast.
  replace i with (List.length front) by lia.
  rewrite update_last, !flat_map_app. cbn [flat_map outbox].
  rewrite !app_nil_r. apply app_assoc.
Qed.

Lemma first_ids_succ n :
  first_ids (S n) = first_ids n ++ [Some (JString (toString10 (Z.of_nat n + 1)))].
Proof.
  unfold first_ids. rewrite seq_S, map_app. cbn [map].
  replace (Z.of_nat (1 + n)) with (Z.of_nat n + 1) by lia. reflexivity.
Qed.

Lemma request_id K method params : get (request K method params) "id" = Some (JString K).
Proof. reflexivity. Qed.

Lemma numbered_step op w :
  numbered w -> idCounter (this w) < 2^53 -> numbered (step JSON_parse op w).
Proof.
  intros H Hroom.
  assert (Hbox : forall f i, (forall s, outbox (f s) = outbox s) ->
                             map outbox (update i f (sockets w)) = map outbox (sockets w))
    by (intros f i Hf; now apply map_outbox_update).
  destruct op as [method params | event h | event h | | | i | i | i | i raw | ms];
    cbn [step].
  - pose proof (sent_send method params w (proj2 (proj2 H))) as Hsent.
    rewrite send_effect in *.
    destruct (is_open w) eqn:Hopen; [| apply (numbered_frame w); fields; auto].
    destruct H as (Hc & Hids & Hlast).
    unfold numbered, sent_ids. rewrite Hsent. fields.
    rewrite map_app, length_app. cbn [map List.length].
    rewrite Nat.add_1_r, first_ids_succ, request_id.
    fold (sent_ids w). rewrite Hids.
    unfold next_key, increment.
    destruct (Z.ltb_spec (idCounter (this w)) (2^53)) as [_ | Hfull]; [| lia].
    rewrite Hc. repeat split; [lia |].
    intros i Hi. destruct (ws (this w)) as [j |] eqn:Hws; [| discriminate].
    rewrite length_update. now apply Hlast.
  - apply (numbered_frame w); unfold on; fields; auto.
  - apply (numbered_frame w); unfold off; fields;
      destruct (map_get (listeners (this w)) event); fields; auto.
  - destruct (connectBridge_effect false w) as (_ & ->).
    destruct (is_open w); [| destruct (accepts w (url (this w)))].
    + apply (numbered_frame w); fields; auto.
    + eapply (numbered_socket w); fields; try reflexivity; exact H.
    + apply (numbered_frame w); fields; auto.
  - unfold closeBridge. fields.
    destruct (ws (this w)); apply (numbered_frame w); fields; auto.
    apply Hbox. intros s. unfold socket_close. now destruct (readyState s).
  - destruct (nth_error (sockets w) i) as [s |]; [| exact H].
    destruct (readyState s); try exact H.
    unfold onopen, resolve. apply (numbered_frame w); fields; auto.
  - destruct (nth_error (sockets w) i) as [s |]; [| exact H].
    rewrite onerror_effect. destruct (is_open w); [exact H |]. cbv zeta.
    destruct (retry s && _); unfold reject; apply (numbered_frame w); fields; auto.
  - destruct (nth_error (sockets w) i) as [s |]; [| exact H].
    destruct (readyState s); try exact H;
      rewrite onclose_effect; apply (numbered_frame w); fields; auto.
  - destruct (nth_error (sockets w) i); [| exact H].
    unfold handleMessage. destruct (JSON_parse raw) as [msg |]; [| exact H].
    destruct (dispatch_frame msg w) as ((_ & _ & _ & Hw & _ & Hc & _) & Hs & _).
    apply (numbered_frame w); [exact H | exact Hc | now rewrite Hs | now left].
  - set (w1 := later ms w).
    assert (H1 : numbered w1) by (apply (numbered_frame w); unfold w1; fields; auto).
    destruct (reconnectTimer (this w1)) as [due |]; [| exact H1].
    destruct (due <=? now w1); [| exact H1].
    rewrite reconnect_callback_effect.
    destruct (closed (this w1)); [apply (numbered_frame w1); fields; auto |].
    destruct (is_open w1); [| destruct (accepts w1 (url (this w1)))].
    + apply (numbered_frame w1); fields; auto.
    + eapply (numbered_socket w1); fields; try reflexivity; exact H1.
    + apply (numbered_frame w1); fields; auto.
Qed.

Lemma numbered_run ops :
  forall w, counted w -> numbered w ->
            idCounter (this w) + Z.of_nat (List.length ops) <= 2^53 ->
            numbered (run JSON_parse ops w).
Proof.
  induction ops as [| op ops IH]; intros w Hcounted H Hroom; [exact H |].
  cbn [List.length] in Hroom. cbn [run fold_left].
  pose proof (counter_step JSON_parse op w Hcounted) as Hstep.
  apply IH.
  - now apply counted_step.
  - apply numbered_step; [exact H | lia].
  - lia.
Qed.

Lemma numbered_new platform options : numbered (new_G2 platform options).
Proof.
  destruct options; repeat split; intros i Hi; discriminate Hi.
Qed.

(** What a run of fewer than 2^53 operations from [new G2] leads to. *)
Lemma reachable_numbered platform options ops :
  Z.of_nat (List.length ops) < 2^53 ->
  let w := run JSON_parse ops (new_G2 platform options) in
  counted w /\ numbered w /\ idCounter (this w) < 2^53.
Proof.
  intros Hlen w.
  pose proof (counted_new platform options) as Hcounted.
  assert (Hzero : idCounter (this (new_G2 platform options)) = 0) by (now destruct options).
  split; [now apply counted_run |].
  split; [apply numbered_run; [exact Hcounted | apply numbered_new | lia] |].
  pose proof (counter_run JSON_parse ops _ Hcounted). fold w in H. lia.
Qed.

Lemma map_set_fresh {V} (m : JSMap V) k v :
  map_get m k = None -> map_set k v m = m ++ [(k, v)].
Proof.
  unfold map_get.
  induction m as [| [k' v'] m IH]; cbn [assoc map_set app]; [reflexivity |].
  destruct (String.eqb k k'); [discriminate |].
  intros Hget. now rewrite IH.
Qed.

Lemma first_ids_below n k :
  In (Some (JString (toString10 k))) (first_ids n) -> 0 <= k -> k <= Z.of_nat n.
Proof.
  unfold first_ids. intros Hin Hk.
  apply in_map_iff in Hin. destruct Hin as (j & Heq & Hj).
  apply in_seq in Hj. injection Heq as Heq.
  apply toString10_inj in Heq; lia.
Qed.

(** C8, amended.  In a world that fewer than 2^53 operations have made
    of a new object, the keys of the pending map are pairwise distinct,
    and whatever comes next keeps them so.  A call of [send] that finds
    the socket open takes as key the text of the counter plus one;
    that key is the [id] of no message sent before, so it is the key of
    no earlier call, and it is not in the pending map; the call adds
    its request to the map under that key, behind the entries that are
    there, all of which stay, and sends its message with that [id].  A
    call that finds no open socket registers and sends nothing. *)
Theorem send_keys_fresh (platform : string -> bool) (options : Options) (ops : list Op)
        (method : string) (params : option JSON) :
  Z.of_nat (List.length ops) < 2^53 ->
  let w := run JSON_parse ops (new_G2 platform options) in
  let K := toString10 (idCounter (this w) + 1) in
  let req := fst (send method params w) in
  let w' := snd (send method params w) in
  NoDup (keys (pending (this w)))
  /\ (forall op, NoDup (keys (pending (this (step JSON_parse op w)))))
  /\ if is_open w
     then ~ In (Some (JString K)) (sent_ids w)
          /\ map_get (pending (this w)) K = None
          /\ pending (this w') = pending (this w) ++ [(K, req)]
          /\ sent w' = sent w ++ [request K method params]
     else pending (this w') = pending (this w) /\ sent w' = sent w.
Proof.
  intros Hlen w K req w'.
  destruct (reachable_numbered platform options ops Hlen)
    as ((Hrange & Hkeys) & (Hc & Hids & Hlast) & Hroom).
  fold w in Hrange, Hkeys, Hc, Hids, Hlast, Hroom.
  assert (Hnd : NoDup (keys (pending (this w)))).
  { apply NoDup_keys_run. destruct options; constructor. }
  assert (Hkey : next_key w = K).
  { unfold next_key, increment, K.
    destruct (Z.ltb_spec (idCounter (this w)) (2^53)); [reflexivity | lia]. }
  split; [exact Hnd |].
  split; [intros op; now apply NoDup_keys_step |].
  pose proof (sent_send method params w Hlast) as Hsent. fold w' in Hsent.
  destruct (is_open w) eqn:Hopen.
  - assert (Hfresh : map_get (pending (this w)) K = None).
    { destruct (map_get (pending (this w)) K) as [r |] eqn:Hget; [| reflexivity].
      exfalso. apply map_get_in in Hget.
      assert (Hin : In K (keys (pending (this w))))
        by (apply (in_map fst) in Hget; exact Hget).
      destruct (Hkeys _ Hin) as (n & Hn & Heq).
      apply toString10_inj in Heq; lia. }
    split; [| split; [exact Hfresh | split]].
    + rewrite Hids. intros Hin. apply first_ids_below in Hin; lia.
    + destruct (send_open method params w Hopen) as (_ & _ & _ & Hmap & _).
      fold w' req in Hmap. rewrite Hmap, Hkey. now apply map_set_fresh.
    + now rewrite Hsent, Hkey.
  - split; [| exact Hsent].
    destruct (send_closed method params w Hopen) as (_ & _ & Hthis).
    fold w' in Hthis. now rewrite Hthis.
Qed.

(** X20.  The ids of a client count from one.  In a world that fewer than
    2^53 operations have made of a new object, the messages sent so far
    have the ids ["1"], ["2"], and so on, in the order in which they
    were sent, whatever else has happened in between, and the counter
    is their number.  The next call of [send] that finds the socket
    open sends one more message, with the next number as [id]; a call
    that is rejected for want of an open socket sends nothing and uses
    no id. *)
Theorem request_ids_count_from_one
        (platform : string -> bool) (options : Options) (ops : list Op)
        (method : string) (params : option JSON) :
  Z.of_nat (List.length ops) < 2^53 ->
  let w := run JSON_parse ops (new_G2 platform options) in
  let n := List.length (sent w) in
  let w' := snd (send method params w) in
  sent_ids w = first_ids n
  /\ idCounter (this w) = Z.of_nat n
  /\ if is_open w
     then sent w' = sent w ++ [request (toString10 (Z.of_nat n + 1)) method params]
          /\ sent_ids w' = first_ids (S n)
          /\ idCounter (this w') = Z.of_nat n + 1
     else sent w' = sent w /\ idCounter (this w') = idCounter (this w).
Proof.
  intros Hlen w n w'.
  destruct (reachable_numbered platform options ops Hlen) as (_ & (Hc & Hids & Hlast) & Hroom).
  fold w in Hc, Hids, Hlast, Hroom. fold n in Hc, Hids.
  split; [exact Hids |]. split; [exact Hc |].
  pose proof (sent_send method params w Hlast) as Hsent. fold w' in Hsent.
  assert (Hkey : next_key w = toString10 (Z.of_nat n + 1)).
  { unfold next_key, increment.
    destruct (Z.ltb_spec (idCounter (this w)) (2^53)); [now rewrite Hc | lia]. }
  destruct (is_open w) eqn:Hopen.
  - rewrite Hkey in Hsent. split; [exact Hsent |].
    split.
    + unfold sent_ids. rewrite Hsent, map_app. cbn [map].
      fold (sent_ids w). now rewrite Hids, first_ids_succ, request_id.
    + destruct (send_open method params w Hopen) as (_ & _ & Hcount & _).
      fold w' in Hcount. rewrite Hcount. unfold increment.
      destruct (Z.ltb_spec (idCounter (this w)) (2^53)); lia.
  - split; [exact Hsent |].
    destruct (send_closed method params w Hopen) as (_ & _ & Hthis).
    fold w' in Hthis. now rewrite Hthis.
Qed.

End Ids.

Lemma send_keys_fresh_witness :
  let ops := [CallConnectBridge; SocketOpen 0%nat; CallSend "connect" None;
              CallSend "getStatus" None] in
  let w := run Samples.parse ops (new_G2 Samples.platform NoOptions) in
  let req := fst (send "setText" (Some (JObject [("text", JString "hi")])) w) in
  let w' := snd (send "setText" (Some (JObject [("text", JString "hi")])) w) in
  is_open w = true
  /\ ~ In (Some (JString "3")) (sent_ids w)
  /\ map_get (pending (this w)) "3" = None
  /\ pending (this w') = pending (this w) ++ [("3", req)]
  /\ sent w' = sent w ++ [request "3" "setText" (Some (JObject [("text", JString "hi")]))].
Proof.
  split; [reflexivity |].
  assert (Hlen : Z.of_nat (List.length [CallConnectBridge; SocketOpen 0%nat;
                                        CallSend "connect" None;
                                        CallSend "getStatus" None]) < 2^53)
    by (cbn; lia).
  destruct (send_keys_fresh Samples.parse Samples.platform NoOptions
              [CallConnectBridge; SocketOpen 0%nat; CallSend "connect" None;
               CallSend "getStatus" None]
              "setText" (Some (JObject [("text", JString "hi")])) Hlen)
    as (_ & _ & Hsend).
  exact Hsend.
Defined.

Lemma request_ids_count_from_one_witness :
  let ops := [CallSend "connect" None; CallConnectBridge; SocketOpen 0%nat;
              CallSend "connect" None; SocketMessage 0%nat Samples.response_text;
              CallSend "setText" (Some (JObject [("text", JString "hi")]));
              Elapse 1000; CallCloseBridge; CallConnectBridge; SocketOpen 1%nat] in
  let w := run Samples.parse ops (new_G2 Samples.platform NoOptions) in
  let w' := snd (send "getStatus" None w) in
  sent_ids w = [Some (JString "1"); Some (JString "2")]
  /\ idCounter (this w) = 2
  /\ sent w' = sent w ++ [request "3" "getStatus" None]
  /\ sent_ids w' = [Some (JString "1"); Some (JString "2"); Some (JString "3")]
  /\ idCounter (this w') = 3.
Proof.
  assert (Hlen : Z.of_nat (List.length
                   [CallSend "connect" None; CallConnectBridge; SocketOpen 0%nat;
                    CallSend "connect" None; SocketMessage 0%nat Samples.response_text;
                    CallSend "setText" (Some (JObject [("text", JString "hi")]));
                    Elapse 1000; CallCloseBridge; CallConnectBridge; SocketOpen 1%nat])
                 < 2^53)
    by (cbn; lia).
  destruct (request_ids_count_from_one Samples.parse Samples.platform NoOptions
              [CallSend "connect" None; CallConnectBridge; SocketOpen 0%nat;
               CallSend "connect" None; SocketMessage 0%nat Samples.response_text;
               CallSend "setText" (Some (JObject [("text", JString "hi")]));
               Elapse 1000; CallCloseBridge; CallConnectBridge; SocketOpen 1%nat]
              "getStatus" None Hlen)
    as (Hids & Hcount & Hsend).
  split; [exact Hids |]. split; [exact Hcount |]. exact Hsend.
Defined.

(** *** Replies that come twice *)

Section Duplicates.

Variable JSON_parse : string -> option JSON.

(** X21.  A reply that arrives a second time changes nothing: after
    [handleMessage] has dealt with a message that has no [event]
    member, the same message again leaves every request, promise and
    socket as it is. *)
Theorem duplicate_reply_is_ignored (raw : string) (w : World) :
  match JSON_parse raw with
  | Some msg => has "event" msg <> Some true
  | None => True
  end ->
  let w1 := fst (handleMessage JSON_parse raw w) in
  fst (handleMessage JSON_parse raw w1) = w1.
Proof.
  cbv zeta. unfold handleMessage.
  destruct (JSON_parse raw) as [msg |]; [| reflexivity].
  intros Hevent. unfold dispatch.
  destruct (has "event" msg) as [[|] |]; [congruence | | reflexivity].
  destruct (get msg "id") as [[| | | k | |] |]; try reflexivity.
  destruct (map_get (pending (this w)) k) as [req |] eqn:Hget.
  - assert (Hgone : forall w0, pending (this w0) = map_delete k (pending (this w)) ->
                               map_get (pending (this w0)) k = None).
    { intros w0 ->. now rewrite map_get_delete, String.eqb_refl. }
    destruct (get msg "error") as [[| | | | |] |];
      try destruct (converts _ && converts _); cbn [fst];
      rewrite Hgone by reflexivity; reflexivity.
  - cbn [fst]. now rewrite Hget.
Qed.

End Duplicates.

Lemma duplicate_reply_is_ignored_witness :
  let w1 := fst (handleMessage Samples.parse Samples.response_text Samples.waiting) in
  fst (handleMessage Samples.parse Samples.response_text w1) = w1.
Proof.
  apply (duplicate_reply_is_ignored Samples.parse Samples.response_text Samples.waiting).
  vm_compute. discriminate.
Defined.

(** *** Without [autoReconnect] *)

Lemma Forall_update {A} (P : A -> Prop) (f : A -> A) (l : list A) :
  (forall x, P x -> P (f x)) ->
  forall i, Forall P l -> Forall P (update i f l).
Proof.
  intros Hf i Hall. revert i.
  induction Hall as [| x l Hx Hall IH]; intros i; [destruct i; constructor |].
  destruct i; cbn [update]; constructor; auto.
Qed.

Section Manual.

Variable JSON_parse : string -> option JSON.

Lemma manual_step op w :
  autoReconnect (this w) = false -> reconnectTimer (this w) = None ->
  Forall (fun s => retry s = false) (sockets w) ->
  let w' := step JSON_parse op w in
  autoReconnect (this w') = false /\ reconnectTimer (this w') = None
  /\ Forall (fun s => retry s = false) (sockets w')
  /\ (List.length (sockets w')
      <= List.length (sockets w) + (if no_connect op then 0 else 1))%nat.
Proof.
  intros Hauto Htimer Hretry. cbv zeta.
  assert (Hupd : forall f i, (forall s, retry (f s) = retry s) ->
                             Forall (fun s => retry s = false) (update i f (sockets w))).
  { intros f i Hf. apply Forall_update; [| exact Hretry]. intros s. now rewrite Hf. }
  destruct op as [method params | event h | event h | | | i | i | i | i raw | ms];
    cbn [step no_connect].
  - rewrite send_effect. destruct (is_open w); fields; repeat split; try assumption; try lia.
    + destruct (ws (this w)); [now apply Hupd | exact Hretry].
    + destruct (ws (this w)); [rewrite length_update |]; lia.
  - unfold on. fields. repeat split; try assumption; lia.
  - unfold off. fields.
    destruct (map_get (listeners (this w)) event); fields;
      repeat split; try assumption; lia.
  - destruct (connectBridge_effect false w) as (_ & ->).
    destruct (is_open w); [| destruct (accepts w (url (this w)))];
      fields; repeat split; try assumption; try lia.
    + apply Forall_app. split; [exact Hretry | repeat constructor].
    + rewrite length_app. cbn [List.length]. lia.
  - unfold closeBridge. fields.
    destruct (ws (this w)) eqn:Hws; fields; repeat split; try assumption; try lia.
    + apply Hupd. intros s. unfold socket_close. now destruct (readyState s).
    + rewrite length_update. lia.
  - destruct (nth_error (sockets w) i) as [s |]; [| repeat split; try assumption; lia].
    destruct (readyState s); try (repeat split; try assumption; lia).
    unfold onopen, resolve. fields. repeat split; try assumption.
    + now apply Hupd.
    + rewrite length_update. lia.
  - destruct (nth_error (sockets w) i) as [s |] eqn:Hs;
      [| repeat split; try assumption; lia].
    assert (Hrs : retry s = false).
    { rewrite Forall_forall in Hretry. apply Hretry. now apply nth_error_In with i. }
    rewrite onerror_effect. cbv zeta. rewrite Hrs. cbn [andb].
    destruct (is_open w); unfold reject; fields; repeat split; try assumption; lia.
  - destruct (nth_error (sockets w) i) as [s |]; [| repeat split; try assumption; lia].
    assert (Hclose : autoReconnect (this (onclose (with_sockets (update i (set_readyState CLOSED)) w)))
                     = false
                     /\ reconnectTimer (this (onclose (with_sockets (update i (set_readyState CLOSED)) w)))
                        = None
                     /\ Forall (fun s0 => retry s0 = false)
                               (sockets (onclose (with_sockets (update i (set_readyState CLOSED)) w)))
                     /\ (List.length (sockets (onclose (with_sockets (update i (set_readyState CLOSED)) w)))
                         <= List.length (sockets w) + 0)%nat).
    { rewrite onclose_effect. fields. rewrite Hauto. fields.
      repeat split; try assumption.
      - now apply Hupd.
      - rewrite length_update. lia. }
    destruct (readyState s); try exact Hclose. repeat split; try assumption; lia.
  - destruct (nth_error (sockets w) i); [| repeat split; try assumption; lia].
    unfold handleMessage.
    destruct (JSON_parse raw) as [msg |];
      [| cbn [fst]; repeat split; try assumption; lia].
    destruct (dispatch_frame msg w) as ((_ & Ha & _ & _ & _ & _ & _ & Ht) & Hs & _).
    rewrite Ha, Ht, Hs. repeat split; try assumption; lia.
  - set (w1 := later ms w).
    change (reconnectTimer (this w1)) with (reconnectTimer (this w)).
    rewrite Htimer. unfold w1. fields. repeat split; try assumption; lia.
Qed.

(** X22.  With [autoReconnect: false] the client never connects by itself:
    in every world that a run from [new G2({ autoReconnect: false })]
    reaches, no reconnect timer is set, no socket was made by the
    timer, and there are at most as many sockets as there were calls
    of [connectBridge]. *)
Theorem no_reconnect_without_autoReconnect
        (platform : string -> bool) (u : option string) (d : option Z) (ops : list Op) :
  let w := run JSON_parse ops (new_G2 platform (ObjectOptions u (Some false) d)) in
  reconnectTimer (this w) = None
  /\ Forall (fun s => retry s = false) (sockets w)
  /\ (List.length (sockets w)
      <= List.length (filter (fun op => negb (no_connect op)) ops))%nat.
Proof.
  cbv zeta.
  assert (Hrun : forall w0,
             autoReconnect (this w0) = false -> reconnectTimer (this w0) = None ->
             Forall (fun s => retry s = false) (sockets w0) ->
             let w := run JSON_parse ops w0 in
             reconnectTimer (this w) = None
             /\ Forall (fun s => retry s = false) (sockets w)
             /\ (List.length (sockets w)
                 <= List.length (sockets w0)
                    + List.length (filter (fun op => negb (no_connect op)) ops))%nat).
  { induction ops as [| op ops' IH]; intros w0 Ha Ht Hr; cbv zeta.
    - cbn [run fold_left filter List.length]. repeat split; try assumption. lia.
    - cbn [run fold_left]. fold (run JSON_parse ops' (step JSON_parse op w0)).
      destruct (manual_step op w0 Ha Ht Hr) as (Ha' & Ht' & Hr' & Hl').
      destruct (IH _ Ha' Ht' Hr') as (Ht2 & Hr2 & Hl2).
      repeat split; try assumption.
      cbn [filter]. destruct (no_connect op); cbn [negb List.length] in *; lia. }
  destruct (Hrun (new_G2 platform (ObjectOptions u (Some false) d))) as (Ht & Hr & Hl);
    [reflexivity | reflexivity | constructor |].
  repeat split; assumption.
Qed.

End Manual.

End ClientFacts.


(* ================================================================== *)
(** ** More facts about raw commands *)
(* ================================================================== *)

Module RawReplyFacts.

Import JS Sdk RawCommand Invariants Views SdkFacts ClientFacts.

(** [handleMessage] settles no promise but that of a pending entry. *)
Lemma dispatch_promise_other msg w q :
  (forall k, ~ In (k, q) (pending (this w))) ->
  promise_state (fst (dispatch msg w)) q = promise_state w q.
Proof.
  intros Hnot. unfold dispatch.
  destruct (has "event" msg) as [[|] |]; cbn [fst]; try reflexivity.
  destruct (get msg "id") as [[| | | k | |] |]; try reflexivity.
  destruct (map_get (pending (this w)) k) as [r |] eqn:Hget; [| reflexivity].
  assert (r <> q) by (intros ->; exact (Hnot k (map_get_in _ _ _ Hget))).
  destruct (get msg "error") as [[| | | | |] |];
    try destruct (converts _ && converts _);
    unfold reject, resolve, promise_state;
    fields; try reflexivity; now apply settle_other.
Qed.

Section Replies.

Variable JSON_parse : string -> option JSON.

Lemma raw_listeners_run_app i raw l1 :
  forall l2 w,
    raw_listeners_run JSON_parse i raw (l1 ++ l2) w
    = (fst (raw_listeners_run JSON_parse i raw l2
              (fst (raw_listeners_run JSON_parse i raw l1 w))),
       snd (raw_listeners_run JSON_parse i raw l1 w)
       ++ snd (raw_listeners_run JSON_parse i raw l2
                 (fst (raw_listeners_run JSON_parse i raw l1 w)))).
Proof.
  induction l1 as [| l l1 IH]; intros l2 w; cbn [app raw_listeners_run].
  - cbn [fst snd app]. now destruct (raw_listeners_run JSON_parse i raw l2 w).
  - destruct (if Nat.eqb (raw_socket l) i
              then match JSON_parse raw with
                   | Some data => raw_answer (raw_id l) data
                   | None => Ignored
                   end
              else Ignored) as [| st |].
    + rewrite IH.
      destruct (raw_listeners_run JSON_parse i raw l1 w) as [w1 k1].
      cbn [fst snd app]. reflexivity.
    + apply IH.
    + apply IH.
Qed.

(** The listeners of other promises leave a promise alone, and no
    listener is added by a message. *)
Lemma raw_listeners_run_other i raw q ls :
  forall w,
    Forall (fun l => raw_promise l <> q) ls ->
    promise_state (fst (raw_listeners_run JSON_parse i raw ls w)) q = promise_state w q
    /\ Forall (fun l => raw_promise l <> q) (snd (raw_listeners_run JSON_parse i raw ls w)).
Proof.
  induction ls as [| l ls IH]; intros w Hall; cbn [raw_listeners_run].
  - split; [reflexivity | constructor].
  - apply Forall_cons_iff in Hall. destruct Hall as [Hl Hall].
    destruct (if Nat.eqb (raw_socket l) i
              then match JSON_parse raw with
                   | Some data => raw_answer (raw_id l) data
                   | None => Ignored
                   end
              else Ignored) as [| st |].
    + destruct (IH w Hall) as (Hq & Hkept).
      destruct (raw_listeners_run JSON_parse i raw ls w) as [w1 k1].
      split; [exact Hq | constructor; assumption].
    + destruct (IH (with_promises (settle (raw_promise l) st) w) Hall) as (-> & Hkept).
      split; [| exact Hkept].
      unfold promise_state. fields. now apply settle_other.
    + exact (IH w Hall).
Qed.

(** X23.  A raw command and its answer.  On an open socket [sendRaw] puts one
    message on the socket, with the id that it made from the clock and
    the random number; when a reply with that id and without [error]
    comes back, the promise that [sendRaw] returned is resolved with
    [data.result?.responses ?? []] and its listener is taken off,
    whatever the client itself and the listeners of earlier raw
    commands make of the message. *)
Theorem sendRaw_reply_roundtrip
        (clock : Z) (random : string) (svcHi svcLo payload wait : JSON)
        (rw : RawWorld) (i : nat) (s : WebSocket)
        (raw : string) (members : list (string * JSON)) :
  ws (this (base rw)) = Some i ->
  nth_error (sockets (base rw)) i = Some s -> readyState s = OPEN ->
  well_formed (base rw) ->
  Forall (fun l => (raw_promise l < List.length (promises (base rw)))%nat)
         (raw_listeners rw) ->
  JSON_parse raw = Some (JObject members) ->
  assoc "id" members = Some (JString (JS.toString10 clock ++ random)) ->
  assoc "error" members = None ->
  let id := (JS.toString10 clock ++ random)%string in
  let p := fst (sendRaw clock random svcHi svcLo payload wait rw) in
  let rw1 := snd (sendRaw clock random svcHi svcLo payload wait rw) in
  let rw2 := raw_message JSON_parse i raw rw1 in
  option_map outbox (nth_error (sockets (base rw1)) i)
  = Some (outbox s
          ++ [JObject [("id", JString id); ("method", JString "sendRaw");
                       ("params", JObject [("svcHi", svcHi); ("svcLo", svcLo);
                                           ("payload", payload); ("wait", wait)])]])
  /\ promise_state (base rw1) p = Some Pending
  /\ promise_state (base rw2) p
     = Some (Fulfilled (Some (orEmptyArray
                                (match assoc "result" members with
                                 | Some r => get r "responses"
                                 | None => None
                                 end))))
  /\ Forall (fun l => raw_promise l <> p) (raw_listeners rw2).
Proof.
  intros Hws Hs Hopen Hwf Hold Hparse Hid Herror.
  cbv zeta.
  set (id := (JS.toString10 clock ++ random)%string) in *.
  set (p := List.length (promises (base rw))).
  set (msg := JObject [("id", JString id); ("method", JString "sendRaw");
                       ("params", JObject [("svcHi", svcHi); ("svcLo", svcLo);
                                           ("payload", payload); ("wait", wait)])]).
  set (w1 := with_sockets
               (update i (fun s0 => mkWebSocket (readyState s0) (outbox s0 ++ [msg])
                                                (awaiting s0) (retry s0)))
               (with_promises (fun ps => ps ++ [Pending]) (base rw))).
  assert (Hsend : sendRaw clock random svcHi svcLo payload wait rw
                  = (p, mkRawWorld w1 (raw_listeners rw ++ [mkRawListener i id p]))).
  { unfold sendRaw. cbn [new_promise]. fields. rewrite Hws, Hs. fields.
    rewrite Hopen. reflexivity. }
  rewrite Hsend. cbn [fst snd base raw_listeners].
  assert (Hsock : nth_error (sockets w1) i
                  = Some (mkWebSocket (readyState s) (outbox s ++ [msg])
                                      (awaiting s) (retry s))).
  { unfold w1. fields. now rewrite nth_error_update, Nat.eqb_refl, Hs. }
  assert (Hp1 : promise_state w1 p = Some Pending)
    by (unfold promise_state, w1, p; fields; apply nth_error_last).
  split; [rewrite Hsock; reflexivity |].
  split; [exact Hp1 |].
  unfold raw_message. cbn [step base raw_listeners]. rewrite Hsock.
  unfold handleMessage. rewrite Hparse.
  set (w2 := fst (dispatch (JObject members) w1)).
  assert (Hp2 : promise_state w2 p = Some Pending).
  { unfold w2. rewrite dispatch_promise_other; [exact Hp1 |].
    intros k Hin. destruct Hwf as (Hpending & _).
    specialize (Hpending k p Hin). unfold p in Hpending. lia. }
  assert (Hne : Forall (fun l => raw_promise l <> p) (raw_listeners rw)).
  { apply (Forall_impl _ (P := fun l => (raw_promise l < p)%nat)); [| exact Hold].
    intros l Hl. lia. }
  rewrite raw_listeners_run_app.
  destruct (raw_listeners_run_other i raw p (raw_listeners rw) w2 Hne) as (Hp3 & Hkept).
  destruct (raw_listeners_run JSON_parse i raw (raw_listeners rw) w2) as [w3 kept].
  cbn [fst snd] in *.
  cbn [raw_listeners_run raw_socket raw_id raw_promise].
  rewrite Nat.eqb_refl, Hparse.
  unfold raw_answer. cbn [get]. rewrite Hid, String.eqb_refl, Herror.
  cbn [fst snd base raw_listeners]. rewrite app_nil_r.
  split; [| exact Hkept].
  unfold promise_state in *. fields.
  rewrite settle_at, Hp3, Hp2. reflexivity.
Qed.

End Replies.

Lemma sendRaw_reply_roundtrip_witness :
  let hi := JNumber (S754_finite false 1 7) in
  let lo := JNumber (S754_finite false 1 5) in
  let hex := JString "080c10015a040a020800" in
  let wait := JNumber (S754_finite false 3 (-1)) in
  let rw := mkRawWorld Samples.waiting [] in
  let p := fst (sendRaw 1770000000000 "0.25" hi lo hex wait rw) in
  let rw1 := snd (sendRaw 1770000000000 "0.25" hi lo hex wait rw) in
  let rw2 := raw_message Samples.parse 0 Samples.raw_reply_text rw1 in
  option_map outbox (nth_error (sockets (base rw1)) 0)
  = Some (outbox (mkWebSocket OPEN [request "1" "getStatus" None] 0%nat false)
          ++ [JObject [("id", JString (JS.toString10 1770000000000 ++ "0.25"));
                       ("method", JString "sendRaw");
                       ("params", JObject [("svcHi", hi); ("svcLo", lo);
                                           ("payload", hex); ("wait", wait)])]])
  /\ promise_state (base rw1) p = Some Pending
  /\ promise_state (base rw2) p
     = Some (Fulfilled (Some (orEmptyArray
                                (match assoc "result"
                                         [("id", JString "17700000000000.25");
                                          ("result",
                                           JObject [("responses", JArray [JString "aa21"])])]
                                 with
                                 | Some r => get r "responses"
                                 | None => None
                                 end))))
  /\ Forall (fun l => raw_promise l <> p) (raw_listeners rw2).
Proof.
  apply (sendRaw_reply_roundtrip Samples.parse 1770000000000 "0.25"
           (JNumber (S754_finite false 1 7)) (JNumber (S754_finite false 1 5))
           (JString "080c10015a040a020800") (JNumber (S754_finite false 3 (-1)))
           (mkRawWorld Samples.waiting []) 0%nat
           (mkWebSocket OPEN [request "1" "getStatus" None] 0%nat false)
           Samples.raw_reply_text
           [("id", JString "17700000000000.25");
            ("result", JObject [("responses", JArray [JString "aa21"])])]);
    try reflexivity.
  - apply (well_formed_run Samples.parse
             [CallConnectBridge; SocketOpen 0%nat; CallOn "response" 7%nat;
              CallSend "getStatus" None]).
    apply well_formed_new.
  - constructor.
Defined.

End RawReplyFacts.


(* ================================================================== *)
(** ** Facts about printing a response *)
(* ================================================================== *)

Module PrintingFacts.

Import JS JSFacts DeviceInfo DeviceInfoFacts Payload PayloadFacts Printing.

Lemma length_append (a b : string) :
  String.length (a ++ b) = (String.length a + String.length b)%nat.
Proof.
  induction a as [| c a IH]; cbn [String.append String.length]; [reflexivity | now rewrite IH].
Qed.

Lemma append_assoc (a b c : string) : ((a ++ b) ++ c = a ++ b ++ c)%string.
Proof.
  induction a as [| x a IH]; cbn [String.append]; [reflexivity | now rewrite IH].
Qed.

Lemma substring_skip (a s : string) n m :
  substring (String.length a + n) m (a ++ s) = substring n m s.
Proof.
  induction a as [| c a IH]; cbn [String.append String.length Nat.add substring];
    [reflexivity | exact IH].
Qed.

Lemma substring_take (a s : string) : substring 0 (String.length a) (a ++ s) = a.
Proof.
  induction a as [| c a IH]; cbn [String.append String.length substring].
  - destruct s; reflexivity.
  - now rewrite IH.
Qed.

Lemma to_hex_app (a b : list Z) : to_hex (a ++ b) = (to_hex a ++ to_hex b)%string.
Proof.
  induction a as [| x a IH]; cbn [app to_hex]; [reflexivity |].
  now rewrite IH, append_assoc.
Qed.

(** The hexadecimal text of [b] inside that of [a ++ b ++ c]. *)
Lemma slice_hex (a b c : list Z) :
  slice (to_hex (a ++ b ++ c)) (2 * JS.length a) (2 * JS.length a + 2 * JS.length b)
  = to_hex b.
Proof.
  unfold slice, clamp_index, JS.length.
  rewrite length_to_hex, !length_app.
  destruct (2 * Z.of_nat (List.length a) <? 0) eqn:H1; [apply Z.ltb_lt in H1; lia |].
  destruct (2 * Z.of_nat (List.length a) + 2 * Z.of_nat (List.length b) <? 0) eqn:H2;
    [apply Z.ltb_lt in H2; lia |].
  rewrite !Z.min_l by lia.
  rewrite !to_hex_app.
  replace (Z.to_nat (2 * Z.of_nat (List.length a)))
    with (String.length (to_hex a) + 0)%nat by (rewrite length_to_hex; lia).
  rewrite substring_skip.
  replace (Z.to_nat (2 * Z.of_nat (List.length a) + 2 * Z.of_nat (List.length b)
                     - 2 * Z.of_nat (List.length a)))
    with (String.length (to_hex b)) by (rewrite length_to_hex; lia).
  apply substring_take.
Qed.

Lemma parseInt16_byte b : byte b -> parseInt16 (byte_hex b) = Some b.
Proof.
  intros Hb.
  pose (P := fun b => match parseInt16 (byte_hex b) with
                       | Some n => n =? b
                       | None => false
                       end).
  assert (H : P b = true) by by_range P 256%nat Hb.
  unfold P in H. destruct (parseInt16 (byte_hex b)); [| discriminate].
  apply Z.eqb_eq in H. now subst.
Qed.

(** The second pass of [printResponse] on a message made of parts. *)
Lemma parse_inner inner fuel :
  Forall part_ok inner -> (List.length inner < fuel)%nat ->
  parseProtobuf fuel (to_hex (payload inner)) = Some (Return (map record_of inner)).
Proof.
  intros Hok Hfuel.
  pose proof (payload_bytes inner Hok) as Hbytes.
  unfold parseProtobuf.
  rewrite <- toHex_to_hex by exact Hbytes.
  rewrite from_hex_toHex by exact Hbytes.
  now apply parse_payload.
Qed.

Lemma print_fields_items fuel items :
  forall out,
    Forall item_ok items ->
    Forall (fun it => match it with
                      | INumber _ _ => True
                      | IMessage _ inner => (List.length inner < fuel)%nat
                      end) items ->
    print_fields fuel (map record_of (map item_part items)) out
    = Some (Done (out ++ flat_map item_lines items)).
Proof.
  induction items as [| it items IH]; intros out Hok Hfuel.
  - cbn [map print_fields flat_map]. now rewrite app_nil_r.
  - apply Forall_cons_iff in Hok. destruct Hok as [[_ Hit] Hok].
    apply Forall_cons_iff in Hfuel. destruct Hfuel as [Hf Hfuel].
    destruct it as [f v | f inner];
      cbn [map item_part record_of print_fields flat_map item_lines].
    + rewrite IH by assumption. now rewrite <- app_assoc.
    + rewrite (parse_inner inner fuel Hit Hf).
      rewrite IH by assumption.
      rewrite map_map, <- !app_assoc. reflexivity.
Qed.

Lemma payload_empty parts :
  Forall part_ok parts -> payload parts = [] -> parts = [].
Proof.
  intros Hok Hempty. destruct parts as [| p parts]; [reflexivity |].
  apply Forall_cons_iff in Hok. destruct Hok as [Hp _].
  destruct (part_bytes_ok p Hp) as [_ Hne].
  cbn [payload flat_map] in Hempty. apply app_eq_nil in Hempty. tauto.
Qed.

(** X24.  A response whose payload is made of numbers and of messages is
    printed field by field.  The first line gives the two bytes of the
    service, read from the seventh and eighth byte of the response,
    and the hexadecimal text of the payload, which is the response
    without its first eight and its last two bytes; then comes one
    line for each field and, below the line of a message, one line for
    each of its parts.  A response without payload is printed as
    ["Short"], with no service. *)
Theorem printResponse_prints_fields
        (head : list Z) (hi lo : Z) (items : list Item) (crc : list Z) (fuel : nat) :
  List.length head = 6%nat -> List.length crc = 2%nat ->
  Forall byte head -> byte hi -> byte lo -> Forall byte crc ->
  Forall item_ok items -> enough fuel items ->
  let body := payload (map item_part items) in
  let raw := response head hi lo body crc in
  printResponse fuel raw
  = Some (Done (match items with
                | [] => [("    Short: " ++ raw)%string]
                | _ =>
                    ("    Service: 0x" ++ byte_hex hi ++ "-" ++ byte_hex lo
                     ++ "  Payload: " ++ toHex body)%string
                    :: flat_map item_lines items
                end)).
Proof.
  intros Hhead Hcrc Hbh Hhi Hlo Hbc Hitems (Hfuel & Hinner).
  assert (Hshape : items = [] \/ items <> [])
    by (destruct items; [left; reflexivity | right; discriminate]).
  assert (Hgoal :
    let body := payload (map item_part items) in
    let raw := response head hi lo body crc in
    printResponse fuel raw
    = Some (Done (if JS.length body =? 0
                  then [("    Short: " ++ raw)%string]
                  else ("    Service: 0x" ++ byte_hex hi ++ "-" ++ byte_hex lo
                        ++ "  Payload: " ++ toHex body)%string
                       :: flat_map item_lines items))).
  { intros body raw.
    assert (Hparts : Forall part_ok (map item_part items)).
    { apply Forall_map. eapply Forall_impl; [| exact Hitems]. intros it [H _]. exact H. }
    pose proof (payload_bytes _ Hparts) as Hbody. fold body in Hbody.
    assert (Hall : Forall byte (head ++ [hi; lo] ++ body ++ crc)).
    { apply Forall_app. split; [exact Hbh |].
      constructor; [exact Hhi |]. constructor; [exact Hlo |].
      apply Forall_app. split; assumption. }
    assert (Hraw : raw = to_hex (head ++ [hi; lo] ++ body ++ crc))
      by (apply toHex_to_hex, Hall).
    assert (Hlen : Z.of_nat (String.length raw) = 20 + 2 * JS.length body).
    { rewrite Hraw, length_to_hex, !length_app. cbn [List.length].
      unfold JS.length. lia. }
    assert (Hnn : 0 <= JS.length body) by (unfold JS.length; lia).
    unfold printResponse. rewrite Hlen.
    destruct (Z.eqb_spec (JS.length body) 0) as [Hzero | Hpos].
    { rewrite Hzero. reflexivity. }
    replace (20 + 2 * JS.length body <=? 20) with false by (symmetry; apply Z.leb_gt; lia).
    assert (Hs1 : slice raw 12 14 = byte_hex hi).
    { rewrite Hraw.
      pose proof (slice_hex head [hi] ([lo] ++ body ++ crc)) as H.
      unfold JS.length in H. rewrite Hhead in H. cbn [List.length] in H.
      cbn [to_hex] in H. exact H. }
    assert (Hs2 : slice raw 14 16 = byte_hex lo).
    { rewrite Hraw.
      pose proof (slice_hex (head ++ [hi]) [lo] (body ++ crc)) as H.
      unfold JS.length in H. rewrite length_app, Hhead in H. cbn [List.length] in H.
      cbn [to_hex] in H. rewrite <- app_assoc in H. exact H. }
    assert (Hs3 : slice raw 16 (20 + 2 * JS.length body - 4) = to_hex body).
    { rewrite Hraw.
      pose proof (slice_hex (head ++ [hi; lo]) body crc) as H.
      unfold JS.length in H. rewrite length_app, Hhead in H. cbn [List.length] in H.
      rewrite <- app_assoc in H.
      replace (20 + 2 * JS.length body - 4) with (2 * Z.of_nat (6 + 2) + 2 * JS.length body)
        by lia.
      exact H. }
    cbv zeta. rewrite Hs1, Hs2, Hs3.
    rewrite (parseInt16_byte hi Hhi), (parseInt16_byte lo Hlo).
    unfold service_text. rewrite (byte_text hi Hhi), (byte_text lo Hlo).
    rewrite <- (toHex_to_hex body Hbody).
    destruct (toHex body) as [| c text] eqn:Htext.
    { exfalso. apply (f_equal String.length) in Htext.
      rewrite (toHex_to_hex body Hbody), length_to_hex in Htext.
      unfold JS.length in Hpos, Hnn. cbn [String.length] in Htext. lia. }
    rewrite <- Htext.
    unfold parseProtobuf. rewrite (from_hex_toHex body Hbody).
    unfold body at 1. rewrite (parse_payload _ fuel Hparts) by (rewrite length_map; exact Hfuel).
    now rewrite print_fields_items. }
  cbv zeta in *. rewrite Hgoal.
  destruct items as [| it rest]; [reflexivity |].
  replace (JS.length (payload (map item_part (it :: rest))) =? 0) with false; [reflexivity |].
  symmetry. apply Z.eqb_neq. intros Hzero.
  assert (Hempty : payload (map item_part (it :: rest)) = [])
    by (unfold JS.length in Hzero; apply length_zero_iff_nil; lia).
  apply payload_empty in Hempty; [discriminate |].
  apply Forall_map. eapply Forall_impl; [| exact Hitems]. intros x [H _]. exact H.
Qed.

Lemma printResponse_prints_fields_witness :
  let items := [INumber 1 12; IMessage 3 [PVarint 1 0; PBytes 2 [71; 50]]] in
  let body := payload (map item_part items) in
  let raw := response [170; 18; 0; 13; 1; 1] 128 32 body [21; 204] in
  printResponse 3 raw
  = Some (Done (match items with
                | [] => [("    Short: " ++ raw)%string]
                | _ =>
                    ("    Service: 0x" ++ byte_hex 128 ++ "-" ++ byte_hex 32
                     ++ "  Payload: " ++ toHex body)%string
                    :: flat_map item_lines items
                end)).
Proof.
  apply (printResponse_prints_fields [170; 18; 0; 13; 1; 1] 128 32
           [INumber 1 12; IMessage 3 [PVarint 1 0; PBytes 2 [71; 50]]] [21; 204] 3);
    try reflexivity.
  - repeat constructor; unfold byte; lia.
  - unfold byte; lia.
  - unfold byte; lia.
  - repeat constructor; unfold byte; lia.
  - repeat constructor; unfold byte; cbn; lia.
  - split; [cbn; lia | repeat constructor; cbn; lia].
Defined.

End PrintingFacts.


(* ================================================================== *)
(** ** Facts about the async methods *)
(* ================================================================== *)

Module AsyncFacts.

Import JS Sdk Invariants Views Async SdkFacts ClientFacts.

Lemma nth_error_app_at {A} (l l' : list A) k :
  nth_error (l ++ l') (List.length l + k) = nth_error l' k.
Proof.
  rewrite nth_error_app2 by lia. f_equal. lia.
Qed.

Lemma update_app_at {A} (f : A -> A) (l l' : list A) k :
  update (List.length l + k) f (l ++ l') = l ++ update k f l'.
Proof.
  induction l as [| x l IH]; cbn [List.length Nat.add app update]; [reflexivity |].
  now rewrite IH.
Qed.

Lemma settle_app_at ps ps' k st :
  settle (List.length ps + k) st (ps ++ ps') = ps ++ settle k st ps'.
Proof.
  unfold settle. apply update_app_at.
Qed.

Lemma nth_error_app_before {A} (l l' : list A) k :
  (k < List.length l)%nat -> nth_error (l ++ l') k = nth_error l k.
Proof.
  intros Hk. now apply nth_error_app1.
Qed.

(** [connect] on a client whose socket is not open. *)
Lemma connect_effect w :
  is_open w = false ->
  connect w
  = (mkCall (AwaitBridge (List.length (promises w) + 1)) (List.length (promises w)),
     if accepts w (url (this w)) then
       mkWorld (set_ws (Some (List.length (sockets w))) (set_closed false (this w)))
               (promises w ++ [Pending; Pending])
               (sockets w ++ [mkWebSocket CONNECTING [] (List.length (promises w) + 1) false])
               (now w) (calls w) (accepts w)
     else
       mkWorld (set_closed false (this w)) (promises w ++ [Pending; Rejected SyntaxError])
               (sockets w) (now w) (calls w) (accepts w)).
Proof.
  intros Hopen. unfold connect. cbn [new_promise].
  set (w0 := with_promises (fun ps => ps ++ [Pending]) w).
  assert (Hopen0 : is_open w0 = false) by exact Hopen.
  destruct (connectBridge_effect false w0) as (Hb & Hw).
  destruct (connectBridge false w0) as [b w1]. cbn [fst snd] in *.
  subst b w1. rewrite Hopen0.
  change (accepts w0 (url (this w0))) with (accepts w (url (this w))).
  destruct (accepts w (url (this w))); unfold w0; fields;
    rewrite !length_app, <- !app_assoc; reflexivity.
Qed.

Ltac worlds := unfold with_this, with_promises, with_sockets; fields.

Lemma resume_waits c w p :
  match at_await c with
  | AwaitBridge b => b = p
  | AwaitConnect q | AwaitCommand q _ | AwaitDisconnect q => q = p
  end ->
  promise_state w p = Some Pending ->
  resume_all c w = (w, Some c).
Proof.
  intros Hat Hp. destruct c as [a r]. cbn [at_await] in Hat.
  unfold resume_all, resume. cbn [at_await returned].
  destruct a; subst; rewrite Hp; cbn [at_await]; rewrite Hp; reflexivity.
Qed.

Section Calls.

Variable JSON_parse : string -> option JSON.

(** X26.  [connect()] on a client without an open socket, with a url
    that the platform accepts.  The call makes a socket and waits;
    nothing is sent before the socket opens.  When it opens, the call
    goes on and sends [{ id, method: "connect" }] on it, with the next
    id of the client; and when the reply with that id and without
    [error] arrives, the promise that [connect] returned is resolved,
    with no value. *)
Theorem connect_succeeds (w : World) (raw : string) (members : list (string * JSON)) :
  is_open w = false ->
  accepts w (url (this w)) = true ->
  map_get (pending (this w)) (next_key w) = None ->
  JSON_parse raw = Some (JObject members) ->
  assoc "event" members = None ->
  assoc "id" members = Some (JString (next_key w)) ->
  assoc "error" members = None ->
  let c := fst (connect w) in
  let w1 := snd (connect w) in
  let i := List.length (sockets w) in
  let w2 := step JSON_parse (SocketOpen i) w1 in
  let w3 := fst (resume_all c w2) in
  let w4 := step JSON_parse (SocketMessage i raw) w3 in
  resume_all c w1 = (w1, Some c)
  /\ option_map outbox (nth_error (sockets w1) i) = Some []
  /\ option_map outbox (nth_error (sockets w3) i)
     = Some [request (next_key w) "connect" None]
  /\ promise_state w3 (returned c) = Some Pending
  /\ exists c',
       snd (resume_all c w2) = Some c'
       /\ snd (resume_all c' w4) = None
       /\ promise_state (fst (resume_all c' w4)) (returned c) = Some (Fulfilled None).
Proof.
  intros Hopen Hurl Hfresh Hparse Hevent Hid Herror.
  cbv zeta. rewrite (connect_effect w Hopen), Hurl. cbn [fst snd].
  remember (next_key w) as K eqn:HK in *.
  set (r := List.length (promises w)). set (i := List.length (sockets w)).
  set (g1 := set_ws (Some i) (set_closed false (this w))).
  set (w1 := mkWorld g1 (promises w ++ [Pending; Pending])
                     (sockets w ++ [mkWebSocket CONNECTING [] (r + 1) false]) (now w) (calls w) (accepts w)).
  set (c := mkCall (AwaitBridge (r + 1)) r).
  assert (Hwait : resume_all c w1 = (w1, Some c)).
  { apply (resume_waits c w1 (r + 1)); [reflexivity |].
    unfold promise_state, w1, r. fields. now rewrite nth_error_app_at. }
  assert (Hsock1 : nth_error (sockets w1) i
                   = Some (mkWebSocket CONNECTING [] (r + 1) false))
    by apply nth_error_last.
  set (w2 := mkWorld g1 (promises w ++ [Pending; Fulfilled None])
                     (sockets w ++ [mkWebSocket OPEN [] (r + 1) false]) (now w) (calls w) (accepts w)).
  assert (Hw2 : step JSON_parse (SocketOpen i) w1 = w2).
  { cbn [step]. rewrite Hsock1. fields.
    unfold onopen, resolve, w1, w2. worlds.
    unfold i, r. rewrite update_last, settle_app_at. reflexivity. }
  rewrite Hw2.
  assert (Hopen2 : is_open w2 = true).
  { unfold is_open, ws_readyState, w2, g1. fields. unfold i. now rewrite nth_error_last. }
  assert (Hkey2 : next_key w2 = K) by (rewrite HK; reflexivity).
  set (p := (r + 2)%nat).
  set (w3 := mkWorld (set_pending (map_set K p (pending (this w)))
                        (set_idCounter (increment (idCounter (this w))) g1))
                     (promises w ++ [Pending; Fulfilled None; Pending])
                     (sockets w ++ [mkWebSocket OPEN [request K "connect" None] (r + 1) false])
                     (now w) (calls w) (accepts w)).
  assert (Hsend : send "connect" None w2 = (p, w3)).
  { rewrite (surjective_pairing (send "connect" None w2)).
    rewrite send_promise, send_effect, Hopen2, Hkey2.
    unfold w2, w3, g1, p, r. fields.
    unfold i. rewrite update_last, !length_app, <- !app_assoc. fields.
    cbn [List.length app]. reflexivity. }
  set (c' := mkCall (AwaitConnect p) r).
  assert (Hgo : resume_all c w2 = (w3, Some c')).
  { unfold resume_all, resume at 1. cbn [at_await c returned].
    replace (promise_state w2 (r + 1)) with (Some (Fulfilled None))
      by (unfold promise_state, w2, r; fields; now rewrite nth_error_app_at).
    rewrite Hsend.
    change (resume (mkCall (AwaitConnect p) r) w3) with (resume c' w3).
    unfold resume. cbn [at_await c'].
    replace (promise_state w3 p) with (Some Pending)
      by (unfold promise_state, w3, p, r; fields; now rewrite nth_error_app_at).
    reflexivity. }
  rewrite Hgo. cbn [fst snd returned c].
  split; [exact Hwait |].
  split; [rewrite Hsock1; reflexivity |].
  split; [unfold w3, i; fields; now rewrite nth_error_last |].
  split; [unfold promise_state, w3, r; fields;
          rewrite <- (Nat.add_0_r (List.length (promises w))); now rewrite nth_error_app_at |].
  exists c'. split; [reflexivity |].
  set (w4 := mkWorld (set_pending (pending (this w))
                        (set_idCounter (increment (idCounter (this w))) g1))
                     (promises w ++ [Pending; Fulfilled None;
                             Fulfilled (Some (orEmptyObject (assoc "result" members)))])
                     (sockets w3) (now w) (calls w) (accepts w)).
  assert (Hw4 : step JSON_parse (SocketMessage i raw) w3 = w4).
  { cbn [step].
    replace (nth_error (sockets w3) i)
      with (Some (mkWebSocket OPEN [request K "connect" None] (r + 1) false))
      by (symmetry; apply nth_error_last).
    unfold handleMessage. rewrite Hparse.
    unfold dispatch. cbn [has get]. rewrite Hevent, Hid.
    unfold w3 at 1. fields. rewrite map_get_set, String.eqb_refl.
    rewrite Herror. unfold resolve, w3, w4. worlds.
    change (@map_set nat K p (pending (this w)))
      with (@map_set PendingRequest K p (pending (this w))).
    rewrite (map_delete_set_fresh (pending (this w)) K p Hfresh).
    unfold p, r. rewrite settle_app_at. reflexivity. }
  rewrite Hw4. unfold resume_all, resume. cbn [at_await c' returned].
  replace (promise_state w4 p)
    with (Some (Fulfilled (Some (orEmptyObject (assoc "result" members)))))
    by (unfold promise_state, w4, p, r; fields; now rewrite nth_error_app_at).
  cbn [fst snd]. split; [reflexivity |].
  unfold resolve, promise_state, w4, r. fields.
  rewrite <- (Nat.add_0_r (List.length (promises w))) at 1 2.
  rewrite settle_app_at, nth_error_app_at. reflexivity.
Qed.

(** X27.  [connect()] when the connection fails.  When the platform
    has made a socket and the socket fails, the error event rejects the
    promise of [connectBridge], the call ends there, and the promise
    that [connect] returned is rejected with the same error, ["Bridge
    connection failed: <url>"]; when [new WebSocket] has refused the
    url, the promise of [connectBridge] is rejected from the start, and
    the promise that [connect] returned is rejected with what the
    constructor threw.  Either way no request was sent and no id was
    used. *)
Theorem connect_fails (w : World) :
  is_open w = false ->
  let c := fst (connect w) in
  let w1 := snd (connect w) in
  let i := List.length (sockets w) in
  let w2 := step JSON_parse (SocketError i) w1 in
  snd (resume_all c w2) = None
  /\ promise_state (fst (resume_all c w2)) (returned c)
     = Some (Rejected (if accepts w (url (this w))
                       then Error ("Bridge connection failed: " ++ url (this w))
                       else SyntaxError))
  /\ sockets (fst (resume_all c w2)) = sockets w1
  /\ idCounter (this (fst (resume_all c w2))) = idCounter (this w)
  /\ pending (this (fst (resume_all c w2))) = pending (this w).
Proof.
  intros Hopen. cbv zeta. rewrite (connect_effect w Hopen). cbn [fst snd].
  set (r := List.length (promises w)). set (i := List.length (sockets w)).
  destruct (accepts w (url (this w))) eqn:Hurl.
  - set (g1 := set_ws (Some i) (set_closed false (this w))).
    set (w1 := mkWorld g1 (promises w ++ [Pending; Pending])
                       (sockets w ++ [mkWebSocket CONNECTING [] (r + 1) false])
                       (now w) (calls w) (accepts w)).
    set (failed := Error ("Bridge connection failed: " ++ url (this w))).
    set (w2 := mkWorld g1 (promises w ++ [Pending; Rejected failed])
                       (sockets w1) (now w) (calls w) (accepts w)).
    assert (Hw2 : step JSON_parse (SocketError i) w1 = w2).
    { cbn [step].
      replace (nth_error (sockets w1) i)
        with (Some (mkWebSocket CONNECTING [] (r + 1) false))
        by (symmetry; apply nth_error_last).
      rewrite onerror_effect.
      replace (is_open w1) with false.
      2:{ unfold is_open, ws_readyState, w1, g1. fields. unfold i.
          now rewrite nth_error_last. }
      cbv zeta. fields. unfold reject, w1, w2. worlds.
      unfold r. rewrite settle_app_at. reflexivity. }
    rewrite Hw2. unfold resume_all, resume. cbn [at_await returned].
    replace (promise_state w2 (r + 1)) with (Some (Rejected failed))
      by (unfold promise_state, w2, r; fields; now rewrite nth_error_app_at).
    cbn [fst snd]. split; [reflexivity |].
    split; [| repeat split].
    unfold reject, promise_state, w2, r. worlds.
    rewrite <- (Nat.add_0_r (List.length (promises w))) at 1 2.
    rewrite settle_app_at, nth_error_app_at. reflexivity.
  - set (w1 := mkWorld (set_closed false (this w))
                       (promises w ++ [Pending; Rejected SyntaxError])
                       (sockets w) (now w) (calls w) (accepts w)).
    assert (Hw2 : step JSON_parse (SocketError i) w1 = w1).
    { cbn [step].
      replace (nth_error (sockets w1) i) with (@None WebSocket); [reflexivity |].
      symmetry. apply nth_error_None. unfold w1, i. fields. lia. }
    rewrite Hw2. unfold resume_all, resume. cbn [at_await returned].
    replace (promise_state w1 (r + 1)) with (Some (Rejected SyntaxError))
      by (unfold promise_state, w1, r; fields; now rewrite nth_error_app_at).
    cbn [fst snd]. split; [reflexivity |].
    split; [| repeat split].
    unfold reject, promise_state, w1, r. worlds.
    rewrite <- (Nat.add_0_r (List.length (promises w))) at 1 2.
    rewrite settle_app_at, nth_error_app_at. reflexivity.
Qed.

(** [close] on an open socket. *)
Lemma close_effect w :
  is_open w = true ->
  close w
  = (List.length (promises w),
     Some (mkCall (AwaitDisconnect (List.length (promises w) + 1))
                  (List.length (promises w))),
     snd (send "disconnect" None (with_promises (fun ps => ps ++ [Pending]) w))).
Proof.
  intros Hopen. unfold close. cbn [new_promise].
  set (w0 := with_promises (fun ps => ps ++ [Pending]) w).
  assert (Hopen0 : is_open w0 = true) by exact Hopen.
  rewrite Hopen0.
  pose proof (send_promise "disconnect" None w0) as Hp.
  destruct (send "disconnect" None w0) as [p w1]. cbn [fst snd] in *.
  subst p. unfold w0. fields. rewrite length_app. reflexivity.
Qed.

Lemma well_formed_push w :
  well_formed w -> well_formed (with_promises (fun ps => ps ++ [Pending]) w).
Proof.
  intros (Hp & Hs). split; fields; rewrite length_app; cbn [List.length].
  - intros k r Hin. specialize (Hp k r Hin). lia.
  - intros s Hin. specialize (Hs s Hin). lia.
Qed.

(** The promise that an async method returned is held by nothing but
    the call. *)
Lemma returned_orphan method params w :
  well_formed w ->
  orphan (List.length (promises w))
         (snd (send method params (with_promises (fun ps => ps ++ [Pending]) w))).
Proof.
  intros (Hp & Hs).
  set (w0 := with_promises (fun ps => ps ++ [Pending]) w).
  rewrite send_effect.
  change (is_open w0) with (is_open w). change (next_key w0) with (next_key w).
  destruct (is_open w); (split; [| split]).
  - unfold promise_state, w0. worlds.
    rewrite nth_error_app_before by (rewrite length_app; cbn [List.length]; lia).
    apply nth_error_last.
  - unfold w0. worlds. intros k Hin. apply in_map_set in Hin.
    destruct Hin as [Heq | Hin].
    + injection Heq as _ Heq. rewrite length_app in Heq. cbn [List.length] in Heq. lia.
    + specialize (Hp k _ Hin). lia.
  - unfold w0. worlds. intros s Hin Heq.
    assert (Hold : exists s0, In s0 (sockets w) /\ awaiting s = awaiting s0).
    { destruct (ws (this w)) as [i |]; [| eauto].
      eapply sockets_awaiting_update; [| exact Hin]. reflexivity. }
    destruct Hold as (s0 & Hin0 & Heq0). specialize (Hs s0 Hin0). lia.
  - unfold promise_state, w0. worlds.
    rewrite nth_error_app_before by (rewrite length_app; cbn [List.length]; lia).
    apply nth_error_last.
  - unfold w0. worlds. intros k Hin. specialize (Hp k _ Hin). lia.
  - unfold w0. worlds. intros s Hin Heq. specialize (Hs s Hin). lia.
Qed.

(** X28.  [close()] does not close the bridge before the glasses have
    answered.  On an open socket it sends [{ id, method: "disconnect" }]
    and waits: as long as no message with that id arrives and no
    socket closes, whatever else happens, the call stays where it is
    and the promise that it returned stays pending; there is no
    timeout.  Without an open socket it closes the bridge at once and
    its promise is resolved. *)
Theorem close_waits_for_disconnect (w : World) (ops : list Op) :
  well_formed w ->
  forallb (quiet JSON_parse (next_key w)) ops = true ->
  let r := fst (fst (close w)) in
  let w1 := snd (close w) in
  if is_open w then
    exists call,
      snd (fst (close w)) = Some call /\ returned call = r
      /\ (forall i, ws (this w) = Some i ->
            option_map outbox (nth_error (sockets w1) i)
            = option_map (fun s => outbox s ++ [request (next_key w) "disconnect" None])
                         (nth_error (sockets w) i))
      /\ closed (this w1) = closed (this w) /\ ws (this w1) = ws (this w)
      /\ resume_all call (run JSON_parse ops w1) = (run JSON_parse ops w1, Some call)
      /\ promise_state (run JSON_parse ops w1) r = Some Pending
  else
    snd (fst (close w)) = None
    /\ promise_state w1 r = Some (Fulfilled None)
    /\ closed (this w1) = true /\ ws (this w1) = None
    /\ reconnectTimer (this w1) = None
    /\ idCounter (this w1) = idCounter (this w).
Proof.
  intros Hwf Hquiet. cbv zeta.
  destruct (is_open w) eqn:Hopen.
  - rewrite (close_effect w Hopen). cbn [fst snd].
    set (w0 := with_promises (fun ps => ps ++ [Pending]) w).
    set (r := List.length (promises w)).
    pose proof (well_formed_push w Hwf) as Hwf0. fold w0 in Hwf0.
    assert (Hopen0 : is_open w0 = true) by exact Hopen.
    pose proof (send_owned "disconnect" None w0 Hwf0 Hopen0) as Howned.
    rewrite send_promise in Howned.
    change (next_key w0) with (next_key w) in Howned.
    replace (List.length (promises w0)) with (r + 1)%nat in Howned
      by (unfold w0, r; fields; rewrite length_app; reflexivity).
    exists (mkCall (AwaitDisconnect (r + 1)) r).
    split; [reflexivity |]. split; [reflexivity |].
    split.
    { intros i Hws. rewrite send_effect, Hopen0.
      change (ws (this w0)) with (ws (this w)). rewrite Hws.
      unfold w0. fields. rewrite nth_error_update, Nat.eqb_refl.
      destruct (nth_error (sockets w) i); reflexivity. }
    split; [rewrite send_effect, Hopen0; reflexivity |].
    split; [rewrite send_effect, Hopen0; reflexivity |].
    split.
    + apply (resume_waits _ _ (r + 1)); [reflexivity |].
      apply (owned_run JSON_parse (next_key w) (r + 1)%nat ops _ Hquiet Howned).
    + apply (orphan_run JSON_parse r ops). apply returned_orphan, Hwf.
  - cbn [fst snd]. unfold close. cbn [new_promise].
    set (w0 := with_promises (fun ps => ps ++ [Pending]) w).
    assert (Hopen0 : is_open w0 = false) by exact Hopen.
    rewrite Hopen0. cbn [fst snd].
    split; [reflexivity |].
    unfold closeBridge, resolve, promise_state. fields.
    change (ws (this w0)) with (ws (this w)).
    destruct (ws (this w)) eqn:Hws; unfold w0; worlds;
      rewrite ?Hws, settle_last, nth_error_last; repeat split.
Qed.

Lemma closeBridge_closed w :
  closed (this (closeBridge w)) = true /\ ws (this (closeBridge w)) = None
  /\ reconnectTimer (this (closeBridge w)) = None
  /\ promises (closeBridge w) = promises w.
Proof.
  unfold closeBridge. fields.
  destruct (ws (this w)) eqn:Hws; worlds; rewrite ?Hws; repeat split.
Qed.

(** The reply to a request settles its promise. *)
Lemma reply_settles raw members K p w :
  JSON_parse raw = Some (JObject members) ->
  assoc "event" members = None ->
  assoc "id" members = Some (JString K) ->
  ordinary members = true ->
  map_get (pending (this w)) K = Some p ->
  promise_state w p = Some Pending ->
  promise_state (fst (handleMessage JSON_parse raw w)) p
  = Some (match assoc "error" members with
          | None => Fulfilled (Some (orEmptyObject (assoc "result" members)))
          | Some err => Rejected (BridgeError (get err "code") (get err "message"))
          end).
Proof.
  intros Hparse Hevent Hid Herror Hget Hp.
  unfold handleMessage. rewrite Hparse.
  unfold dispatch. cbn [has get]. rewrite Hevent, Hid, Hget.
  unfold promise_state in *. unfold ordinary in Herror.
  destruct (assoc "error" members) as [[| | | | |] |]; try discriminate;
    rewrite ?Herror; unfold reject, resolve; worlds; rewrite settle_at, Hp; reflexivity.
Qed.

(** A reply from which no error can be built loses the request: its
    entry is gone, [handleMessage] throws, and nothing holds on to the
    promise any more. *)
Lemma lost_reply_orphans method params raw members w :
  well_formed w -> is_open w = true ->
  JSON_parse raw = Some (JObject members) ->
  assoc "event" members = None ->
  assoc "id" members = Some (JString (next_key w)) ->
  ordinary members = false ->
  orphan (List.length (promises w))
         (fst (handleMessage JSON_parse raw (snd (send method params w)))).
Proof.
  intros (Hpending & Hsockets) Hopen Hparse Hevent Hid Hlost.
  rewrite send_effect, Hopen.
  set (p := List.length (promises w)).
  set (K := next_key w) in *.
  set (w1 := mkWorld _ _ _ _ _ _).
  set (w2 := with_this (fun g => set_pending (map_delete K (pending g)) g) w1).
  assert (Hw2 : fst (handleMessage JSON_parse raw w1) = w2).
  { unfold handleMessage. rewrite Hparse.
    unfold dispatch. cbn [has get]. rewrite Hevent, Hid.
    replace (map_get (pending (this w1)) K) with (Some p)
      by (unfold w1; fields; now rewrite map_get_set, String.eqb_refl).
    fold w2. unfold ordinary in Hlost.
    destruct (assoc "error" members) as [[| | | | |] |]; try discriminate;
      rewrite ?Hlost; reflexivity. }
  rewrite Hw2. split; [| split].
  - unfold promise_state, w2, w1. worlds. apply nth_error_last.
  - unfold w2, w1. worlds. intros k Hin.
    pose proof (in_map_delete_key _ _ _ _ Hin) as Hne.
    apply in_map_delete in Hin. apply in_map_set in Hin.
    destruct Hin as [Heq | Hin]; [congruence |].
    specialize (Hpending k _ Hin). unfold p in Hpending. lia.
  - unfold w2, w1. worlds. intros s Hin Heq.
    assert (Hold : exists s0, In s0 (sockets w) /\ awaiting s = awaiting s0).
    { destruct (ws (this w)) as [i |]; [| eauto].
      eapply sockets_awaiting_update; [| exact Hin]. reflexivity. }
    destruct Hold as (s0 & Hin0 & Heq0). specialize (Hsockets s0 Hin0).
    unfold p in Heq. lia.
Qed.

(** X29.  [close()] goes on when its request is settled, whichever way:
    by the reply of the glasses, be it a result or an error with a
    [code] and a [message] that have a text, or by the close of the
    socket, which rejects the request.  The rejection is caught; in
    both cases the call ends with [closeBridge], so the object is
    closed, has no socket and no reconnect timer (the one that the
    close handler may just have started is cleared), and the promise
    that [close] returned is resolved.  A reply from which no error
    can be built ([error] is [null], or its [code] or [message] has no
    text) settles nothing: the call waits on, whatever happens later,
    and its promise stays pending. *)
Theorem close_completes (w : World) (i : nat) (raw : string)
        (members : list (string * JSON)) (call : Call) :
  well_formed w -> is_open w = true -> ws (this w) = Some i ->
  JSON_parse raw = Some (JObject members) ->
  assoc "event" members = None ->
  assoc "id" members = Some (JString (next_key w)) ->
  snd (fst (close w)) = Some call ->
  let w1 := snd (close w) in
  let replied := step JSON_parse (SocketMessage i raw) w1 in
  let dropped := step JSON_parse (SocketClose i) w1 in
  returned call = fst (fst (close w))
  /\ closes call dropped
  /\ if ordinary members then closes call replied
     else forall ops, waits call (run JSON_parse ops replied).
Proof.
  intros Hwf Hopen Hws Hparse Hevent Hid. cbv zeta.
  rewrite (close_effect w Hopen). cbn [fst snd].
  set (w0 := with_promises (fun ps => ps ++ [Pending]) w).
  set (r := List.length (promises w)).
  set (w1 := snd (send "disconnect" None w0)).
  intros [= <-]. cbn [returned].
  split; [reflexivity |].
  pose proof (well_formed_push w Hwf) as Hwf0. fold w0 in Hwf0.
  assert (Hopen0 : is_open w0 = true) by exact Hopen.
  assert (Hlen0 : List.length (promises w0) = (r + 1)%nat)
    by (unfold w0, r; fields; rewrite length_app; reflexivity).
  assert (Hp1 : promise_state w1 (r + 1) = Some Pending).
  { pose proof (send_owned "disconnect" None w0 Hwf0 Hopen0) as (Hp & _).
    rewrite send_promise, Hlen0 in Hp. exact Hp. }
  assert (Hget1 : map_get (pending (this w1)) (next_key w) = Some (r + 1)%nat).
  { unfold w1. rewrite send_effect, Hopen0. fields.
    change (next_key w0) with (next_key w).
    rewrite map_get_set, String.eqb_refl. now rewrite Hlen0. }
  assert (Hsock1 : exists s1, nth_error (sockets w1) i = Some s1 /\ readyState s1 = OPEN).
  { unfold w1. rewrite send_effect, Hopen0.
    change (ws (this w0)) with (ws (this w)). rewrite Hws. unfold w0. fields.
    rewrite nth_error_update, Nat.eqb_refl.
    unfold is_open, ws_readyState in Hopen. rewrite Hws in Hopen.
    destruct (nth_error (sockets w) i) as [s |]; [| discriminate].
    cbn [option_map] in *. destruct (readyState s) eqn:Hrs; try discriminate.
    eexists. split; [reflexivity | reflexivity]. }
  destruct Hsock1 as (s1 & Hs1 & Hrs1).
  pose proof (returned_orphan "disconnect" None w Hwf) as Horphan.
  fold w0 in Horphan. fold w1 in Horphan. fold r in Horphan.
  assert (Hends : forall w2 st,
             promise_state w2 r = Some Pending ->
             promise_state w2 (r + 1) = Some st -> st <> Pending ->
             closes (mkCall (AwaitDisconnect (r + 1)) r) w2).
  { intros w2 st Hr2 Hst Hsettled.
    destruct (closeBridge_closed w2) as (Hc & Hn & Ht & Hps).
    assert (Hresume : resume_all (mkCall (AwaitDisconnect (r + 1)) r) w2
                      = (resolve r None (closeBridge w2), None)).
    { unfold resume_all, resume. cbn [at_await returned]. rewrite Hst.
      destruct st; [congruence | reflexivity | reflexivity]. }
    unfold closes. rewrite Hresume. cbn [fst snd returned].
    split; [reflexivity |].
    split; [| repeat split; assumption].
    unfold resolve, promise_state in *. worlds.
    rewrite settle_at, Hps, Hr2. reflexivity. }
  split; [| destruct (ordinary members) eqn:Hordinary].
  - apply (Hends _ (Rejected (Error "Bridge connection lost")));
      [apply (orphan_step JSON_parse r _ w1 Horphan) | | discriminate].
    cbn [step]. rewrite Hs1, Hrs1, onclose_effect.
    unfold promise_state. fields.
    apply (reject_all_rejects _ _ _ (next_key w)).
    + apply map_get_in. exact Hget1.
    + unfold promise_state. fields. exact Hp1.
  - eapply Hends; [apply (orphan_step JSON_parse r _ w1 Horphan) | |].
    + cbn [step]. rewrite Hs1.
      apply (reply_settles raw members (next_key w) (r + 1)%nat w1
               Hparse Hevent Hid Hordinary Hget1 Hp1).
    + destruct (assoc "error" members); discriminate.
  - intros ops.
    pose proof (lost_reply_orphans "disconnect" None raw members w0 Hwf0 Hopen0
                  Hparse Hevent Hid Hordinary) as Hlost.
    fold w1 in Hlost. rewrite Hlen0 in Hlost.
    assert (Hreplied : step JSON_parse (SocketMessage i raw) w1
                       = fst (handleMessage JSON_parse raw w1))
      by (cbn [step]; now rewrite Hs1).
    rewrite Hreplied. split.
    + apply (resume_waits _ _ (r + 1)); [reflexivity |].
      apply (orphan_run JSON_parse (r + 1)%nat ops _ Hlost).
    + cbn [returned]. apply (orphan_run JSON_parse r ops).
      rewrite <- Hreplied. apply (orphan_step JSON_parse r _ w1 Horphan).
Qed.

(** X30.  A command gives back what [send] gives.  On an open socket
    the call waits for the reply to its request; when the reply has no
    [error], the promise of [getStatus] is resolved with
    [msg.result ?? {}] and the promise of every other command with no
    value, and when it has an [error] with a [code] and a [message]
    that have a text, the promise is rejected with the error made from
    them.  After a reply from which no error can be built ([error] is
    [null], or its [code] or [message] has no text) the call waits on,
    whatever happens later, and its promise stays pending. *)
Theorem command_mirrors_send (method : string) (params : option JSON) (keep : bool)
        (w : World) (raw : string) (members : list (string * JSON)) :
  well_formed w -> is_open w = true ->
  JSON_parse raw = Some (JObject members) ->
  assoc "event" members = None ->
  assoc "id" members = Some (JString (next_key w)) ->
  let c := fst (command method params keep w) in
  let w1 := snd (command method params keep w) in
  let w2 := fst (handleMessage JSON_parse raw w1) in
  resume_all c w1 = (w1, Some c)
  /\ if ordinary members
     then snd (resume_all c w2) = None
          /\ promise_state (fst (resume_all c w2)) (returned c)
             = Some (match assoc "error" members with
                     | None =>
                         Fulfilled (if keep
                                    then Some (orEmptyObject (assoc "result" members))
                                    else None)
                     | Some err =>
                         Rejected (BridgeError (get err "code") (get err "message"))
                     end)
     else forall ops, waits c (run JSON_parse ops w2).
Proof.
  intros Hwf Hopen Hparse Hevent Hid. cbv zeta.
  set (w0 := with_promises (fun ps => ps ++ [Pending]) w).
  set (r := List.length (promises w)).
  set (w1 := snd (send method params w0)).
  assert (Hlen0 : List.length (promises w0) = (r + 1)%nat)
    by (unfold w0, r; fields; rewrite length_app; reflexivity).
  assert (Hcommand : command method params keep w
                     = (mkCall (AwaitCommand (r + 1) keep) r, w1)).
  { unfold command. cbn [new_promise]. fold w0.
    pose proof (send_promise method params w0) as Hp.
    unfold w1. destruct (send method params w0) as [p w']. cbn [fst snd] in *.
    subst p. now rewrite Hlen0. }
  rewrite Hcommand. cbn [fst snd returned].
  pose proof (well_formed_push w Hwf) as Hwf0. fold w0 in Hwf0.
  assert (Hopen0 : is_open w0 = true) by exact Hopen.
  assert (Hp1 : promise_state w1 (r + 1) = Some Pending).
  { pose proof (send_owned method params w0 Hwf0 Hopen0) as (Hp & _).
    rewrite send_promise, Hlen0 in Hp. exact Hp. }
  assert (Hget1 : map_get (pending (this w1)) (next_key w) = Some (r + 1)%nat).
  { unfold w1. rewrite send_effect, Hopen0. fields.
    change (next_key w0) with (next_key w).
    rewrite map_get_set, String.eqb_refl. now rewrite Hlen0. }
  pose proof (returned_orphan method params w Hwf) as Horphan.
  fold w0 in Horphan. fold w1 in Horphan. fold r in Horphan.
  split; [apply (resume_waits _ _ (r + 1)); [reflexivity | exact Hp1] |].
  set (w2 := fst (handleMessage JSON_parse raw w1)).
  assert (Hr2 : promise_state w2 r = Some Pending).
  { destruct Horphan as (Hr & Hnone & _).
    unfold w2, handleMessage. rewrite Hparse.
    rewrite RawReplyFacts.dispatch_promise_other; [exact Hr | exact Hnone]. }
  destruct (ordinary members) eqn:Hordinary.
  - pose proof (reply_settles raw members (next_key w) (r + 1)%nat w1
                  Hparse Hevent Hid Hordinary Hget1 Hp1) as Hp2.
    fold w2 in Hp2.
    unfold resume_all, resume. cbn [at_await returned]. rewrite Hp2.
    unfold resolve, reject, promise_state in *.
    destruct (assoc "error" members) as [err |]; cbn [fst snd]; worlds;
      (split; [reflexivity |]); rewrite settle_at, Hr2; reflexivity.
  - intros ops.
    pose proof (lost_reply_orphans method params raw members w0 Hwf0 Hopen0
                  Hparse Hevent Hid Hordinary) as Hlost.
    fold w1 in Hlost. fold w2 in Hlost. rewrite Hlen0 in Hlost.
    split.
    + apply (resume_waits _ _ (r + 1)); [reflexivity |].
      apply (orphan_run JSON_parse (r + 1)%nat ops _ Hlost).
    + cbn [returned]. apply (orphan_run JSON_parse r ops).
      split; [exact Hr2 | split].
      * intros k Hin. destruct Horphan as (_ & Hnone & _).
        apply (Hnone k).
        unfold w2, handleMessage in Hin. rewrite Hparse in Hin.
        destruct (dispatch_pending (JObject members) w1) as (_ & [Heq | (k' & Heq)]);
          rewrite Heq in Hin; [exact Hin | now apply in_map_delete in Hin].
      * unfold w2, handleMessage. rewrite Hparse.
        destruct (dispatch_frame (JObject members) w1) as (_ & Hs & _).
        rewrite Hs. apply Horphan.
Qed.

End Calls.

Lemma connect_succeeds_witness :
  let w := new_G2 Samples.platform NoOptions in
  let c := fst (connect w) in
  let w1 := snd (connect w) in
  let i := List.length (sockets w) in
  let w2 := step Samples.parse (SocketOpen i) w1 in
  let w3 := fst (resume_all c w2) in
  let w4 := step Samples.parse (SocketMessage i Samples.response_text) w3 in
  resume_all c w1 = (w1, Some c)
  /\ option_map outbox (nth_error (sockets w1) i) = Some []
  /\ option_map outbox (nth_error (sockets w3) i)
     = Some [request (next_key w) "connect" None]
  /\ promise_state w3 (returned c) = Some Pending
  /\ exists c',
       snd (resume_all c w2) = Some c'
       /\ snd (resume_all c' w4) = None
       /\ promise_state (fst (resume_all c' w4)) (returned c) = Some (Fulfilled None).
Proof.
  apply (connect_succeeds Samples.parse (new_G2 Samples.platform NoOptions)
           Samples.response_text
           [("id", JString "1"); ("result", JObject [("connected", JBool true)])]);
    reflexivity.
Defined.

Lemma connect_fails_witness :
  let w := new_G2 Samples.platform NoOptions in
  let c := fst (connect w) in
  let w1 := snd (connect w) in
  let i := List.length (sockets w) in
  let w2 := step Samples.parse (SocketError i) w1 in
  snd (resume_all c w2) = None
  /\ promise_state (fst (resume_all c w2)) (returned c)
     = Some (Rejected (Error ("Bridge connection failed: " ++ url (this w))))
  /\ sockets (fst (resume_all c w2)) = sockets w1
  /\ idCounter (this (fst (resume_all c w2))) = idCounter (this w)
  /\ pending (this (fst (resume_all c w2))) = pending (this w).
Proof.
  exact (connect_fails Samples.parse (new_G2 Samples.platform NoOptions) eq_refl).
Defined.

Lemma close_waits_for_disconnect_witness :
  let w := Samples.connected in
  let ops := [Elapse 60000; SocketMessage 0%nat Samples.stray_text;
              CallOn "response" 4%nat; Elapse 3600000] in
  let r := fst (fst (close w)) in
  let w1 := snd (close w) in
  if is_open w then
    exists call,
      snd (fst (close w)) = Some call /\ returned call = r
      /\ (forall i, ws (this w) = Some i ->
            option_map outbox (nth_error (sockets w1) i)
            = option_map (fun s => outbox s ++ [request (next_key w) "disconnect" None])
                         (nth_error (sockets w) i))
      /\ closed (this w1) = closed (this w) /\ ws (this w1) = ws (this w)
      /\ resume_all call (run Samples.parse ops w1) = (run Samples.parse ops w1, Some call)
      /\ promise_state (run Samples.parse ops w1) r = Some Pending
  else
    snd (fst (close w)) = None
    /\ promise_state w1 r = Some (Fulfilled None)
    /\ closed (this w1) = true /\ ws (this w1) = None
    /\ reconnectTimer (this w1) = None
    /\ idCounter (this w1) = idCounter (this w).
Proof.
  apply (close_waits_for_disconnect Samples.parse Samples.connected
           [Elapse 60000; SocketMessage 0%nat Samples.stray_text;
            CallOn "response" 4%nat; Elapse 3600000]).
  - exact well_formed_connected.
  - reflexivity.
Defined.

Lemma close_completes_witness :
  let w := Samples.connected in
  let call := mkCall (AwaitDisconnect 2) 1 in
  let w1 := snd (close w) in
  closes call (step Samples.parse (SocketClose 0%nat) w1)
  /\ closes call (step Samples.parse (SocketMessage 0%nat Samples.response_text) w1)
  /\ forall ops,
       waits call (run Replies.parse ops
                       (step Replies.parse (SocketMessage 0%nat Replies.null_error_text) w1)).
Proof.
  destruct (close_completes Samples.parse Samples.connected 0%nat Samples.response_text
              [("id", JString "1"); ("result", JObject [("connected", JBool true)])]
              (mkCall (AwaitDisconnect 2) 1) well_formed_connected
              eq_refl eq_refl eq_refl eq_refl eq_refl eq_refl)
    as (_ & Hdropped & Hreplied).
  destruct (close_completes Replies.parse Samples.connected 0%nat Replies.null_error_text
              [("id", JString "1"); ("error", JNull)]
              (mkCall (AwaitDisconnect 2) 1) well_formed_connected
              eq_refl eq_refl eq_refl eq_refl eq_refl eq_refl)
    as (_ & _ & Hlost).
  split; [exact Hdropped |]. split; [exact Hreplied | exact Hlost].
Defined.

Lemma command_mirrors_send_witness :
  let w := Samples.connected in
  let c := fst (command "getStatus" None true w) in
  let w1 := snd (command "getStatus" None true w) in
  let w2 := fst (handleMessage Samples.parse Samples.response_text w1) in
  let w2' := fst (handleMessage Samples.parse Samples.failure_text w1) in
  resume_all c w1 = (w1, Some c)
  /\ snd (resume_all c w2) = None
  /\ promise_state (fst (resume_all c w2)) (returned c)
     = Some (Fulfilled (Some (JObject [("connected", JBool true)])))
  /\ promise_state (fst (resume_all c w2')) (returned c)
     = Some (Rejected (BridgeError (Some (JString "E42")) (Some (JString "no glasses")))).
Proof.
  destruct (command_mirrors_send Samples.parse "getStatus" None true Samples.connected
              Samples.response_text
              [("id", JString "1"); ("result", JObject [("connected", JBool true)])]
              well_formed_connected eq_refl eq_refl eq_refl eq_refl)
    as (Hwaits & Hends & Hresult).
  destruct (command_mirrors_send Samples.parse "getStatus" None true Samples.connected
              Samples.failure_text
              [("id", JString "1");
               ("error", JObject [("code", JString "E42");
                                  ("message", JString "no glasses")])]
              well_formed_connected eq_refl eq_refl eq_refl eq_refl)
    as (_ & _ & Hfailure).
  split; [exact Hwaits |]. split; [exact Hends |].
  split; [exact Hresult | exact Hfailure].
Defined.

End AsyncFacts.
